(** * ParticleSimulator kernels (simulator.cpp): model and verification

    The kernels of [ParticleSimulator] are pure functions over caller-owned
    buffers.  Each kernel is written once, as a command tree over the memory
    operations it performs (loads, stores, prefetch hints), and read in
    two ways: [exec] runs it on a flat memory and returns either the final
    memory or the undefined behaviour it ran into; [accesses] lists the array
    indices it touches. *)

From Stdlib Require Import ZArith Lia List Permutation SpecFloat.
From stdpp Require Import base tactics option list gmap.

Open Scope Z_scope.

(** ** C [int] arithmetic

    [int] is 32 bits wide on every target of the repository (x86-64 and
    AArch64, both LP64).  Signed overflow is undefined behaviour in C++;
    the checked operations below return [None] for it. *)

Definition INT_MAX : Z := 2147483647.
Definition INT_MIN : Z := -2147483648.

Definition in_int (z : Z) : bool := (INT_MIN <=? z) && (z <=? INT_MAX).

Definition int_checked (z : Z) : option Z := if in_int z then Some z else None.

(** ** Outcomes *)

Inductive fault : Type :=
| OutOfBounds (base idx : Z)   (* access to an unallocated cell [base[idx]] *)
| Misaligned (base idx : Z)    (* aligned vector access at an unaligned address *)
| SignedOverflow               (* [int] overflow *)
| Overlap                      (* memcpy on overlapping regions *)
| OutOfFuel.                   (* loop bound of the model exhausted *)

Inductive result (A : Type) : Type :=
| Ok (a : A)
| Undefined (f : fault).
Arguments Ok {A} a.
Arguments Undefined {A} f.

Inductive access : Type :=
| Rd (base idx : Z)
| Wr (base idx : Z)
| Pf (base idx : Z).

Definition access_idx (e : access) : Z :=
  match e with Rd _ i | Wr _ i | Pf _ i => i end.

Definition access_base (e : access) : Z :=
  match e with Rd b _ | Wr b _ | Pf b _ => b end.

Definition access_addr (e : access) : Z :=
  match e with Rd b i | Wr b i | Pf b i => b + i end.

Definition is_data_access (e : access) : bool :=
  match e with Pf _ _ => false | _ => true end.

(** ** Command trees

    A pointer is the address of its first element, counted in elements of the
    buffer's type ([float] for the numeric kernels, bytes for the copier);
    [p[i]] lives at address [p + i].  Memory is a finite map from addresses to
    cells: the allocated cells are the keys. *)

Section Prog.
Context {V : Type}.

Inductive prog (A : Type) : Type :=
| Ret (a : A)
| Undef (f : fault)
| LoadAt (base idx : Z) (k : V -> prog A)
| StoreAt (base idx : Z) (v : V) (k : prog A)
| PrefetchAt (base idx : Z) (k : prog A).
Arguments Ret {A} a.
Arguments Undef {A} f.
Arguments LoadAt {A} base idx k.
Arguments StoreAt {A} base idx v k.
Arguments PrefetchAt {A} base idx k.

Fixpoint bind {A B} (p : prog A) (f : A -> prog B) : prog B :=
  match p with
  | Ret a => f a
  | Undef e => Undef e
  | LoadAt b i k => LoadAt b i (fun v => bind (k v) f)
  | StoreAt b i v k => StoreAt b i v (bind k f)
  | PrefetchAt b i k => PrefetchAt b i (bind k f)
  end.

Definition load (base idx : Z) : prog V := LoadAt base idx Ret.
Definition store (base idx : Z) (v : V) : prog unit := StoreAt base idx v (Ret tt).
Definition prefetch (base idx : Z) : prog unit := PrefetchAt base idx (Ret tt).

Definition lift_int (o : option Z) : prog Z :=
  match o with Some z => Ret z | None => Undef SignedOverflow end.
Definition int_add (a b : Z) : prog Z := lift_int (int_checked (a + b)).
Definition int_mul (a b : Z) : prog Z := lift_int (int_checked (a * b)).

(** Running a command tree on a memory. *)
Fixpoint exec {A} (p : prog A) (m : gmap Z V) : result (A * gmap Z V) :=
  match p with
  | Ret a => Ok (a, m)
  | Undef e => Undefined e
  | LoadAt b i k =>
      match m !! (b + i) with
      | Some v => exec (k v) m
      | None => Undefined (OutOfBounds b i)
      end
  | StoreAt b i v k =>
      match m !! (b + i) with
      | Some _ => exec k (<[b + i := v]> m)
      | None => Undefined (OutOfBounds b i)
      end
  | PrefetchAt _ _ k => exec k m
  end.

(** The final memory of a command, when it has one. *)
Definition run (p : prog unit) (m : gmap Z V) : result (gmap Z V) :=
  match exec p m with
  | Ok (_, m') => Ok m'
  | Undefined e => Undefined e
  end.

(** The accesses of a command, in program order, when its loads return the
    values [rho] gives them. *)
Fixpoint value {A} (rho : Z -> Z -> V) (p : prog A) : option A :=
  match p with
  | Ret a => Some a
  | Undef _ => None
  | LoadAt b i k => value rho (k (rho b i))
  | StoreAt _ _ _ k => value rho k
  | PrefetchAt _ _ k => value rho k
  end.

Fixpoint accesses {A} (rho : Z -> Z -> V) (p : prog A) : list access :=
  match p with
  | Ret _ => []
  | Undef _ => []
  | LoadAt b i k => Rd b i :: accesses rho (k (rho b i))
  | StoreAt b i _ k => Wr b i :: accesses rho k
  | PrefetchAt b i k => Pf b i :: accesses rho k
  end.

(** *** Loops *)

(** Run [body] on every element of [l], in the order of [l]. *)
Fixpoint for_each {X} (l : list X) (body : X -> prog unit) : prog unit :=
  match l with
  | [] => Ret tt
  | x :: l' => bind (body x) (fun _ => for_each l' body)
  end.

(** A sequential C loop [for (int i = init; cond(i); i = incr(i)) body(i)],
    unrolled at most [fuel] times. *)
Fixpoint c_for (fuel : nat) (cond : Z -> prog bool) (incr : Z -> prog Z)
    (body : Z -> prog unit) (i : Z) : prog unit :=
  match fuel with
  | O => Undef OutOfFuel
  | S fuel' =>
      bind (cond i) (fun c =>
        if c then
          bind (body i) (fun _ =>
            bind (incr i) (fun i' => c_for fuel' cond incr body i'))
        else Ret tt)
  end.

(** The values of [i] for which the body of
    [for (int i = lb; i < ub; i += step)] runs: the logical iteration space
    of an OpenMP canonical loop.  Each of them is below [ub]; the one step
    of the counter that can leave [int], the last, is checked by
    [counter_exit] below. *)
Fixpoint loop_values (fuel : nat) (i ub step : Z) : list Z :=
  match fuel with
  | O => []
  | S fuel' => if i <? ub then i :: loop_values fuel' (i + step) ub step else []
  end.

Definition omp_iterations (lb ub step : Z) : list Z :=
  loop_values (Z.to_nat (ub - lb)) lb ub step.

(** [#pragma omp parallel for]: the iterations are independent units of
    work; [omp_parallel_for] runs them in the order of [schedule]. *)
Definition omp_parallel_for {X} (schedule : list X) (body : X -> prog unit)
  : prog unit := for_each schedule body.

(** The counter of [for (int i = lb; i < ub; i += step)] takes the values
    of [omp_iterations] and is stepped once more after the last of them.
    [counter_end] is the value that last step gives it; it is [lb] when no
    iteration runs. *)
Definition counter_end (lb ub step : Z) : Z :=
  match last (omp_iterations lb ub step) with
  | Some i => i + step
  | None => lb
  end.

(** The counter is an [int], and so is the bound, an [int] argument of the
    kernel: the last step of the counter is a signed overflow when it
    leaves [int].  (Every earlier step gives the next iteration value,
    which is below the bound.)  The check has no access to memory; a bound
    that is no [int] is no argument of the source and is not checked. *)
Definition counter_exit (lb ub step : Z) : prog unit :=
  if in_int ub && negb (in_int (counter_end lb ub step))
  then Undef SignedOverflow else Ret tt.

End Prog.

Arguments prog V A : clear implicits.
Arguments Ret {V A} a.
Arguments Undef {V A} f.
Arguments LoadAt {V A} base idx k.
Arguments StoreAt {V A} base idx v k.
Arguments PrefetchAt {V A} base idx k.
Arguments load : simpl never.
Arguments store : simpl never.
Arguments prefetch : simpl never.
Arguments int_add : simpl never.
Arguments int_mul : simpl never.

Declare Scope prog_scope.
Notation "x <- p ;; q" := (bind p (fun x => q))
  (at level 20, p at level 99, q at level 200, only parsing) : prog_scope.
Notation "p ;; q" := (bind p (fun _ => q))
  (at level 100, q at level 200, only parsing, right associativity) : prog_scope.
Open Scope prog_scope.

(** Loads of [p[i]] for the indices [i] of [idxs], and stores of the values
    [vs] to them, in the order of the list. *)
Fixpoint load_seq {V} (p : Z) (idxs : list Z) : prog V (list V) :=
  match idxs with
  | [] => Ret []
  | i :: rest => v <- load p i ;; vs <- load_seq p rest ;; Ret (v :: vs)
  end.

Fixpoint store_seq {V} (p : Z) (idxs : list Z) (vs : list V) : prog V unit :=
  match idxs, vs with
  | i :: rest, v :: vs' => store p i v ;; store_seq p rest vs'
  | _, _ => Ret tt
  end.

(** ** The kernels of simulator.cpp *)

(** *** Position updaters *)

Section Positions.
Context {float : Type} (fadd : float -> float -> float).

(** An [__m256] holds eight packed floats: the vector at [&p[i]] covers
    [p[i]], ..., [p[i + 7]]. *)
Definition lanes (i : Z) : list Z := seqZ i 8.

(** [_mm256_load_ps] and [_mm256_store_ps] need a 32-byte aligned address:
    eight floats of four bytes. *)
Definition aligned32 (p i : Z) : bool := (p + i) mod 8 =? 0.

Definition mm256_load_ps (p i : Z) : prog float (list float) :=
  if aligned32 p i then load_seq p (lanes i)
  else Undef (Misaligned p i).

Definition mm256_add_ps (a b : list float) : list float := zip_with fadd a b.

Definition mm256_store_ps (p i : Z) (v : list float) : prog float unit :=
  if aligned32 p i then store_seq p (lanes i) v
  else Undef (Misaligned p i).

(** Body of the loop of [update_positions_simd] (simulator.cpp:11-20). *)
Definition update_positions_simd_body (x y vx vy i : Z) : prog float unit :=
  px <- mm256_load_ps x i ;;
  py <- mm256_load_ps y i ;;
  pvx <- mm256_load_ps vx i ;;
  pvy <- mm256_load_ps vy i ;;
  let px := mm256_add_ps px pvx in
  let py := mm256_add_ps py pvy in
  mm256_store_ps x i px ;;
  mm256_store_ps y i py.

(** [for (int i = 0; i < n; i += 8)] under [#pragma omp parallel for]. *)
Definition update_positions_simd (x y vx vy n : Z) : prog float unit :=
  omp_parallel_for (omp_iterations 0 n 8) (update_positions_simd_body x y vx vy) ;;
  counter_exit 0 n 8.

(** Body of the loop of [update_positions_baseline] (simulator.cpp:77-78):
    [x[i] += vx[i]; y[i] += vy[i];].  The right operand of a compound
    assignment is evaluated first. *)
Definition update_positions_baseline_body (x y vx vy i : Z) : prog float unit :=
  b <- load vx i ;; a <- load x i ;; store x i (fadd a b) ;;
  b <- load vy i ;; a <- load y i ;; store y i (fadd a b).

(** [for (int i = 0; i < n; ++i)] under [#pragma omp parallel for]. *)
Definition update_positions_baseline (x y vx vy n : Z) : prog float unit :=
  omp_parallel_for (omp_iterations 0 n 1) (update_positions_baseline_body x y vx vy) ;;
  counter_exit 0 n 1.

End Positions.

(** *** Matrix transposers *)

Section Transpose.
Context {float : Type}.

(** [dst[j * n + i] = src[i * n + j];] with the indices computed in [int];
    the right operand of the assignment is evaluated first. *)
Definition transpose_assign (src dst n i j : Z) : prog float unit :=
  s <- int_mul i n ;; s <- int_add s j ;; v <- load src s ;;
  d <- int_mul j n ;; d <- int_add d i ;; store dst d v.

(** The iteration space of two loops under [collapse(2)], row-major. *)
Definition collapse2 (outer inner : list Z) : list (Z * Z) :=
  i ← outer; j ← inner; [(i, j)].

(** [matrix_transpose_baseline] (simulator.cpp:82-89).  The counters [i]
    and [j] have the same bound and step: one check stands for both. *)
Definition matrix_transpose_baseline (src dst n : Z) : prog float unit :=
  omp_parallel_for
    (collapse2 (omp_iterations 0 n 1) (omp_iterations 0 n 1))
    (fun ij => transpose_assign src dst n ij.1 ij.2) ;;
  counter_exit 0 n 1.

(** [const int block = 64 / sizeof(float);] *)
Definition sizeof_float : Z := 4.
Definition block : Z := 64 / sizeof_float.

(** [for (int k = lo; k < lo + block && k < n; ++k) body(k)]. *)
Definition tile_loop (lo n : Z) (body : Z -> prog float unit) : prog float unit :=
  c_for (S (Z.to_nat block))
    (fun k => ub <- int_add lo block ;; Ret ((k <? ub) && (k <? n)))
    (fun k => int_add k 1)
    body lo.

(** One tile of [matrix_transpose_cache_optimized] (simulator.cpp:46-53):
    the prefetch hint, then the two inner loops. *)
Definition transpose_tile (src dst n i j : Z) : prog float unit :=
  a <- int_mul i n ;; a <- int_add a j ;; a <- int_add a block ;;
  prefetch src a ;;
  tile_loop i n (fun ii =>
    tile_loop j n (fun jj =>
      transpose_assign src dst n ii jj)).

(** [matrix_transpose_cache_optimized] (simulator.cpp:39-56).  The
    counters [i] and [j] of the tiles have the same bound and step: one
    check stands for both. *)
Definition matrix_transpose_cache_optimized (src dst n : Z) : prog float unit :=
  omp_parallel_for
    (collapse2 (omp_iterations 0 n block) (omp_iterations 0 n block))
    (fun ij => transpose_tile src dst n ij.1 ij.2) ;;
  counter_exit 0 n block.

End Transpose.

(** *** Population counter *)

(** [__builtin_popcountll]: the number of 1-bits of its argument, converted
    to [unsigned long long]. *)
Fixpoint pos_popcount (p : positive) : Z :=
  match p with
  | xH => 1
  | xO q => pos_popcount q
  | xI q => 1 + pos_popcount q
  end.

Definition builtin_popcountll (x : Z) : Z :=
  match x mod 2 ^ 64 with
  | Zpos p => pos_popcount p
  | _ => 0
  end.

(** What the build of a function gives: the function, or the refusal of
    the assembler. *)
Inductive build_error : Type :=
| OperandSizeMismatch.  (* the operands of an instruction differ in size *)

Inductive built (A : Type) : Type :=
| Built (a : A)
| Rejected (e : build_error).
Arguments Built {A} a.
Arguments Rejected {A} e.

(** The results of several builds, the first refusal first. *)
Fixpoint built_all {A} (l : list (built A)) : built (list A) :=
  match l with
  | [] => Built []
  | Built a :: l' =>
      match built_all l' with
      | Built r => Built (a :: r)
      | Rejected e => Rejected e
      end
  | Rejected e :: _ => Rejected e
  end.

(** The C types of the operands of the inline assembly.  For an operand
    under the constraint ["r"] the compiler writes a register of the size
    of the operand's type into the instruction. *)
Inductive ctype : Type := c_int | c_uint64_t.

Definition register_bits (t : ctype) : Z :=
  match t with c_int => 32 | c_uint64_t => 64 end.

(** The [popcnt] instruction on registers of [w] bits: a counter
    incremented once per set bit of the source, bit 0 to bit [w - 1]. *)
Definition popcnt_step (src : Z) (count i : Z) : Z :=
  if Z.testbit src i then count + 1 else count.

Definition popcnt_bits (w : Z) (src : Z) : Z :=
  fold_left (popcnt_step src) (seqZ 0 w) 0.

(** ["popcnt %1, %0"] with operand 0 of type [dst] and operand 1 of type
    [src].  The instruction has a 16-bit, a 32-bit and a 64-bit form, each
    with source and destination of that one size: the assembler refuses
    operands of different sizes. *)
Definition popcnt (dst src : ctype) (n : Z) : built Z :=
  if register_bits dst =? register_bits src
  then Built (popcnt_bits (register_bits src) n)
  else Rejected OperandSizeMismatch.

(** [count_set_bits] (simulator.cpp:24-37); [USE_X86_ASM] is the macro of
    that name.  Under it the output operand is [int count] and the input
    operand [uint64_t n]. *)
Definition count_set_bits (USE_X86_ASM : bool) (n : Z) : built Z :=
  if USE_X86_ASM then popcnt c_int c_uint64_t n
  else Built (builtin_popcountll n).

(** *** Block memory copier *)

Inductive arch : Type := x86_64 | aarch64 | other_arch.

Section Copier.
Context {byte : Type}.

(** [rep movsb]: while [rcx] is not zero, copy the byte at [rsi] to [rdi],
    advance both and decrement [rcx] (the direction flag is clear on
    function entry). *)
Fixpoint rep_movsb (rcx : nat) (rdi rsi : Z) : prog byte unit :=
  match rcx with
  | O => Ret tt
  | S rcx' => b <- load rsi 0 ;; store rdi 0 b ;; rep_movsb rcx' (rdi + 1) (rsi + 1)
  end.

(** [std::memcpy]: undefined when the regions overlap, else the [n] bytes
    of the source are copied to the destination. *)
Definition regions_overlap (p q n : Z) : bool :=
  (0 <? n) && (p <? q + n) && (q <? p + n).

Definition memcpy (dst src n : Z) : prog byte unit :=
  if regions_overlap dst src n then Undef Overlap
  else bs <- load_seq src (seqZ 0 n) ;; store_seq dst (seqZ 0 n) bs.

(** [custom_memcpy] (simulator.cpp:58-71); [target] decides [__x86_64__]. *)
Definition custom_memcpy (target : arch) (dst src n : Z) : prog byte unit :=
  match target with
  | x86_64 => rep_movsb (Z.to_nat n) dst src
  | _ => memcpy dst src n
  end.

End Copier.

(** ** The harness of main.cpp

    Timing and printing have no effect on the buffers and are left out;
    what is modelled is what the harness does to memory.  The pointers are
    those the allocations of the harness return. *)

Section Harness.
Context {float : Type} (fadd : float -> float -> float).

(** The [float] an [int] literal converts to. *)
Variable float_of_int : Z -> float.

(** [for (int i = 0; i < n; ++i) body(i)], a sequential loop. *)
Definition counted_loop {V} (n : Z) (body : Z -> prog V unit) : prog V unit :=
  c_for (S (Z.to_nat n)) (fun i => Ret (i <? n)) (fun i => int_add i 1) body 0.

(** [initialize_arrays] (main.cpp:9-17).  The generator is seeded from the
    random device at each call; [dis min_val max_val i] is the value its
    [i]-th draw [dis(gen)] returns in this call. *)
Definition initialize_arrays (dis : float -> float -> Z -> float)
    (arr n : Z) (min_val max_val : float) : prog float unit :=
  counted_loop n (fun i => store arr i (dis min_val max_val i)).

(** [benchmark_particle_update] (main.cpp:19-70) on the four buffers
    [aligned_alloc(32, n * sizeof(float))] returns; [rng k] is the generator
    of the [k]-th call of [initialize_arrays]. *)
Definition benchmark_particle_update (target : arch)
    (rng : nat -> float -> float -> Z -> float) (x y vx vy : Z)
  : prog float unit :=
  let n := 100000 in
  let iterations := 1000 in
  initialize_arrays (rng 0%nat) x n (float_of_int 0) (float_of_int 100) ;;
  initialize_arrays (rng 1%nat) y n (float_of_int 0) (float_of_int 100) ;;
  initialize_arrays (rng 2%nat) vx n (float_of_int (-1)) (float_of_int 1) ;;
  initialize_arrays (rng 3%nat) vy n (float_of_int (-1)) (float_of_int 1) ;;
  counted_loop iterations (fun _ => update_positions_baseline fadd x y vx vy n) ;;
  initialize_arrays (rng 4%nat) x n (float_of_int 0) (float_of_int 100) ;;
  initialize_arrays (rng 5%nat) y n (float_of_int 0) (float_of_int 100) ;;
  match target with
  | x86_64 =>
      counted_loop iterations (fun _ => update_positions_simd fadd x y vx vy n)
  | _ => Ret tt
  end.

(** [benchmark_matrix_transpose] (main.cpp:87-122) on the two buffers
    [new float[n * n]] returns; [min_val] and [max_val] take their defaults
    -1.0f and 1.0f. *)
Definition benchmark_matrix_transpose
    (rng : nat -> float -> float -> Z -> float) (src dst : Z)
  : prog float unit :=
  let n := 512 in
  let iterations := 100 in
  nn <- int_mul n n ;;
  initialize_arrays (rng 0%nat) src nn (float_of_int (-1)) (float_of_int 1) ;;
  counted_loop iterations (fun _ => matrix_transpose_baseline src dst n) ;;
  counted_loop iterations (fun _ => matrix_transpose_cache_optimized src dst n).

End Harness.

(** [test_bit_counting] (main.cpp:72-85): the values it tests and, where
    [count_set_bits] builds, the counts it prints for them, in order. *)
Definition test_values : list Z :=
  [0x0; 0xFFFFFFFFFFFFFFFF; 0xAAAAAAAAAAAAAAAA; 0x123456789ABCDEF0;
   0x0F0F0F0F0F0F0F0F].

Definition test_bit_counting (USE_X86_ASM : bool) : built (list Z) :=
  built_all (count_set_bits USE_X86_ASM <$> test_values).

(** ** IEEE binary32, for concrete runs *)

Definition f32 : Type := spec_float.
Definition f32_add : f32 -> f32 -> f32 := SFadd 24 128.
Definition f32_of_Z (z : Z) : f32 :=
  match z with
  | Z0 => S754_zero false
  | Zpos p => binary_normalize 24 128 (Zpos p) 0 false
  | Zneg p => binary_normalize 24 128 (Zneg p) 0 false
  end.

(** A memory holding the cells of [vs] from address [p] on. *)
Definition cells_at {V} (p : Z) (vs : list V) : gmap Z V :=
  list_to_map (zip (seqZ p (Z.of_nat (length vs))) vs).

(** The [n] cells of [m] from address [p] on. *)
Definition read_cells {V} (m : gmap Z V) (p n : Z) : list (option V) :=
  (fun k => m !! (p + k)) <$> seqZ 0 n.

(** * Specification vocabulary *)

(** ** Buffers *)

(** The [n] cells from address [p] on are allocated in [m]. *)
Definition allocatedb {V} (m : gmap Z V) (p n : Z) : bool :=
  forallb (fun k => match m !! (p + k) with Some _ => true | None => false end)
          (seqZ 0 n).
Definition allocated {V} (m : gmap Z V) (p n : Z) : Prop := allocatedb m p n = true.

(** The address [p] is 32-byte aligned: a multiple of eight floats. *)
Definition aligned (p : Z) : Prop := p mod 8 = 0.

(** The first of the arrays [ps], in this order, that is not 32-byte
    aligned. *)
Definition first_misaligned (ps : list Z) : option Z :=
  head (List.filter (fun p => negb (aligned32 p 0)) ps).

(** [n] rounded up to a whole number of vector groups. *)
Definition round_up8 (n : Z) : Z := 8 * ((n + 7) / 8).

(** Two regions of [n] cells, from [p] and from [q], share no cell. *)
Definition disjointb (p q n : Z) : bool := (p + n <=? q) || (q + n <=? p).
Definition disjoint (p q n : Z) : Prop := disjointb p q n = true.

(** ** Parallel loops *)

Definition is_write (e : access) : bool :=
  match e with Wr _ _ => true | _ => false end.

(** No cell written by one iteration of [body] over [iters] is read or
    written by another one, whatever values the loads return. *)
Definition independent_iterations {V X} (body : X -> prog V unit)
    (iters : list X) : Prop :=
  forall rho1 rho2 a b e1 e2,
    a ∈ iters -> b ∈ iters -> a <> b ->
    e1 ∈ accesses rho1 (body a) -> e2 ∈ accesses rho2 (body b) ->
    is_write e1 = true -> is_data_access e2 = true ->
    access_addr e1 <> access_addr e2.

(** The loop of a kernel, its iterations run in any order and followed by
    its counter check [exit], returns the final memory [m']. *)
Definition order_independent {V X} (body : X -> prog V unit) (exit : prog V unit)
    (iters : list X) (m m' : gmap Z V) : Prop :=
  forall schedule, Permutation schedule iters ->
    run (omp_parallel_for schedule body ;; exit) m = Ok m'.

(** A parallel loop is safe on [m]: its iterations are independent and
    every order of them returns the same memory. *)
Definition parallel_safe {V X} (body : X -> prog V unit) (exit : prog V unit)
    (iters : list X) (m : gmap Z V) : Prop :=
  independent_iterations body iters
  /\ exists m', order_independent body exit iters m m'.

(** ** Loops of independent iterations

    Iteration [x] of [body] writes the addresses [W x] and stores [post a]
    at each of them, when started in a memory that differs from [m] only on
    addresses written by the other iterations of [l]. *)

Definition iteration_ok {V X} (body : X -> prog V unit) (m : gmap Z V)
    (W : X -> Z -> Prop) (post : Z -> option V) (l : list X) : Prop :=
  forall x m1, x ∈ l ->
    (forall a, (forall y, y ∈ l -> y <> x -> ~ W y a) -> m1 !! a = m !! a) ->
    exists m2, exec (body x) m1 = Ok (tt, m2)
      /\ (forall a, W x a -> m2 !! a = post a)
      /\ (forall a, ~ W x a -> m2 !! a = m1 !! a).

Definition writes_disjoint {X} (W : X -> Z -> Prop) (l : list X) : Prop :=
  forall x y a, x ∈ l -> y ∈ l -> W x a -> W y a -> x = y.

(** ** Position updaters *)

Section PositionsSpec.
Context {float : Type} (fadd : float -> float -> float).
Implicit Types m : gmap Z float.

(** The sum of the cells at [p] and [q]. *)
Definition add_cells m (p q : Z) : option float :=
  match m !! p, m !! q with
  | Some a, Some b => Some (fadd a b)
  | _, _ => None
  end.

(** The memory after [x[i] += vx[i]; y[i] += vy[i]] for all [i] in [0, n). *)
Definition positions_post m (x y vx vy n a : Z) : option float :=
  if decide (x <= a < x + n) then add_cells m a (vx + (a - x))
  else if decide (y <= a < y + n) then add_cells m a (vy + (a - y))
  else m !! a.

(** Four arrays of [n] floats; the two written ones share no cell with each
    other or with the velocity arrays. *)
Definition positions_ready m (x y vx vy n : Z) : Prop :=
  allocated m x n /\ allocated m y n /\ allocated m vx n /\ allocated m vy n /\
  disjoint x y n /\ disjoint x vx n /\ disjoint x vy n /\
  disjoint y vx n /\ disjoint y vy n.

End PositionsSpec.

(** ** Matrix transposers *)

(** The largest [n] whose indices [i * n + j], [0 <= i, j < n], all fit in
    [int]: 46340 * 46340 - 1 <= INT_MAX < 46341 * 46341 - 1. *)
Definition MAX_DIM : Z := 46340.

Section TransposeSpec.
Context {float : Type}.
Implicit Types m : gmap Z float.

(** The memory after [dst[j * n + i] = src[i * n + j]] for all [i], [j] in
    [0, n). *)
Definition transpose_post m (src dst n a : Z) : option float :=
  if decide (dst <= a < dst + n * n)
  then m !! (src + (((a - dst) mod n) * n + (a - dst) / n))
  else m !! a.

(** Two [n] x [n] matrices that share no cell. *)
Definition transpose_ready m (src dst n : Z) : Prop :=
  allocated m src (n * n) /\ allocated m dst (n * n) /\ disjoint src dst (n * n).

(** The rows (or columns) of the tile that starts at [lo]. *)
Definition tile_range (lo n : Z) : list Z := seqZ lo (Z.min (lo + block) n - lo).

(** The elements of the tile at [ij], in the order of its two inner loops. *)
Definition tile_elements (n : Z) (ij : Z * Z) : list (Z * Z) :=
  collapse2 (tile_range ij.1 n) (tile_range ij.2 n).

End TransposeSpec.

(** ** Repeated calls *)

(** [u] after [k] additions of [v]. *)
Definition add_times {float} (fadd : float -> float -> float) (k : nat)
    (u v : float) : float :=
  Nat.iter k (fun w => fadd w v) u.

(** Either transposer. *)
Definition transposer {float} (tiled : bool) : Z -> Z -> Z -> prog float unit :=
  if tiled then matrix_transpose_cache_optimized else matrix_transpose_baseline.

(** ** Fallbacks *)


(** ** Concrete inputs *)

(** Four arrays of eight floats at addresses 0, 8, 16 and 24:
    x = 0..7, y = 10..17, vx all 1.0, vy all 2.0. *)
Definition particles8 : gmap Z f32 :=
  cells_at 0 (f32_of_Z <$> seqZ 0 8) ∪ cells_at 8 (f32_of_Z <$> seqZ 10 8)
  ∪ cells_at 16 (replicate 8 (f32_of_Z 1)) ∪ cells_at 24 (replicate 8 (f32_of_Z 2)).

(** Four arrays of one float each, at the same 32-byte aligned addresses. *)
Definition particles1 : gmap Z f32 :=
  cells_at 0 [f32_of_Z 0] ∪ cells_at 8 [f32_of_Z 10]
  ∪ cells_at 16 [f32_of_Z 1] ∪ cells_at 24 [f32_of_Z 2].

(** Three 4 x 4 matrices at addresses 0, 16 and 32; the first holds
    [src[i * 4 + j] = i * 4 + j], the others zeros. *)
Definition matrices4 : gmap Z f32 :=
  cells_at 0 (f32_of_Z <$> seqZ 0 16) ∪ cells_at 16 (replicate 16 (f32_of_Z 0))
  ∪ cells_at 32 (replicate 16 (f32_of_Z 0)).

(** Two 20 x 20 matrices at addresses 0 and 400: one full tile and the edge
    tiles around it. *)
Definition matrices20 : gmap Z f32 :=
  cells_at 0 (f32_of_Z <$> seqZ 0 400) ∪ cells_at 400 (replicate 400 (f32_of_Z 0)).

(** Two buffers of five bytes at addresses 0 and 16: "hello" and zeros. *)
Definition bytes5 : gmap Z Byte.byte :=
  cells_at 0 [Byte.x68; Byte.x65; Byte.x6c; Byte.x6c; Byte.x6f]
  ∪ cells_at 16 (replicate 5 Byte.x00).

(** A generator all of whose draws are the lower bound of the range. *)
Definition lowest_draws : nat -> f32 -> f32 -> Z -> f32 := fun _ lo _ _ => lo.

(** A buffer of four floats at address 0. *)
Definition floats4 : gmap Z f32 := cells_at 0 (replicate 4 (f32_of_Z 0)).

(** A memory of [n] zero cells from address [p] on. *)
Definition zeroed (p n : Z) : gmap Z f32 :=
  gset_to_gmap (f32_of_Z 0) (list_to_set (seqZ p n)).

(** Four arrays of 24 floats at addresses 0, 24, 48 and 72 and two 20 x 20
    matrices at addresses 96 and 496: three vector groups and four tiles. *)
Definition workspace20 : gmap Z f32 := zeroed 0 896.

(** The smallest dimension whose last index does not fit in [int]. *)
Definition BIG_DIM : Z := 46341.

(** * Verification *)

(** Linear arithmetic with division and remainder by constants. *)
Ltac zlia := Z.div_mod_to_equations; lia.

(** ** Running command trees *)

Section ExecFacts.
Context {V : Type}.
Implicit Types m : gmap Z V.

Lemma exec_bind {A B} (p : prog V A) (f : A -> prog V B) m :
  exec (bind p f) m =
  match exec p m with
  | Ok (a, m') => exec (f a) m'
  | Undefined e => Undefined e
  end.
Proof.
  revert m. induction p as [a|e|b i k IH|b i v k IH|b i k IH]; intros m; simpl.
  - reflexivity.
  - reflexivity.
  - destruct (m !! (b + i)); [apply IH | reflexivity].
  - destruct (m !! (b + i)); [apply IH | reflexivity].
  - apply IH.
Qed.

Lemma exec_load p i m v :
  m !! (p + i) = Some v -> exec (load p i) m = Ok (v, m).
Proof. intros H. unfold load. simpl. rewrite H. reflexivity. Qed.

Lemma exec_load_None p i m :
  m !! (p + i) = None -> exec (load (V:=V) p i) m = Undefined (OutOfBounds p i).
Proof. intros H. unfold load. simpl. rewrite H. reflexivity. Qed.

Lemma exec_store p i v m :
  is_Some (m !! (p + i)) -> exec (store p i v) m = Ok (tt, <[p + i := v]> m).
Proof. intros [w H]. unfold store. simpl. rewrite H. reflexivity. Qed.

Lemma exec_int_ok z m :
  INT_MIN <= z <= INT_MAX -> exec (lift_int (V:=V) (int_checked z)) m = Ok (z, m).
Proof.
  intros H. unfold int_checked, in_int.
  destruct (INT_MIN <=? z) eqn:E1; [|lia].
  destruct (z <=? INT_MAX) eqn:E2; [|lia]. reflexivity.
Qed.

Lemma exec_int_overflow z m :
  INT_MAX < z -> exec (lift_int (V:=V) (int_checked z)) m = Undefined SignedOverflow.
Proof.
  intros H. unfold int_checked, in_int.
  destruct (z <=? INT_MAX) eqn:E2; [lia|].
  rewrite andb_false_r. reflexivity.
Qed.

Lemma exec_for_each_nil {X} (body : X -> prog V unit) m :
  exec (for_each [] body) m = Ok (tt, m).
Proof. reflexivity. Qed.

Lemma exec_for_each_cons {X} (body : X -> prog V unit) x l m :
  exec (for_each (x :: l) body) m =
  match exec (body x) m with
  | Ok (_, m') => exec (for_each l body) m'
  | Undefined e => Undefined e
  end.
Proof. simpl. rewrite exec_bind. destruct (exec (body x) m) as [[[] m']|]; reflexivity. Qed.

Lemma exec_for_each_app {X} (body : X -> prog V unit) l1 l2 m :
  exec (for_each (l1 ++ l2) body) m =
  match exec (for_each l1 body) m with
  | Ok (_, m') => exec (for_each l2 body) m'
  | Undefined e => Undefined e
  end.
Proof.
  revert m. induction l1 as [|x l1 IH]; intros m.
  - reflexivity.
  - rewrite <- app_comm_cons, !exec_for_each_cons.
    destruct (exec (body x) m) as [[[] m']|]; [apply IH | reflexivity].
Qed.

(** A loop whose bodies agree on every memory runs alike. *)
Lemma exec_for_each_ext {X} (body1 body2 : X -> prog V unit) l m :
  (forall x m1, x ∈ l -> exec (body1 x) m1 = exec (body2 x) m1) ->
  exec (for_each l body1) m = exec (for_each l body2) m.
Proof.
  revert m. induction l as [|x l IH]; intros m H; [reflexivity|].
  rewrite !exec_for_each_cons, <- H by left.
  destruct (exec (body1 x) m) as [[[] m']|]; [|reflexivity].
  apply IH. intros y m1 Hy. apply H. by right.
Qed.

(** Nested loops run as one loop over the pairs, row-major. *)
Lemma exec_for_each_collapse2 (body : Z -> Z -> prog V unit) outer inner m :
  exec (for_each (collapse2 outer inner) (fun ij => body ij.1 ij.2)) m =
  exec (for_each outer (fun i => for_each inner (body i))) m.
Proof.
  assert (forall i m0,
    exec (for_each (j ← inner; [(i, j)]) (fun ij => body ij.1 ij.2)) m0
    = exec (for_each inner (body i)) m0) as Hrow.
  { intros i. induction inner as [|j inner IH]; intros m0; [reflexivity|].
    rewrite bind_cons. simpl app. rewrite !exec_for_each_cons. simpl.
    destruct (exec (body i j) m0) as [[[] m']|]; [apply IH | reflexivity]. }
  revert m. induction outer as [|i outer IH]; intros m; [reflexivity|].
  unfold collapse2 in *. rewrite bind_cons, exec_for_each_app, exec_for_each_cons, Hrow.
  destruct (exec (for_each inner (body i)) m) as [[[] m']|]; [apply IH | reflexivity].
Qed.

(** A body that is undefined on every memory makes every loop that reaches
    it undefined. *)
Lemma exec_for_each_stuck {X} (body : X -> prog V unit) l x m :
  x ∈ l ->
  (forall m1, exists e, exec (body x) m1 = Undefined e) ->
  exists e, exec (for_each l body) m = Undefined e.
Proof.
  intros Hx Hstuck. revert m. induction l as [|y l IH]; intros m.
  - by apply elem_of_nil in Hx.
  - rewrite exec_for_each_cons.
    destruct (exec (body y) m) as [[[] m']|e] eqn:E; [|by eexists].
    apply elem_of_cons in Hx as [->|Hx].
    + destruct (Hstuck m) as [e He]. congruence.
    + by apply IH.
Qed.

End ExecFacts.

Lemma allocated_spec {V} (m : gmap Z V) p n :
  allocated m p n <-> forall k, 0 <= k < n -> is_Some (m !! (p + k)).
Proof.
  unfold allocated, allocatedb. rewrite forallb_forall. split.
  - intros H k Hk. specialize (H k).
    destruct (m !! (p + k)); [by eexists|].
    discriminate H. apply list_elem_of_In, elem_of_seqZ. lia.
  - intros H k Hk. apply list_elem_of_In, elem_of_seqZ in Hk.
    destruct (H k) as [v ->]; [lia | reflexivity].
Qed.

Lemma disjoint_spec p q n : disjoint p q n <-> p + n <= q \/ q + n <= p.
Proof. unfold disjoint, disjointb. rewrite orb_true_iff, !Z.leb_le. reflexivity. Qed.

(** ** Loops of independent iterations

    Iteration [x] writes the addresses [W x]; the write sets of distinct
    iterations are disjoint, and an iteration started in a memory that
    differs from the initial one only on addresses written by the others
    stores [post a] at each address [a] it writes.  Then the loop, run in
    the order of any duplicate-free schedule, stores [post a] at every written
    address and leaves the rest of the memory alone. *)

Section IndependentLoop.
Context {V X : Type}.
Variable body : X -> prog V unit.
Variable m : gmap Z V.
Variable W : X -> Z -> Prop.
Variable post : Z -> option V.
Lemma independent_loop_from (done rest : list X) (m1 : gmap Z V) :
  NoDup (done ++ rest) ->
  writes_disjoint W (done ++ rest) ->
  iteration_ok body m W post (done ++ rest) ->
  (forall x a, x ∈ done -> W x a -> m1 !! a = post a) ->
  (forall a, (forall x, x ∈ done -> ~ W x a) -> m1 !! a = m !! a) ->
  exists m', exec (for_each rest body) m1 = Ok (tt, m')
    /\ (forall x a, x ∈ done ++ rest -> W x a -> m' !! a = post a)
    /\ (forall a, (forall x, x ∈ done ++ rest -> ~ W x a) -> m' !! a = m !! a).
Proof.
  revert done m1. induction rest as [|x rest IH]; intros done m1 Hnd Hdisj Hok Hw Hu.
  - rewrite app_nil_r in *. exists m1. by rewrite exec_for_each_nil.
  - assert (x ∉ done) as Hx.
    { apply NoDup_app in Hnd as (_ & Hnd & _). intros Hin.
      apply (Hnd x Hin). by left. }
    assert (x ∈ done ++ x :: rest) as Hxl by (apply elem_of_app; right; by left).
    destruct (Hok x m1 Hxl) as (m2 & Hex & Hset & Hkeep).
    { intros a Ha. apply Hu. intros y Hy. apply Ha.
      - apply elem_of_app. by left.
      - intros ->. contradiction. }
    rewrite exec_for_each_cons, Hex.
    replace (done ++ x :: rest) with ((done ++ [x]) ++ rest) in *
      by (by rewrite <- app_assoc).
    apply IH; try assumption.
    + intros y a Hy Hwy. apply elem_of_app in Hy as [Hy|Hy].
      * rewrite Hkeep; [by eapply Hw|].
        intros Hwx. assert (x = y) as ->; [|contradiction].
        eapply Hdisj; eauto. apply elem_of_app; left. apply elem_of_app. by left.
      * apply list_elem_of_singleton in Hy as ->. by apply Hset.
    + intros a Ha. rewrite Hkeep.
      * apply Hu. intros y Hy. apply Ha. apply elem_of_app. by left.
      * apply Ha. apply elem_of_app. right. by left.
Qed.

Lemma independent_loop (l : list X) :
  NoDup l -> writes_disjoint W l -> iteration_ok body m W post l ->
  exists m', exec (for_each l body) m = Ok (tt, m')
    /\ (forall x a, x ∈ l -> W x a -> m' !! a = post a)
    /\ (forall a, (forall x, x ∈ l -> ~ W x a) -> m' !! a = m !! a).
Proof.
  intros Hnd Hdisj Hok.
  apply (independent_loop_from [] l m); try assumption.
  - intros x a Hx. by apply elem_of_nil in Hx.
  - reflexivity.
Qed.

End IndependentLoop.

(** ** Iteration spaces *)

Lemma loop_values_elem fuel i ub step x :
  0 < step -> ub - i <= Z.of_nat fuel * step ->
  x ∈ loop_values fuel i ub step <->
  i <= x < ub /\ (x - i) mod step = 0.
Proof.
  intros Hs. revert i. induction fuel as [|fuel IH]; intros i Hf; simpl.
  - rewrite elem_of_nil. split; [tauto | lia].
  - destruct (i <? ub) eqn:E.
    + apply Z.ltb_lt in E. rewrite elem_of_cons, IH by lia. split.
      * intros [->|[H1 H2]].
        -- rewrite Z.sub_diag, Z.mod_0_l by lia. lia.
        -- split; [lia|]. replace (x - i) with (x - (i + step) + 1 * step) by lia.
           by rewrite Z.mod_add by lia.
      * intros [H1 H2]. destruct (decide (x = i)) as [->|Hne]; [by left|right].
        assert ((x - (i + step)) mod step = 0) as H3.
        { replace (x - (i + step)) with (x - i + (-1) * step) by lia.
          by rewrite Z.mod_add by lia. }
        split; [|done]. apply Z.mod_divide in H2 as [c Hc]; [|lia].
        assert (1 <= c) by nia. nia.
    + apply Z.ltb_ge in E. rewrite elem_of_nil. split; [tauto | lia].
Qed.

Lemma loop_values_NoDup fuel i ub step :
  0 < step -> NoDup (loop_values fuel i ub step).
Proof.
  intros Hs. revert i. induction fuel as [|fuel IH]; intros i; simpl.
  - constructor.
  - destruct (i <? ub); [|constructor]. constructor; [|apply IH].
    assert (forall f j x, x ∈ loop_values f j ub step -> j <= x) as Hlb.
    { clear -Hs. induction f as [|f IHf]; intros j x; simpl.
      - by rewrite elem_of_nil.
      - destruct (j <? ub); [|by rewrite elem_of_nil].
        rewrite elem_of_cons. intros [->|H]; [lia|]. apply IHf in H. lia. }
    intros H. apply Hlb in H. lia.
Qed.

Lemma omp_iterations_elem ub step x :
  0 < step ->
  x ∈ omp_iterations 0 ub step <-> 0 <= x < ub /\ x mod step = 0.
Proof.
  intros Hs. unfold omp_iterations. rewrite loop_values_elem; [|lia|nia].
  by rewrite Z.sub_0_r.
Qed.

Lemma omp_iterations_NoDup ub step : 0 < step -> NoDup (omp_iterations 0 ub step).
Proof. intros. by apply loop_values_NoDup. Qed.

Lemma loop_values_closed fuel i ub step :
  0 < step -> ub - i <= Z.of_nat fuel * step ->
  loop_values fuel i ub step
  = (fun k => i + step * k) <$> seqZ 0 ((ub - i + step - 1) / step).
Proof.
  intros Hs. revert i.
  assert (forall i, ub <= i -> seqZ 0 ((ub - i + step - 1) / step) = []) as Hnil.
  { intros i Hi. apply seqZ_nil.
    assert ((ub - i + step - 1) / step < 1); [|lia].
    apply Z.div_lt_upper_bound; lia. }
  induction fuel as [|fuel IH]; intros i Hf; simpl.
  - by rewrite Hnil by lia.
  - destruct (i <? ub) eqn:E.
    + apply Z.ltb_lt in E. rewrite IH by lia.
      assert ((ub - (i + step) + step - 1) / step = (ub - i + step - 1) / step - 1) as Hc.
      { replace (ub - (i + step) + step - 1) with (ub - i + step - 1 + (-1) * step) by lia.
        rewrite Z.div_add by lia. lia. }
      assert (0 < (ub - i + step - 1) / step) as Hpos.
      { apply Z.div_str_pos. lia. }
      rewrite Hc. set (c := (ub - i + step - 1) / step) in *. clearbody c.
      rewrite (seqZ_cons 0 c) by lia.
      rewrite fmap_cons. f_equal; [lia|].
      replace (Z.succ 0) with (1 + 0) by lia. rewrite <- fmap_add_seqZ.
      rewrite <- list_fmap_compose. replace (Z.pred c) with (c - 1) by lia.
      apply list_fmap_ext. intros _ k _. simpl. lia.
    + apply Z.ltb_ge in E. by rewrite Hnil.
Qed.

(** The groups of a count that is not a multiple of 8: the whole groups,
    then one more. *)
Lemma omp_iterations_partial_group n :
  0 <= n -> n mod 8 <> 0 ->
  omp_iterations 0 n 8 = omp_iterations 0 (8 * (n / 8)) 8 ++ [8 * (n / 8)].
Proof.
  intros Hn Hmod. unfold omp_iterations.
  rewrite !loop_values_closed by lia. rewrite !Z.sub_0_r.
  replace ((n + 8 - 1) / 8) with (n / 8 + 1) by zlia.
  replace ((8 * (n / 8) + 8 - 1) / 8) with (n / 8) by zlia.
  rewrite seqZ_app by zlia. rewrite fmap_app. by f_equal.
Qed.

Lemma collapse2_elem outer inner i j :
  (i, j) ∈ collapse2 outer inner <-> i ∈ outer /\ j ∈ inner.
Proof.
  unfold collapse2. rewrite list_elem_of_bind. split.
  - intros (i' & H & Hi). apply list_elem_of_bind in H as (j' & H & Hj).
    apply list_elem_of_singleton in H. by simplify_eq.
  - intros [Hi Hj]. exists i. split; [|done].
    apply list_elem_of_bind. exists j. split; [|done]. by apply list_elem_of_singleton.
Qed.

Lemma collapse2_NoDup outer inner :
  NoDup outer -> NoDup inner -> NoDup (collapse2 outer inner).
Proof.
  intros Ho Hi. unfold collapse2. induction Ho as [|i outer Hni Ho IH].
  - constructor.
  - rewrite bind_cons. apply NoDup_app. split; [|split; [|exact IH]].
    + clear -Hi. induction Hi as [|j inner Hnj Hi IH]; [constructor|].
      rewrite bind_cons. simpl. constructor; [|exact IH].
      intros H. apply list_elem_of_bind in H as (j' & H & Hj').
      apply list_elem_of_singleton in H. by simplify_eq.
    + intros [i' j'] H1 H2.
      apply list_elem_of_bind in H1 as (j1 & H1 & _).
      apply list_elem_of_singleton in H1. simplify_eq.
      apply list_elem_of_bind in H2 as (i2 & H2 & Hi2).
      apply list_elem_of_bind in H2 as (j2 & H2 & _).
      apply list_elem_of_singleton in H2. by simplify_eq.
Qed.

(** ** Loop counters *)

Lemma in_int_spec z : in_int z = true <-> INT_MIN <= z <= INT_MAX.
Proof. unfold in_int. by rewrite andb_true_iff, !Z.leb_le. Qed.

(** The counter ends at [step] times the number of iterations. *)
Lemma counter_end_spec n step :
  0 < step -> counter_end 0 n step = step * Z.max 0 ((n + step - 1) / step).
Proof.
  intros Hs. unfold counter_end, omp_iterations.
  rewrite loop_values_closed; [|done|].
  - rewrite Z.sub_0_r. set (c := (n + step - 1) / step).
    destruct (decide (0 < c)) as [Hc|Hc].
    + replace c with ((c - 1) + 1) at 1 by lia.
      rewrite seqZ_app by lia. rewrite fmap_app. cbn [fmap list_fmap seqZ].
      change (seqZ (0 + (c - 1)) 1) with [0 + (c - 1)].
      cbn [fmap list_fmap]. rewrite last_snoc. lia.
    + rewrite seqZ_nil by lia. cbn [fmap list_fmap last]. lia.
  - assert (Z.of_nat (Z.to_nat (n - 0)) = Z.max 0 n) as -> by lia. nia.
Qed.

Lemma counter_fits_unit n :
  INT_MIN <= n <= INT_MAX -> INT_MIN <= counter_end 0 n 1 <= INT_MAX.
Proof.
  intros Hn. rewrite counter_end_spec by lia.
  replace (n + 1 - 1) with n by lia. rewrite Z.div_1_r.
  unfold INT_MIN, INT_MAX in *. lia.
Qed.

Lemma counter_fits_groups n :
  round_up8 n <= INT_MAX -> INT_MIN <= counter_end 0 n 8 <= INT_MAX.
Proof.
  unfold round_up8. intros Hn. rewrite counter_end_spec by lia.
  replace (n + 8 - 1) with (n + 7) by lia.
  unfold INT_MIN, INT_MAX in *. lia.
Qed.

Lemma round_up8_multiple n : n mod 8 = 0 -> round_up8 n = n.
Proof. unfold round_up8. intros. zlia. Qed.

Lemma counter_fits_tiles n :
  n <= MAX_DIM -> INT_MIN <= counter_end 0 n block <= INT_MAX.
Proof.
  intros Hn. assert (block = 16) as Hblock by reflexivity.
  rewrite counter_end_spec by (rewrite Hblock; lia). rewrite Hblock.
  unfold MAX_DIM, INT_MIN, INT_MAX in *. zlia.
Qed.

Section CounterFacts.
Context {V : Type}.
Implicit Types m : gmap Z V.

Lemma exec_counter_exit m lb ub step :
  (INT_MIN <= ub <= INT_MAX -> INT_MIN <= counter_end lb ub step <= INT_MAX) ->
  exec (counter_exit (V:=V) lb ub step) m = Ok (tt, m).
Proof.
  intros H. unfold counter_exit. destruct (in_int ub) eqn:E; [|done].
  apply in_int_spec in E. apply H, in_int_spec in E. by rewrite E.
Qed.

Lemma exec_counter_overflow m lb ub step :
  INT_MIN <= ub <= INT_MAX -> INT_MAX < counter_end lb ub step ->
  exec (counter_exit (V:=V) lb ub step) m = Undefined SignedOverflow.
Proof.
  intros Hub Hend. unfold counter_exit.
  apply in_int_spec in Hub. rewrite Hub.
  destruct (in_int (counter_end lb ub step)) eqn:E; [|done].
  apply in_int_spec in E. lia.
Qed.

(** A loop that returns, then its counter check. *)
Lemma exec_then_counter (p : prog V unit) m m' lb ub step :
  exec p m = Ok (tt, m') ->
  (INT_MIN <= ub <= INT_MAX -> INT_MIN <= counter_end lb ub step <= INT_MAX) ->
  exec (p ;; counter_exit lb ub step) m = Ok (tt, m').
Proof. intros Hp H. by rewrite exec_bind, Hp, exec_counter_exit. Qed.

Lemma exec_bind_stuck {A B} (p : prog V A) (f : A -> prog V B) m :
  (exists e, exec p m = Undefined e) -> exists e, exec (bind p f) m = Undefined e.
Proof. intros [e H]. exists e. by rewrite exec_bind, H. Qed.

End CounterFacts.

(** ** Runs of loads and stores *)

Section SeqFacts.
Context {V : Type}.
Implicit Types m : gmap Z V.

Lemma exec_load_seq p idxs m :
  (forall k, k ∈ idxs -> is_Some (m !! (p + k))) ->
  exists vs, exec (load_seq p idxs) m = Ok (vs, m)
    /\ length vs = length idxs
    /\ (forall j k, idxs !! j = Some k -> vs !! j = m !! (p + k)).
Proof.
  induction idxs as [|i idxs IH]; intros Hal.
  - exists []. repeat split. intros j k H. by rewrite lookup_nil in H.
  - destruct (Hal i) as [v Hv]; [by left|].
    destruct IH as (vs & Hex & Hlen & Hvs); [intros k Hk; apply Hal; by right|].
    exists (v :: vs). cbn [load_seq].
    rewrite exec_bind, (exec_load _ _ _ _ Hv), exec_bind, Hex.
    repeat split; [simpl; by rewrite Hlen|].
    intros [|j] k H; simpl in *; [by simplify_eq | by apply Hvs].
Qed.

Lemma exec_load_seq_None p idxs1 k idxs2 m :
  (forall j, j ∈ idxs1 -> is_Some (m !! (p + j))) ->
  m !! (p + k) = None ->
  exec (load_seq p (idxs1 ++ k :: idxs2)) m = Undefined (OutOfBounds p k).
Proof.
  induction idxs1 as [|i idxs1 IH]; intros Hal Hk; cbn [app load_seq].
  - by rewrite exec_bind, exec_load_None.
  - destruct (Hal i) as [v Hv]; [by left|].
    rewrite exec_bind, (exec_load _ _ _ _ Hv), exec_bind, IH; [done| |done].
    intros j Hj. apply Hal. by right.
Qed.

Lemma exec_store_seq p idxs vs m :
  length vs = length idxs -> NoDup idxs ->
  (forall k, k ∈ idxs -> is_Some (m !! (p + k))) ->
  exists m', exec (store_seq p idxs vs) m = Ok (tt, m')
    /\ (forall j k, idxs !! j = Some k -> m' !! (p + k) = vs !! j)
    /\ (forall a, (forall k, k ∈ idxs -> a <> p + k) -> m' !! a = m !! a).
Proof.
  revert vs m. induction idxs as [|i idxs IH]; intros vs m Hlen Hnd Hal.
  - exists m. destruct vs; [|done]. repeat split. intros j k H. by rewrite lookup_nil in H.
  - destruct vs as [|v vs]; [done|]. simpl in Hlen.
    apply NoDup_cons in Hnd as [Hni Hnd].
    destruct (IH vs (<[p + i := v]> m)) as (m' & Hex & Hset & Hkeep); [lia|done| |].
    { intros k Hk. destruct (decide (p + i = p + k)) as [->|Hne].
      - rewrite lookup_insert_eq. by eexists.
      - rewrite lookup_insert_ne by done. apply Hal. by right. }
    exists m'. cbn [store_seq]. rewrite exec_bind, exec_store by (apply Hal; by left).
    split; [done|]. split.
    + intros [|j] k H; simpl in *.
      * simplify_eq. rewrite Hkeep; [apply lookup_insert_eq|].
        intros k' Hk' Heq. assert (k = k') as -> by lia. contradiction.
      * by apply Hset.
    + intros a Ha. rewrite Hkeep.
      * apply lookup_insert_ne. intros Heq. apply (Ha i); [by left | done].
      * intros k Hk. apply Ha. by right.
Qed.

End SeqFacts.

(** ** Position updaters *)

Section PositionsFacts.
Context {float : Type} (fadd : float -> float -> float).
Implicit Types m : gmap Z float.

Lemma update_positions_baseline_body_exec m x y vx vy i a b c d :
  m !! (x + i) = Some a -> m !! (vx + i) = Some b ->
  m !! (y + i) = Some c -> m !! (vy + i) = Some d ->
  x + i <> y + i -> x + i <> vy + i ->
  exec (update_positions_baseline_body fadd x y vx vy i) m =
  Ok (tt, <[y + i := fadd c d]> (<[x + i := fadd a b]> m)).
Proof.
  intros Hx Hvx Hy Hvy Hxy Hxvy. unfold update_positions_baseline_body.
  rewrite exec_bind, (exec_load _ _ _ _ Hvx), exec_bind, (exec_load _ _ _ _ Hx).
  rewrite exec_bind, exec_store by (by eexists).
  rewrite exec_bind, (exec_load _ _ _ d) by (by rewrite lookup_insert_ne).
  rewrite exec_bind, (exec_load _ _ _ c) by (by rewrite lookup_insert_ne).
  rewrite exec_store; [done|]. rewrite lookup_insert_ne by done. by eexists.
Qed.

Lemma positions_ready_spec m x y vx vy n :
  positions_ready m x y vx vy n ->
  (forall k, 0 <= k < n ->
     is_Some (m !! (x + k)) /\ is_Some (m !! (y + k)) /\
     is_Some (m !! (vx + k)) /\ is_Some (m !! (vy + k))) /\
  (x + n <= y \/ y + n <= x) /\ (x + n <= vx \/ vx + n <= x) /\
  (x + n <= vy \/ vy + n <= x) /\ (y + n <= vx \/ vx + n <= y) /\
  (y + n <= vy \/ vy + n <= y).
Proof.
  intros (Hx & Hy & Hvx & Hvy & D1 & D2 & D3 & D4 & D5).
  rewrite allocated_spec in Hx, Hy, Hvx, Hvy. rewrite disjoint_spec in D1, D2, D3, D4, D5.
  repeat split; auto.
Qed.

(** The baseline loop, its iterations run in any order. *)
Lemma update_positions_baseline_schedule m x y vx vy n schedule :
  positions_ready m x y vx vy n ->
  NoDup schedule -> (forall i, i ∈ schedule <-> 0 <= i < n) ->
  exists m',
    exec (omp_parallel_for schedule (update_positions_baseline_body fadd x y vx vy)) m
      = Ok (tt, m')
    /\ forall a, m' !! a = positions_post fadd m x y vx vy n a.
Proof.
  intros Hready Hnd Hsched.
  apply positions_ready_spec in Hready as (Hal & D1 & D2 & D3 & D4 & D5).
  destruct (independent_loop (update_positions_baseline_body fadd x y vx vy) m
              (fun i a => a = x + i \/ a = y + i)
              (positions_post fadd m x y vx vy n) schedule Hnd)
    as (m' & Hex & Hset & Hkeep).
  - intros i j a Hi Hj. apply Hsched in Hi, Hj. lia.
  - intros i m1 Hi Hagree. pose proof Hi as Hi'. apply Hsched in Hi'.
    destruct (Hal i Hi') as ([a Ha] & [c Hc] & [b Hb] & [d Hd]).
    assert (forall p, (p = x \/ p = y \/ p = vx \/ p = vy) ->
                      m1 !! (p + i) = m !! (p + i)) as Hsame.
    { intros p Hp. apply Hagree. intros j Hj Hne. apply Hsched in Hj. lia. }
    exists (<[y + i := fadd c d]> (<[x + i := fadd a b]> m1)). split; [|split].
    + apply update_positions_baseline_body_exec; rewrite ?Hsame by tauto; auto; lia.
    + intros q [-> | ->]; unfold positions_post, add_cells.
      * rewrite lookup_insert_ne, lookup_insert_eq by lia.
        rewrite decide_True by lia. replace (vx + (x + i - x)) with (vx + i) by lia.
        by rewrite Ha, Hb.
      * rewrite lookup_insert_eq.
        rewrite decide_False, decide_True by lia.
        replace (vy + (y + i - y)) with (vy + i) by lia.
        by rewrite Hc, Hd.
    + intros q Hq. rewrite !lookup_insert_ne by (intros <-; tauto). done.
  - exists m'. split; [exact Hex|]. intros a. unfold positions_post.
    destruct (decide (x <= a < x + n)) as [Hx|Hx].
    + rewrite (Hset (a - x) a); [|apply Hsched; lia | left; lia].
      unfold positions_post. by rewrite decide_True by lia.
    + destruct (decide (y <= a < y + n)) as [Hy|Hy].
      * rewrite (Hset (a - y) a); [|apply Hsched; lia | right; lia].
        unfold positions_post. by rewrite decide_False, decide_True by lia.
      * apply Hkeep. intros i Hi. apply Hsched in Hi. lia.
Qed.

Lemma lanes_lookup i k :
  0 <= k < 8 -> lanes i !! Z.to_nat k = Some (i + k).
Proof. intros Hk. unfold lanes. apply lookup_seqZ. lia. Qed.

Lemma lanes_elem i k : k ∈ lanes i <-> i <= k < i + 8.
Proof. unfold lanes. rewrite elem_of_seqZ. lia. Qed.

Lemma mm256_add_ps_lookup m p q i (vp vq : list float) k :
  (forall j k', lanes i !! j = Some k' -> vp !! j = m !! (p + k')) ->
  (forall j k', lanes i !! j = Some k' -> vq !! j = m !! (q + k')) ->
  0 <= k < 8 ->
  mm256_add_ps fadd vp vq !! Z.to_nat k = add_cells fadd m (p + (i + k)) (q + (i + k)).
Proof.
  intros Hp Hq Hk. unfold mm256_add_ps, add_cells.
  rewrite lookup_zip_with.
  rewrite (Hp _ _ (lanes_lookup i k Hk)), (Hq _ _ (lanes_lookup i k Hk)).
  destruct (m !! (p + (i + k))); [|done]. simpl.
  by destruct (m !! (q + (i + k))).
Qed.

(** One vector group: eight lanes of [x] and of [y] are updated. *)
Lemma update_positions_simd_body_exec m x y vx vy i :
  (x + i) mod 8 = 0 -> (y + i) mod 8 = 0 ->
  (vx + i) mod 8 = 0 -> (vy + i) mod 8 = 0 ->
  (forall k, 0 <= k < 8 ->
     is_Some (m !! (x + (i + k))) /\ is_Some (m !! (y + (i + k))) /\
     is_Some (m !! (vx + (i + k))) /\ is_Some (m !! (vy + (i + k)))) ->
  (x + 8 <= y \/ y + 8 <= x) ->
  exists m2,
    exec (update_positions_simd_body fadd x y vx vy i) m = Ok (tt, m2)
    /\ (forall k, 0 <= k < 8 ->
          m2 !! (x + (i + k)) = add_cells fadd m (x + (i + k)) (vx + (i + k)) /\
          m2 !! (y + (i + k)) = add_cells fadd m (y + (i + k)) (vy + (i + k)))
    /\ (forall a, ~ (x + i <= a < x + i + 8) -> ~ (y + i <= a < y + i + 8) ->
          m2 !! a = m !! a).
Proof.
  intros Ax Ay Avx Avy Hal Hxy.
  assert (forall p, (p = x \/ p = y \/ p = vx \/ p = vy) ->
            forall k, k ∈ lanes i -> is_Some (m !! (p + k))) as Hlanes.
  { intros p Hp k Hk. apply lanes_elem in Hk.
    destruct (Hal (k - i)) as (H1 & H2 & H3 & H4); [lia|].
    replace (i + (k - i)) with k in * by lia.
    destruct Hp as [->|[->|[->| ->]]]; assumption. }
  destruct (exec_load_seq x (lanes i) m) as (px & Epx & Lpx & Hpx); [apply Hlanes; tauto|].
  destruct (exec_load_seq y (lanes i) m) as (py & Epy & Lpy & Hpy); [apply Hlanes; tauto|].
  destruct (exec_load_seq vx (lanes i) m) as (pvx & Epvx & Lpvx & Hpvx); [apply Hlanes; tauto|].
  destruct (exec_load_seq vy (lanes i) m) as (pvy & Epvy & Lpvy & Hpvy); [apply Hlanes; tauto|].
  destruct (exec_store_seq x (lanes i) (mm256_add_ps fadd px pvx) m)
    as (ma & Ema & Hma & Kma).
  { unfold mm256_add_ps. rewrite length_zip_with_l_eq; congruence. }
  { apply NoDup_seqZ. }
  { apply Hlanes; tauto. }
  destruct (exec_store_seq y (lanes i) (mm256_add_ps fadd py pvy) ma)
    as (mb & Emb & Hmb & Kmb).
  { unfold mm256_add_ps. rewrite length_zip_with_l_eq; congruence. }
  { apply NoDup_seqZ. }
  { intros k Hk. rewrite Kma; [apply Hlanes; tauto|].
    intros k' Hk'. apply lanes_elem in Hk, Hk'. lia. }
  exists mb. split; [|split].
  - unfold update_positions_simd_body, mm256_load_ps, mm256_store_ps, aligned32.
    rewrite Ax, Ay, Avx, Avy. simpl Z.eqb. cbv iota.
    rewrite exec_bind, Epx, exec_bind, Epy, exec_bind, Epvx, exec_bind, Epvy.
    cbv zeta. by rewrite exec_bind, Ema.
  - intros k Hk. split.
    + rewrite Kmb by (intros k' Hk'; apply lanes_elem in Hk'; lia).
      rewrite (Hma _ _ (lanes_lookup i k Hk)).
      by apply mm256_add_ps_lookup.
    + rewrite (Hmb _ _ (lanes_lookup i k Hk)).
      by apply mm256_add_ps_lookup.
  - intros a Hx Hy.
    rewrite Kmb by (intros k' Hk'; apply lanes_elem in Hk'; lia).
    apply Kma. intros k' Hk'. apply lanes_elem in Hk'. lia.
Qed.

(** The vector loop over [n] floats, [n] a multiple of 8, its groups run in
    any order. *)
Lemma update_positions_simd_schedule m x y vx vy n schedule :
  n mod 8 = 0 ->
  x mod 8 = 0 -> y mod 8 = 0 -> vx mod 8 = 0 -> vy mod 8 = 0 ->
  positions_ready m x y vx vy n ->
  NoDup schedule -> (forall i, i ∈ schedule <-> 0 <= i < n /\ i mod 8 = 0) ->
  exists m',
    exec (omp_parallel_for schedule (update_positions_simd_body fadd x y vx vy)) m
      = Ok (tt, m')
    /\ forall a, m' !! a = positions_post fadd m x y vx vy n a.
Proof.
  intros Hn Ax Ay Avx Avy Hready Hnd Hsched.
  apply positions_ready_spec in Hready as (Hal & D1 & D2 & D3 & D4 & D5).
  destruct (independent_loop (update_positions_simd_body fadd x y vx vy) m
              (fun i a => x + i <= a < x + i + 8 \/ y + i <= a < y + i + 8)
              (positions_post fadd m x y vx vy n) schedule Hnd)
    as (m' & Hex & Hset & Hkeep).
  - intros i j a Hi Hj. apply Hsched in Hi, Hj. zlia.
  - intros i m1 Hi Hagree. pose proof Hi as Hi'. apply Hsched in Hi'.
    assert (forall p, (p = x \/ p = y \/ p = vx \/ p = vy) ->
              forall k, 0 <= k < 8 -> m1 !! (p + (i + k)) = m !! (p + (i + k))) as Hsame.
    { intros p Hp k Hk. apply Hagree. intros j Hj Hne. apply Hsched in Hj. zlia. }
    destruct (update_positions_simd_body_exec m1 x y vx vy i)
      as (m2 & Hex2 & Hset2 & Hkeep2); try zlia.
    { intros k Hk. rewrite !Hsame by tauto. apply Hal. zlia. }
    exists m2. split; [exact Hex2|]. split.
    + intros a Ha. unfold positions_post, add_cells.
      destruct Ha as [Ha|Ha].
      * assert (exists k, 0 <= k < 8 /\ a = x + (i + k)) as (k & Hk & ->)
          by (exists (a - x - i); lia).
        destruct (Hset2 k Hk) as [-> _].
        rewrite decide_True by zlia.
        replace (vx + (x + (i + k) - x)) with (vx + (i + k)) by lia.
        unfold add_cells. by rewrite !Hsame by (tauto || lia).
      * assert (exists k, 0 <= k < 8 /\ a = y + (i + k)) as (k & Hk & ->)
          by (exists (a - y - i); lia).
        destruct (Hset2 k Hk) as [_ ->].
        rewrite decide_False, decide_True by zlia.
        replace (vy + (y + (i + k) - y)) with (vy + (i + k)) by lia.
        unfold add_cells. by rewrite !Hsame by (tauto || lia).
    + intros a Ha. apply Hkeep2; lia.
  - exists m'. split; [exact Hex|]. intros a. unfold positions_post.
    destruct (decide (x <= a < x + n)) as [Hx|Hx].
    + rewrite (Hset (8 * ((a - x) / 8)) a); [|apply Hsched; zlia | left; zlia].
      unfold positions_post. by rewrite decide_True by lia.
    + destruct (decide (y <= a < y + n)) as [Hy|Hy].
      * rewrite (Hset (8 * ((a - y) / 8)) a); [|apply Hsched; zlia | right; zlia].
        unfold positions_post. by rewrite decide_False, decide_True by lia.
      * apply Hkeep. intros i Hi. apply Hsched in Hi. zlia.
Qed.

End PositionsFacts.

(** ** Matrix transposers *)

Lemma index_bounds n i j :
  0 <= n <= MAX_DIM -> 0 <= i < n -> 0 <= j < n ->
  0 <= i * n /\ i * n <= i * n + j /\ i * n + j < n * n /\ n * n <= 2147395600.
Proof. unfold MAX_DIM. intros. nia. Qed.

Lemma index_div_mod n i j :
  0 <= i < n -> (j * n + i) / n = j /\ (j * n + i) mod n = i.
Proof.
  intros Hi. rewrite Z.add_comm.
  rewrite Z.div_add, Z.mod_add, Z.div_small, Z.mod_small by lia. lia.
Qed.

Lemma index_inj n i j i' j' :
  0 <= i < n -> 0 <= i' < n -> j * n + i = j' * n + i' -> i = i' /\ j = j'.
Proof.
  intros Hi Hi' Heq.
  destruct (index_div_mod n i j Hi) as [D M].
  destruct (index_div_mod n i' j' Hi') as [D' M'].
  rewrite Heq in D, M. lia.
Qed.

Section TransposeFacts.
Context {float : Type}.
Implicit Types m : gmap Z float.

Lemma transpose_assign_exec m src dst n i j v :
  0 <= n <= MAX_DIM -> 0 <= i < n -> 0 <= j < n ->
  m !! (src + (i * n + j)) = Some v ->
  is_Some (m !! (dst + (j * n + i))) ->
  exec (transpose_assign src dst n i j) m = Ok (tt, <[dst + (j * n + i) := v]> m).
Proof.
  intros Hn Hi Hj Hs Hd. unfold transpose_assign, int_mul, int_add.
  pose proof (index_bounds n i j Hn Hi Hj). pose proof (index_bounds n j i Hn Hj Hi).
  rewrite exec_bind, exec_int_ok by (unfold INT_MIN, INT_MAX; lia).
  rewrite exec_bind, exec_int_ok by (unfold INT_MIN, INT_MAX; lia).
  rewrite exec_bind, (exec_load _ _ _ _ Hs).
  rewrite exec_bind, exec_int_ok by (unfold INT_MIN, INT_MAX; lia).
  rewrite exec_bind, exec_int_ok by (unfold INT_MIN, INT_MAX; lia).
  by rewrite exec_store.
Qed.

(** The element assignments of a transposition, run in any order. *)
Lemma transpose_schedule m src dst n schedule :
  0 <= n <= MAX_DIM ->
  transpose_ready m src dst n ->
  NoDup schedule ->
  (forall i j, (i, j) ∈ schedule <-> 0 <= i < n /\ 0 <= j < n) ->
  exists m',
    exec (for_each schedule (fun ij => transpose_assign src dst n ij.1 ij.2)) m
      = Ok (tt, m')
    /\ forall a, m' !! a = transpose_post m src dst n a.
Proof.
  intros Hn (Hsrc & Hdst & Hdisj) Hnd Hsched.
  rewrite allocated_spec in Hsrc, Hdst. rewrite disjoint_spec in Hdisj.
  destruct (independent_loop
              (fun ij => transpose_assign src dst n ij.1 ij.2) m
              (fun ij a => a = dst + (ij.2 * n + ij.1))
              (transpose_post m src dst n) schedule Hnd)
    as (m' & Hex & Hset & Hkeep).
  - intros [i j] [i' j'] a Hi Hj. apply Hsched in Hi, Hj. simpl. intros -> Heq.
    destruct (index_inj n i j i' j'); [lia..|]. by subst.
  - intros [i j] m1 Hij Hagree. pose proof Hij as Hij'. apply Hsched in Hij'.
    destruct Hij' as [Hi Hj]. simpl.
    pose proof (index_bounds n i j Hn Hi Hj). pose proof (index_bounds n j i Hn Hj Hi).
    destruct (Hsrc (i * n + j)) as [v Hv]; [lia|].
    assert (m1 !! (src + (i * n + j)) = Some v) as Hv1.
    { rewrite Hagree; [done|]. intros [i' j'] Hin _. apply Hsched in Hin. simpl.
      pose proof (index_bounds n j' i' Hn (proj2 Hin) (proj1 Hin)). lia. }
    assert (m1 !! (dst + (j * n + i)) = m !! (dst + (j * n + i))) as Hd1.
    { apply Hagree. intros [i' j'] Hin Hne. apply Hsched in Hin. simpl. intros Heq.
      destruct (index_inj n i j i' j'); [lia..|]. by subst. }
    exists (<[dst + (j * n + i) := v]> m1). split; [|split].
    + apply transpose_assign_exec; try done. rewrite Hd1. apply Hdst. lia.
    + intros a ->. rewrite lookup_insert_eq. unfold transpose_post.
      rewrite decide_True by lia.
      replace (dst + (j * n + i) - dst) with (j * n + i) by lia.
      destruct (index_div_mod n i j Hi) as [-> ->]. by rewrite Hv.
    + intros a Ha. by rewrite lookup_insert_ne.
  - exists m'. split; [exact Hex|]. intros a. unfold transpose_post.
    destruct (decide (dst <= a < dst + n * n)) as [Ha|Ha].
    + assert (0 < n) as Hpos by nia.
      assert (0 <= (a - dst) mod n < n) as Hmod by (apply Z.mod_pos_bound; lia).
      assert (0 <= (a - dst) / n < n) as Hdiv.
      { split; [apply Z.div_pos; lia|]. apply Z.div_lt_upper_bound; lia. }
      rewrite (Hset ((a - dst) mod n, (a - dst) / n) a).
      * unfold transpose_post. by rewrite decide_True by lia.
      * apply Hsched. lia.
      * simpl. pose proof (Z.div_mod (a - dst) n). lia.
    + apply Hkeep. intros [i j] Hin. apply Hsched in Hin. simpl.
      pose proof (index_bounds n j i Hn (proj2 Hin) (proj1 Hin)). lia.
Qed.

(** *** The tiled loops *)

Lemma exec_tile_loop_from fuel lo n k (body : Z -> prog float unit) m :
  INT_MIN <= lo -> lo + block <= INT_MAX -> n <= INT_MAX -> lo <= k ->
  Z.max 0 (Z.min (lo + block) n - k) < Z.of_nat fuel ->
  exec (c_for fuel
          (fun k => ub <- int_add lo block ;; Ret ((k <? ub) && (k <? n)))
          (fun k => int_add k 1) body k) m
  = exec (for_each (seqZ k (Z.min (lo + block) n - k)) body) m.
Proof.
  intros Hlo Hhi Hn. assert (block = 16) as Hblock by reflexivity.
  revert k m. induction fuel as [|fuel IH]; intros k m Hk Hfuel; [lia|].
  cbn [c_for]. unfold int_add at 1.
  rewrite !exec_bind, exec_int_ok by lia. cbn [exec].
  destruct ((k <? lo + block) && (k <? n)) eqn:E.
  - apply andb_true_iff in E as [E1 E2]. apply Z.ltb_lt in E1, E2.
    rewrite seqZ_cons by lia. rewrite exec_bind, exec_for_each_cons.
    destruct (exec (body k) m) as [[[] m1]|]; [|done].
    unfold int_add at 1. rewrite exec_bind, exec_int_ok by lia.
    rewrite IH by lia.
    replace (Z.succ k) with (k + 1) by lia.
    by replace (Z.pred (Z.min (lo + block) n - k))
      with (Z.min (lo + block) n - (k + 1)) by lia.
  - rewrite seqZ_nil; [done|].
    apply andb_false_iff in E as [E|E]; apply Z.ltb_ge in E; lia.
Qed.

Lemma exec_tile_loop lo n (body : Z -> prog float unit) m :
  INT_MIN <= lo -> lo + block <= INT_MAX -> n <= INT_MAX ->
  exec (tile_loop lo n body) m = exec (for_each (tile_range lo n) body) m.
Proof.
  intros. unfold tile_loop, tile_range.
  assert (block = 16) as Hblock by reflexivity.
  apply exec_tile_loop_from; lia.
Qed.

Lemma exec_transpose_tile_gen m src dst n i j :
  0 <= n <= INT_MAX -> 0 <= i -> 0 <= j ->
  i * n + j + block <= INT_MAX -> i + block <= INT_MAX -> j + block <= INT_MAX ->
  exec (transpose_tile src dst n i j) m
  = exec (for_each (tile_elements n (i, j))
            (fun ij => transpose_assign src dst n ij.1 ij.2)) m.
Proof.
  intros Hn Hi Hj Hpf Hib Hjb. unfold transpose_tile, int_mul, int_add.
  assert (block = 16) as Hblock by reflexivity.
  assert (0 <= i * n) by nia.
  unfold INT_MAX in *.
  rewrite exec_bind, exec_int_ok by (unfold INT_MIN, INT_MAX; lia).
  rewrite exec_bind, exec_int_ok by (unfold INT_MIN, INT_MAX; lia).
  rewrite exec_bind, exec_int_ok by (unfold INT_MIN, INT_MAX; lia).
  rewrite exec_bind. unfold prefetch. cbn [exec].
  rewrite exec_tile_loop by (unfold INT_MIN, INT_MAX; lia).
  unfold tile_elements. rewrite exec_for_each_collapse2. cbn [fst snd].
  apply exec_for_each_ext. intros ii m1 _.
  apply exec_tile_loop; unfold INT_MIN, INT_MAX; lia.
Qed.

Lemma exec_transpose_tile m src dst n i j :
  0 <= n <= MAX_DIM -> 0 <= i < n -> 0 <= j < n ->
  exec (transpose_tile src dst n i j) m
  = exec (for_each (tile_elements n (i, j))
            (fun ij => transpose_assign src dst n ij.1 ij.2)) m.
Proof.
  intros Hn Hi Hj. pose proof (index_bounds n i j Hn Hi Hj) as Hb.
  assert (block = 16) as Hblock by reflexivity.
  unfold MAX_DIM in *.
  apply exec_transpose_tile_gen; unfold INT_MAX; lia.
Qed.

Lemma exec_for_each_bind {X Y} (f : X -> list Y) (body : Y -> prog float unit) l m :
  exec (for_each (l ≫= f) body) m
  = exec (for_each l (fun x => for_each (f x) body)) m.
Proof.
  revert m. induction l as [|x l IH]; intros m; [reflexivity|].
  rewrite bind_cons, exec_for_each_app, exec_for_each_cons.
  destruct (exec (for_each (f x) body) m) as [[[] m1]|]; [apply IH | reflexivity].
Qed.

Lemma tile_range_elem lo n k : k ∈ tile_range lo n <-> lo <= k < lo + block /\ k < n.
Proof. unfold tile_range. rewrite elem_of_seqZ. lia. Qed.

Lemma tile_elements_elem n i j ii jj :
  (ii, jj) ∈ tile_elements n (i, j) <->
  (i <= ii < i + block /\ ii < n) /\ (j <= jj < j + block /\ jj < n).
Proof. unfold tile_elements. by rewrite collapse2_elem, !tile_range_elem. Qed.

(** The tiles of a tiling cover the index space, each element once. *)
Lemma tiles_cover n tiles :
  NoDup tiles ->
  (forall i j, (i, j) ∈ tiles <->
     (0 <= i < n /\ i mod block = 0) /\ (0 <= j < n /\ j mod block = 0)) ->
  NoDup (tiles ≫= tile_elements n)
  /\ forall ii jj, (ii, jj) ∈ tiles ≫= tile_elements n <-> 0 <= ii < n /\ 0 <= jj < n.
Proof.
  intros Hnd Htiles. assert (block = 16) as Hblock by reflexivity. split.
  - apply NoDup_bind; [| |exact Hnd].
    + intros [i j] [i' j'] [ii jj] H1 H2 E1 E2.
      apply Htiles in H1, H2. apply tile_elements_elem in E1, E2.
      rewrite Hblock in *. f_equal; zlia.
    + intros [i j] _. apply collapse2_NoDup; apply NoDup_seqZ.
  - intros ii jj. rewrite list_elem_of_bind. split.
    + intros ([i j] & E & H). apply Htiles in H. apply tile_elements_elem in E.
      rewrite Hblock in *. lia.
    + intros [Hii Hjj]. exists (block * (ii / block), block * (jj / block)). split.
      * apply tile_elements_elem. rewrite Hblock. zlia.
      * apply Htiles. rewrite Hblock. zlia.
Qed.

(** The tiled transposition, its tiles run in any order. *)
Lemma transpose_tiles_schedule m src dst n tiles :
  0 <= n <= MAX_DIM ->
  transpose_ready m src dst n ->
  NoDup tiles ->
  (forall i j, (i, j) ∈ tiles <->
     (0 <= i < n /\ i mod block = 0) /\ (0 <= j < n /\ j mod block = 0)) ->
  exists m',
    exec (omp_parallel_for tiles (fun ij => transpose_tile src dst n ij.1 ij.2)) m
      = Ok (tt, m')
    /\ forall a, m' !! a = transpose_post m src dst n a.
Proof.
  intros Hn Hready Hnd Htiles.
  destruct (tiles_cover n tiles Hnd Htiles) as [Hnd' Hcover].
  destruct (transpose_schedule m src dst n _ Hn Hready Hnd' Hcover) as (m' & Hex & Hpost).
  exists m'. split; [|exact Hpost].
  rewrite <- Hex, exec_for_each_bind. unfold omp_parallel_for.
  apply exec_for_each_ext. intros [i j] m1 Hin. apply Htiles in Hin. simpl.
  apply exec_transpose_tile; lia.
Qed.

End TransposeFacts.

(** ** Correctness of the transposers *)

Lemma run_exec {V} (p : prog V unit) (m m' : gmap Z V) :
  exec p m = Ok (tt, m') -> run p m = Ok m'.
Proof. intros H. unfold run. by rewrite H. Qed.

Lemma run_stuck {V} (p : prog V unit) (m : gmap Z V) :
  (exists e, exec p m = Undefined e) -> exists e, run p m = Undefined e.
Proof. intros [e H]. exists e. unfold run. by rewrite H. Qed.

Lemma zeroed_allocated p n q k :
  p <= q -> q + k <= p + n -> allocated (zeroed p n) q k.
Proof.
  intros H1 H2. apply allocated_spec. intros j Hj. exists (f32_of_Z 0).
  unfold zeroed. apply lookup_gset_to_gmap_Some. split; [|done].
  apply elem_of_list_to_set, elem_of_seqZ. lia.
Qed.

Section TransposeCorrect.
Context {float : Type}.
Implicit Types m : gmap Z float.

Lemma matrix_transpose_baseline_post m src dst n :
  0 <= n <= MAX_DIM -> transpose_ready m src dst n ->
  exists m', exec (matrix_transpose_baseline src dst n) m = Ok (tt, m')
    /\ forall a, m' !! a = transpose_post m src dst n a.
Proof.
  intros Hn Hready.
  destruct (transpose_schedule m src dst n
              (collapse2 (omp_iterations 0 n 1) (omp_iterations 0 n 1)) Hn Hready)
    as (m' & Hex & Hpost).
  - apply collapse2_NoDup; by apply omp_iterations_NoDup.
  - intros i j. rewrite collapse2_elem, !omp_iterations_elem by lia.
    rewrite !Z.mod_1_r. lia.
  - exists m'. split; [|exact Hpost]. unfold matrix_transpose_baseline.
    apply exec_then_counter; [exact Hex|]. apply counter_fits_unit.
Qed.

Lemma matrix_transpose_cache_optimized_post m src dst n :
  0 <= n <= MAX_DIM -> transpose_ready m src dst n ->
  exists m', exec (matrix_transpose_cache_optimized src dst n) m = Ok (tt, m')
    /\ forall a, m' !! a = transpose_post m src dst n a.
Proof.
  intros Hn Hready.
  destruct (transpose_tiles_schedule m src dst n
              (collapse2 (omp_iterations 0 n block) (omp_iterations 0 n block)) Hn Hready)
    as (m' & Hex & Hpost).
  - apply collapse2_NoDup; by apply omp_iterations_NoDup.
  - intros i j. by rewrite collapse2_elem, !omp_iterations_elem.
  - exists m'. split; [|exact Hpost]. unfold matrix_transpose_cache_optimized.
    apply exec_then_counter; [exact Hex|]. intros _. apply counter_fits_tiles. lia.
Qed.

Lemma transpose_post_elem m src dst n i j :
  0 <= i < n -> 0 <= j < n ->
  transpose_post m src dst n (dst + (j * n + i)) = m !! (src + (i * n + j)).
Proof.
  intros Hi Hj. unfold transpose_post.
  rewrite decide_True by nia.
  replace (dst + (j * n + i) - dst) with (j * n + i) by lia.
  by destruct (index_div_mod n i j Hi) as [-> ->].
Qed.

(** An element whose index overflows [int] has no defined assignment. *)
Lemma transpose_assign_overflow m src dst n i j :
  INT_MIN <= i * n <= INT_MAX -> INT_MIN <= i * n + j <= INT_MAX ->
  INT_MIN <= j * n <= INT_MAX -> INT_MAX < j * n + i ->
  exists e, exec (transpose_assign src dst n i j) m = Undefined e.
Proof.
  intros H1 H2 H3 H4. unfold transpose_assign, int_mul, int_add.
  rewrite exec_bind, exec_int_ok by done.
  rewrite exec_bind, exec_int_ok by done.
  rewrite exec_bind.
  destruct (m !! (src + (i * n + j))) as [v|] eqn:E.
  - rewrite (exec_load _ _ _ _ E).
    rewrite exec_bind, exec_int_ok by done.
    rewrite exec_bind, exec_int_overflow by done. by eexists.
  - rewrite (exec_load_None _ _ _ E). by eexists.
Qed.

Lemma matrix_transpose_baseline_stuck m src dst :
  exists e, exec (matrix_transpose_baseline src dst BIG_DIM) m = Undefined e.
Proof.
  unfold matrix_transpose_baseline. apply exec_bind_stuck. unfold omp_parallel_for.
  apply (exec_for_each_stuck _ _ (41708, 46340)).
  - rewrite collapse2_elem, !omp_iterations_elem by lia.
    rewrite !Z.mod_1_r. unfold BIG_DIM. lia.
  - intros m1. apply transpose_assign_overflow;
      unfold BIG_DIM, INT_MIN, INT_MAX; simpl; lia.
Qed.

Lemma matrix_transpose_cache_optimized_stuck m src dst :
  exists e, exec (matrix_transpose_cache_optimized src dst BIG_DIM) m = Undefined e.
Proof.
  unfold matrix_transpose_cache_optimized. apply exec_bind_stuck.
  unfold omp_parallel_for.
  assert (block = 16) as Hblock by reflexivity.
  apply (exec_for_each_stuck _ _ (41696, 46336)).
  - rewrite collapse2_elem, !omp_iterations_elem by (rewrite Hblock; lia).
    rewrite Hblock. unfold BIG_DIM. by vm_compute.
  - intros m1. cbn [fst snd].
    rewrite exec_transpose_tile_gen
      by (rewrite ?Hblock; unfold BIG_DIM, INT_MAX; lia).
    apply (exec_for_each_stuck _ _ (41708, 46340)).
    + apply tile_elements_elem. rewrite Hblock. unfold BIG_DIM. lia.
    + intros m2. apply transpose_assign_overflow;
        unfold BIG_DIM, INT_MIN, INT_MAX; simpl; lia.
Qed.

(** The bound is sharp: beyond it the baseline transposer has no defined
    run on any memory. *)
Theorem matrix_transpose_baseline_undefined_beyond m src dst n :
  MAX_DIM < n ->
  exists e, run (matrix_transpose_baseline src dst n) m = Undefined e.
Proof.
  intros Hn. unfold MAX_DIM in Hn. apply run_stuck.
  unfold matrix_transpose_baseline. apply exec_bind_stuck. unfold omp_parallel_for.
  apply (exec_for_each_stuck _ _ (n - 1, n - 1)).
  - rewrite collapse2_elem, !omp_iterations_elem by lia. rewrite !Z.mod_1_r. lia.
  - intros m1. cbn [fst snd]. unfold transpose_assign, int_mul, int_add.
    rewrite exec_bind.
    destruct (decide ((n - 1) * n <= INT_MAX)) as [Hle|Hgt].
    + rewrite exec_int_ok by (unfold INT_MIN in *; nia).
      rewrite exec_bind, exec_int_overflow by (unfold INT_MAX; nia). by eexists.
    + rewrite exec_int_overflow by lia. by eexists.
Qed.

Lemma transpose_post_allocated m src dst n p k :
  0 <= n -> transpose_ready m src dst n -> allocated m p k ->
  forall m', (forall a, m' !! a = transpose_post m src dst n a) -> allocated m' p k.
Proof.
  intros Hn (Hsrc & Hdst & _) Hp m' Hpost.
  rewrite allocated_spec in *. intros j Hj. rewrite Hpost. unfold transpose_post.
  destruct (decide (dst <= p + j < dst + n * n)) as [Ha|Ha]; [|by apply Hp].
  assert (0 < n) as Hpos by nia.
  assert (0 <= (p + j - dst) mod n < n) as Hmod by (apply Z.mod_pos_bound; lia).
  assert (0 <= (p + j - dst) / n < n) as Hdiv.
  { split; [apply Z.div_pos; lia|]. apply Z.div_lt_upper_bound; lia. }
  apply Hsrc. nia.
Qed.

(** C5 (amended).  For every [n] with [0 <= n <= 46340], every [n] x [n]
    source matrix and every destination buffer that shares no cell with
    it, [matrix_transpose_baseline] returns, and afterwards
    [dst[j * n + i] = src[i * n + j]] for all [i], [j] in [0, n). *)
Theorem matrix_transpose_baseline_correct m src dst n :
  0 <= n <= MAX_DIM -> transpose_ready m src dst n ->
  exists m', run (matrix_transpose_baseline src dst n) m = Ok m'
    /\ forall i j, 0 <= i < n -> 0 <= j < n ->
         m' !! (dst + (j * n + i)) = m !! (src + (i * n + j)).
Proof.
  intros Hn Hready.
  destruct (matrix_transpose_baseline_post m src dst n Hn Hready) as (m' & Hex & Hpost).
  exists m'. split; [by apply run_exec|].
  intros i j Hi Hj. rewrite Hpost. by apply transpose_post_elem.
Qed.

(** C3 (amended).  For every [n] with [0 <= n <= 46340], a multiple of the
    tile size or not, the tiled transposer and the baseline transposer
    both return, with the same final memory. *)
Theorem matrix_transpose_cache_optimized_eq_baseline m src dst n :
  0 <= n <= MAX_DIM -> transpose_ready m src dst n ->
  exists m', run (matrix_transpose_cache_optimized src dst n) m = Ok m'
    /\ run (matrix_transpose_baseline src dst n) m = Ok m'.
Proof.
  intros Hn Hready.
  destruct (matrix_transpose_baseline_post m src dst n Hn Hready) as (m1 & Hex1 & Hpost1).
  destruct (matrix_transpose_cache_optimized_post m src dst n Hn Hready)
    as (m2 & Hex2 & Hpost2).
  assert (m2 = m1) as -> by (apply map_eq; intros a; by rewrite Hpost1, Hpost2).
  exists m1. split; by apply run_exec.
Qed.

(** C7 (amended).  For every [n] with [0 <= n <= 46340], transposing [src]
    into a buffer and that buffer into a second one with
    [matrix_transpose_baseline] returns, and the second buffer then holds
    the original contents of [src]. *)
Theorem matrix_transpose_baseline_involution m src tmp dst n :
  0 <= n <= MAX_DIM -> transpose_ready m src tmp n ->
  allocated m dst (n * n) -> disjoint tmp dst (n * n) ->
  exists m',
    run (matrix_transpose_baseline src tmp n ;; matrix_transpose_baseline tmp dst n) m
      = Ok m'
    /\ forall k, 0 <= k < n * n -> m' !! (dst + k) = m !! (src + k).
Proof.
  intros Hn Hready Hdst Hdisj.
  destruct (matrix_transpose_baseline_post m src tmp n Hn Hready) as (m1 & Hex1 & Hpost1).
  assert (transpose_ready m1 tmp dst n) as Hready1.
  { destruct Hready as (Hs & Ht & Hd). split; [|split; [|done]].
    - eapply transpose_post_allocated; [| |exact Ht|exact Hpost1]; [lia|].
      by repeat split.
    - eapply transpose_post_allocated; [| |exact Hdst|exact Hpost1]; [lia|].
      by repeat split. }
  destruct (matrix_transpose_baseline_post m1 tmp dst n Hn Hready1) as (m2 & Hex2 & Hpost2).
  exists m2. split.
  - apply run_exec. by rewrite exec_bind, Hex1.
  - intros k Hk. assert (0 < n) as Hpos by nia.
    assert (0 <= k mod n < n) as Hmod by (apply Z.mod_pos_bound; lia).
    assert (0 <= k / n < n) as Hdiv.
    { split; [apply Z.div_pos; lia|]. apply Z.div_lt_upper_bound; lia. }
    replace (dst + k) with (dst + ((k / n) * n + k mod n))
      by (pose proof (Z.div_mod k n); lia).
    rewrite Hpost2, transpose_post_elem by done.
    rewrite Hpost1, transpose_post_elem by done.
    f_equal. pose proof (Z.div_mod k n). lia.
Qed.

End TransposeCorrect.

Lemma big_matrices_ready :
  transpose_ready (zeroed 0 (3 * (BIG_DIM * BIG_DIM))) 0 (BIG_DIM * BIG_DIM) BIG_DIM
  /\ allocated (zeroed 0 (3 * (BIG_DIM * BIG_DIM))) (2 * (BIG_DIM * BIG_DIM))
       (BIG_DIM * BIG_DIM)
  /\ disjoint (BIG_DIM * BIG_DIM) (2 * (BIG_DIM * BIG_DIM)) (BIG_DIM * BIG_DIM).
Proof.
  split; [split; [|split]|split].
  - apply zeroed_allocated; unfold BIG_DIM; lia.
  - apply zeroed_allocated; unfold BIG_DIM; lia.
  - apply disjoint_spec. unfold BIG_DIM; lia.
  - apply zeroed_allocated; unfold BIG_DIM; lia.
  - apply disjoint_spec. unfold BIG_DIM; lia.
Qed.

(** C5, counterexample: two 46341 x 46341 matrices that share no cell, and
    [matrix_transpose_baseline] runs into undefined behaviour (the index
    [46340 * 46341 + 41708] does not fit in [int]). *)
Lemma matrix_transpose_baseline_overflows :
  transpose_ready (zeroed 0 (3 * (BIG_DIM * BIG_DIM))) 0 (BIG_DIM * BIG_DIM) BIG_DIM
  /\ exists e,
       run (matrix_transpose_baseline 0 (BIG_DIM * BIG_DIM) BIG_DIM)
           (zeroed 0 (3 * (BIG_DIM * BIG_DIM))) = Undefined e.
Proof.
  split; [exact (proj1 big_matrices_ready)|].
  apply run_stuck, matrix_transpose_baseline_stuck.
Qed.

(** C3, counterexample: on two 46341 x 46341 matrices that share no cell
    the tiled transposer runs into undefined behaviour and writes no
    transposed matrix. *)
Lemma matrix_transpose_cache_optimized_overflows :
  transpose_ready (zeroed 0 (3 * (BIG_DIM * BIG_DIM))) 0 (BIG_DIM * BIG_DIM) BIG_DIM
  /\ exists e,
       run (matrix_transpose_cache_optimized 0 (BIG_DIM * BIG_DIM) BIG_DIM)
           (zeroed 0 (3 * (BIG_DIM * BIG_DIM))) = Undefined e.
Proof.
  split; [exact (proj1 big_matrices_ready)|].
  apply run_stuck, matrix_transpose_cache_optimized_stuck.
Qed.

(** C7, counterexample: with three 46341 x 46341 buffers that share no
    cell, transposing twice runs into undefined behaviour. *)
Lemma matrix_transpose_twice_overflows :
  transpose_ready (zeroed 0 (3 * (BIG_DIM * BIG_DIM))) 0 (BIG_DIM * BIG_DIM) BIG_DIM
  /\ allocated (zeroed 0 (3 * (BIG_DIM * BIG_DIM))) (2 * (BIG_DIM * BIG_DIM))
       (BIG_DIM * BIG_DIM)
  /\ disjoint (BIG_DIM * BIG_DIM) (2 * (BIG_DIM * BIG_DIM)) (BIG_DIM * BIG_DIM)
  /\ exists e,
       run (matrix_transpose_baseline 0 (BIG_DIM * BIG_DIM) BIG_DIM ;;
            matrix_transpose_baseline (BIG_DIM * BIG_DIM) (2 * (BIG_DIM * BIG_DIM)) BIG_DIM)
           (zeroed 0 (3 * (BIG_DIM * BIG_DIM))) = Undefined e.
Proof.
  destruct big_matrices_ready as (H1 & H2 & H3).
  split; [exact H1|]. split; [exact H2|]. split; [exact H3|].
  apply run_stuck. rewrite exec_bind.
  destruct (matrix_transpose_baseline_stuck
              (zeroed 0 (3 * (BIG_DIM * BIG_DIM))) 0 (BIG_DIM * BIG_DIM)) as [e ->].
  by eexists.
Qed.

Lemma matrices4_ready :
  0 <= 4 <= MAX_DIM /\ transpose_ready matrices4 0 16 4
  /\ allocated matrices4 32 (4 * 4) /\ disjoint 16 32 (4 * 4).
Proof. unfold MAX_DIM. repeat split; try lia; by vm_compute. Defined.

Lemma matrix_transpose_baseline_correct_witness :
  (0 <= 4 <= MAX_DIM /\ transpose_ready matrices4 0 16 4)
  /\ exists m', run (matrix_transpose_baseline 0 16 4) matrices4 = Ok m'
       /\ forall i j, 0 <= i < 4 -> 0 <= j < 4 ->
            m' !! (16 + (j * 4 + i)) = matrices4 !! (0 + (i * 4 + j)).
Proof.
  destruct matrices4_ready as (H1 & H2 & _).
  split; [by split|]. exact (matrix_transpose_baseline_correct matrices4 0 16 4 H1 H2).
Defined.

Lemma matrix_transpose_cache_optimized_eq_baseline_witness :
  (0 <= 20 <= MAX_DIM /\ transpose_ready matrices20 0 400 20)
  /\ exists m', run (matrix_transpose_cache_optimized 0 400 20) matrices20 = Ok m'
       /\ run (matrix_transpose_baseline 0 400 20) matrices20 = Ok m'.
Proof.
  assert (0 <= 20 <= MAX_DIM) as H1 by (unfold MAX_DIM; lia).
  assert (transpose_ready matrices20 0 400 20) as H2 by (repeat split; by vm_compute).
  split; [by split|].
  exact (matrix_transpose_cache_optimized_eq_baseline matrices20 0 400 20 H1 H2).
Defined.

Lemma matrix_transpose_baseline_involution_witness :
  (0 <= 4 <= MAX_DIM /\ transpose_ready matrices4 0 16 4
   /\ allocated matrices4 32 (4 * 4) /\ disjoint 16 32 (4 * 4))
  /\ exists m',
       run (matrix_transpose_baseline 0 16 4 ;; matrix_transpose_baseline 16 32 4) matrices4
         = Ok m'
       /\ forall k, 0 <= k < 4 * 4 -> m' !! (32 + k) = matrices4 !! (0 + k).
Proof.
  pose proof matrices4_ready as (H1 & H2 & H3 & H4).
  split; [done|].
  exact (matrix_transpose_baseline_involution matrices4 0 16 32 4 H1 H2 H3 H4).
Defined.

(** ** Correctness of the position updaters *)

Section PositionsCorrect.
Context {float : Type} (fadd : float -> float -> float).
Implicit Types m : gmap Z float.

Lemma update_positions_baseline_post m x y vx vy n :
  positions_ready m x y vx vy n ->
  exists m', exec (update_positions_baseline fadd x y vx vy n) m = Ok (tt, m')
    /\ forall a, m' !! a = positions_post fadd m x y vx vy n a.
Proof.
  intros Hready.
  destruct (update_positions_baseline_schedule fadd m x y vx vy n
              (omp_iterations 0 n 1) Hready) as (m' & Hex & Hpost).
  - by apply omp_iterations_NoDup.
  - intros i. rewrite omp_iterations_elem by lia. rewrite Z.mod_1_r. lia.
  - exists m'. split; [|exact Hpost]. unfold update_positions_baseline.
    apply exec_then_counter; [exact Hex|]. apply counter_fits_unit.
Qed.

Lemma update_positions_simd_post m x y vx vy n :
  n mod 8 = 0 -> aligned x -> aligned y -> aligned vx -> aligned vy ->
  positions_ready m x y vx vy n ->
  exists m', exec (update_positions_simd fadd x y vx vy n) m = Ok (tt, m')
    /\ forall a, m' !! a = positions_post fadd m x y vx vy n a.
Proof.
  intros Hn Ax Ay Avx Avy Hready.
  destruct (update_positions_simd_schedule fadd m x y vx vy n
              (omp_iterations 0 n 8) Hn Ax Ay Avx Avy Hready) as (m' & Hex & Hpost).
  - by apply omp_iterations_NoDup.
  - intros i. by rewrite omp_iterations_elem.
  - exists m'. split; [|exact Hpost]. unfold update_positions_simd.
    apply exec_then_counter; [exact Hex|]. intros Hint.
    apply counter_fits_groups. rewrite round_up8_multiple by done. lia.
Qed.

Lemma positions_ready_mono m x y vx vy n n' :
  n <= n' -> positions_ready m x y vx vy n' -> positions_ready m x y vx vy n.
Proof.
  intros Hle (H1 & H2 & H3 & H4 & D1 & D2 & D3 & D4 & D5).
  rewrite allocated_spec in H1, H2, H3, H4. rewrite disjoint_spec in D1, D2, D3, D4, D5.
  unfold positions_ready. rewrite !allocated_spec, !disjoint_spec.
  repeat split; try (intros k Hk; auto with lia); lia.
Qed.

(** The vector loop over [n] floats updates [round_up8 n] of them. *)
Lemma update_positions_simd_schedule_padded m x y vx vy n schedule :
  aligned x -> aligned y -> aligned vx -> aligned vy ->
  positions_ready m x y vx vy (round_up8 n) ->
  Permutation schedule (omp_iterations 0 n 8) ->
  exists m',
    exec (omp_parallel_for schedule (update_positions_simd_body fadd x y vx vy)) m
      = Ok (tt, m')
    /\ forall a, m' !! a = positions_post fadd m x y vx vy (round_up8 n) a.
Proof.
  intros Ax Ay Avx Avy Hready Hperm.
  apply update_positions_simd_schedule; try done.
  - unfold round_up8. zlia.
  - rewrite Hperm. by apply omp_iterations_NoDup.
  - intros i. rewrite Hperm, omp_iterations_elem by lia. unfold round_up8. zlia.
Qed.

Lemma update_positions_simd_post_padded m x y vx vy n :
  aligned x -> aligned y -> aligned vx -> aligned vy ->
  positions_ready m x y vx vy (round_up8 n) -> round_up8 n <= INT_MAX ->
  exists m', exec (update_positions_simd fadd x y vx vy n) m = Ok (tt, m')
    /\ forall a, m' !! a = positions_post fadd m x y vx vy (round_up8 n) a.
Proof.
  intros Ax Ay Avx Avy Hready Hfit.
  destruct (update_positions_simd_schedule_padded m x y vx vy n (omp_iterations 0 n 8)
              Ax Ay Avx Avy Hready (Permutation_refl _)) as (m' & Hex & Hpost).
  exists m'. split; [|exact Hpost]. unfold update_positions_simd.
  apply exec_then_counter; [exact Hex|]. intros _. by apply counter_fits_groups.
Qed.

(** With arrays of exactly [n] floats, [n] not a multiple of 8, the whole
    groups run and the load of the last group reads [x[n]], past the end. *)
Theorem update_positions_simd_out_of_bounds m x y vx vy n :
  0 <= n -> n mod 8 <> 0 ->
  aligned x -> aligned y -> aligned vx -> aligned vy ->
  positions_ready m x y vx vy n -> m !! (x + n) = None ->
  run (update_positions_simd fadd x y vx vy n) m = Undefined (OutOfBounds x n).
Proof.
  intros Hn Hmod Ax Ay Avx Avy Hready Hend.
  unfold update_positions_simd, omp_parallel_for, run. rewrite exec_bind.
  rewrite omp_iterations_partial_group, exec_for_each_app by done.
  set (n' := 8 * (n / 8)).
  assert (0 <= n' < n /\ n < n' + 8 /\ n' mod 8 = 0) as (Hn' & Hlast & Hmod')
    by (unfold n'; zlia).
  destruct (update_positions_simd_schedule fadd m x y vx vy n' (omp_iterations 0 n' 8))
    as (m1 & E1 & P1); try done.
  { apply (positions_ready_mono m x y vx vy n' n); [lia | done]. }
  { by apply omp_iterations_NoDup. }
  { intros i. by rewrite omp_iterations_elem. }
  unfold omp_parallel_for in E1. rewrite E1, exec_for_each_cons.
  apply positions_ready_spec in Hready as (Hal & D1 & _).
  unfold update_positions_simd_body, mm256_load_ps, aligned32.
  replace ((x + n') mod 8) with 0 by (unfold aligned in Ax; zlia).
  simpl Z.eqb. cbv iota. rewrite exec_bind.
  assert (lanes n' = seqZ n' (n - n') ++ n :: seqZ (Z.succ n) (Z.pred (8 - (n - n'))))
    as Hlanes.
  { unfold lanes. replace 8 with ((n - n') + (8 - (n - n'))) at 1 by lia.
    rewrite seqZ_app by lia. rewrite (seqZ_cons (n' + (n - n'))) by lia.
    by replace (n' + (n - n')) with n by lia. }
  rewrite Hlanes at 1.
  rewrite exec_load_seq_None; [done| |].
  - intros j Hj. apply elem_of_seqZ in Hj. rewrite P1. unfold positions_post.
    rewrite !decide_False by lia. apply Hal. lia.
  - rewrite P1. unfold positions_post, add_cells.
    rewrite decide_False by lia.
    destruct (decide (y <= x + n < y + n')); by rewrite Hend.
Qed.

Lemma update_positions_simd_baseline_agree m x y vx vy n :
  n mod 8 = 0 -> aligned x -> aligned y -> aligned vx -> aligned vy ->
  positions_ready m x y vx vy n ->
  exists m', run (update_positions_simd fadd x y vx vy n) m = Ok m'
    /\ run (update_positions_baseline fadd x y vx vy n) m = Ok m'.
Proof.
  intros Hn Ax Ay Avx Avy Hready.
  destruct (update_positions_baseline_post m x y vx vy n Hready) as (m1 & Hex1 & Hpost1).
  destruct (update_positions_simd_post m x y vx vy n Hn Ax Ay Avx Avy Hready)
    as (m2 & Hex2 & Hpost2).
  assert (m2 = m1) as -> by (apply map_eq; intros a; by rewrite Hpost1, Hpost2).
  exists m1. split; by apply run_exec.
Qed.

(** C1 (amended).  For every [n >= 0] that is a multiple of 8 and four
    32-byte aligned arrays of [n] floats, the written ones sharing no cell
    with the others, [update_positions_simd] and
    [update_positions_baseline] both return, with the same final memory. *)
Theorem update_positions_simd_eq_baseline m x y vx vy n :
  0 <= n -> n mod 8 = 0 ->
  aligned x -> aligned y -> aligned vx -> aligned vy ->
  positions_ready m x y vx vy n ->
  exists m', run (update_positions_simd fadd x y vx vy n) m = Ok m'
    /\ run (update_positions_baseline fadd x y vx vy n) m = Ok m'.
Proof.
  intros _ Hn Ax Ay Avx Avy Hready.
  destruct (update_positions_baseline_post m x y vx vy n Hready) as (mb & Hb & Pb).
  destruct (update_positions_simd_post m x y vx vy n Hn Ax Ay Avx Avy Hready)
    as (ms & Hs & Ps).
  exists mb. split; [|by apply run_exec].
  apply run_exec. rewrite Hs. do 2 f_equal.
  apply map_eq. intros a. by rewrite Pb, Ps.
Qed.

End PositionsCorrect.

(** C1, counterexample: [n = 1].  On arrays of eight floats the vector
    loop updates [x[1]], which the baseline leaves alone; on arrays of one
    float it reads past the end of [x]. *)
Lemma update_positions_simd_differs_from_baseline :
  (positions_ready particles8 0 8 16 24 1
   /\ exists ms mb,
        run (update_positions_simd f32_add 0 8 16 24 1) particles8 = Ok ms
        /\ run (update_positions_baseline f32_add 0 8 16 24 1) particles8 = Ok mb
        /\ ms !! 1 = Some (f32_of_Z 2) /\ mb !! 1 = Some (f32_of_Z 1))
  /\ (positions_ready particles1 0 8 16 24 1
      /\ run (update_positions_simd f32_add 0 8 16 24 1) particles1
           = Undefined (OutOfBounds 0 1)
      /\ exists mb, run (update_positions_baseline f32_add 0 8 16 24 1) particles1 = Ok mb).
Proof.
  split.
  - split; [repeat split; by vm_compute|].
    eexists. eexists. repeat split; vm_compute; reflexivity.
  - split; [repeat split; by vm_compute|].
    split; [by vm_compute|]. eexists. vm_compute. reflexivity.
Qed.

Lemma update_positions_simd_eq_baseline_witness :
  (0 <= 8 /\ 8 mod 8 = 0 /\ aligned 0 /\ aligned 8 /\ aligned 16 /\ aligned 24
   /\ positions_ready particles8 0 8 16 24 8)
  /\ exists m', run (update_positions_simd f32_add 0 8 16 24 8) particles8 = Ok m'
       /\ run (update_positions_baseline f32_add 0 8 16 24 8) particles8 = Ok m'.
Proof.
  assert (0 <= 8) as H0 by lia.
  assert (8 mod 8 = 0) as H1 by reflexivity.
  assert (aligned 0 /\ aligned 8 /\ aligned 16 /\ aligned 24) as (A0 & A1 & A2 & A3)
    by (repeat split; reflexivity).
  assert (positions_ready particles8 0 8 16 24 8) as H2 by (repeat split; by vm_compute).
  split; [done|].
  exact (update_positions_simd_eq_baseline f32_add particles8 0 8 16 24 8
           H0 H1 A0 A1 A2 A3 H2).
Defined.

(** The scenario of the specification: x = 0..7 and vx all 1.0 give
    x = 1..8, on both paths. *)
Example update_positions_scenario :
  exists m',
    run (update_positions_simd f32_add 0 8 16 24 8) particles8 = Ok m'
    /\ run (update_positions_baseline f32_add 0 8 16 24 8) particles8 = Ok m'
    /\ read_cells m' 0 8 = Some <$> (f32_of_Z <$> seqZ 1 8).
Proof. eexists. repeat split; vm_compute; reflexivity. Qed.

(** ** Accesses of command trees *)

Section AccessFacts.
Context {V : Type}.
Implicit Types rho : Z -> Z -> V.

Lemma value_bind {A B} rho (p : prog V A) (f : A -> prog V B) :
  value rho (bind p f) =
  match value rho p with Some a => value rho (f a) | None => None end.
Proof. induction p as [a|e|b i k IH|b i v k IH|b i k IH]; simpl; auto. Qed.

Lemma accesses_bind {A B} rho (p : prog V A) (f : A -> prog V B) :
  accesses rho (bind p f) =
  accesses rho p ++ match value rho p with Some a => accesses rho (f a) | None => [] end.
Proof.
  induction p as [a|e|b i k IH|b i v k IH|b i k IH]; simpl; auto; by f_equal.
Qed.

Lemma accesses_bind_elem {A B} rho (p : prog V A) (f : A -> prog V B) e :
  e ∈ accesses rho (bind p f) ->
  e ∈ accesses rho p \/ exists a, value rho p = Some a /\ e ∈ accesses rho (f a).
Proof.
  rewrite accesses_bind, elem_of_app. intros [H|H]; [by left|].
  destruct (value rho p) as [a|]; [right; by exists a | by apply elem_of_nil in H].
Qed.

Lemma accesses_for_each_elem {X} rho (body : X -> prog V unit) l e :
  e ∈ accesses rho (for_each l body) -> exists x, x ∈ l /\ e ∈ accesses rho (body x).
Proof.
  induction l as [|x l IH]; simpl; [by rewrite elem_of_nil|].
  intros H. apply accesses_bind_elem in H as [H|(_ & _ & H)].
  - exists x. split; [by left | done].
  - destruct (IH H) as (y & Hy & He). exists y. split; [by right | done].
Qed.

Lemma accesses_for_each {X} rho (body : X -> prog V unit) l :
  (forall x, x ∈ l -> value rho (body x) = Some tt) ->
  value rho (for_each l body) = Some tt
  /\ accesses rho (for_each l body) = l ≫= (fun x => accesses rho (body x)).
Proof.
  induction l as [|x l IH]; intros Hv; [done|].
  destruct IH as [IHv IHa]; [intros y Hy; apply Hv; by right|].
  cbn [for_each]. rewrite value_bind, accesses_bind, Hv by left.
  by rewrite IHv, IHa, bind_cons.
Qed.

(** The counter check has no access. *)
Lemma accesses_then_counter rho (p : prog V unit) lb ub step :
  accesses rho (p ;; counter_exit lb ub step) = accesses rho p.
Proof.
  rewrite accesses_bind. unfold counter_exit.
  destruct (value rho p); [|by rewrite app_nil_r].
  destruct (in_int ub && negb (in_int (counter_end lb ub step))); by rewrite app_nil_r.
Qed.

Lemma load_seq_accesses rho p idxs :
  value rho (load_seq p idxs) = Some (rho p <$> idxs)
  /\ accesses rho (load_seq p idxs) = Rd p <$> idxs.
Proof.
  induction idxs as [|i idxs [IHv IHa]]; [done|].
  cbn [load_seq]. unfold load. simpl.
  rewrite value_bind, accesses_bind, IHv, IHa. simpl. by rewrite app_nil_r.
Qed.

Lemma store_seq_accesses rho p idxs (vs : list V) :
  length vs = length idxs ->
  value rho (store_seq p idxs vs) = Some tt
  /\ accesses rho (store_seq p idxs vs) = Wr p <$> idxs.
Proof.
  revert vs. induction idxs as [|i idxs IH]; intros [|v vs] Hlen; try done.
  destruct (IH vs) as [IHv IHa]; [simpl in Hlen; lia|].
  cbn [store_seq]. unfold store. simpl. by rewrite IHv, IHa.
Qed.

End AccessFacts.

Section PositionsAccesses.
Context {float : Type} (fadd : float -> float -> float).
Implicit Types rho : Z -> Z -> float.

Lemma update_positions_baseline_body_accesses rho x y vx vy i :
  accesses rho (update_positions_baseline_body fadd x y vx vy i)
  = [Rd vx i; Rd x i; Wr x i; Rd vy i; Rd y i; Wr y i].
Proof. reflexivity. Qed.

Lemma update_positions_simd_body_accesses rho x y vx vy i :
  (x + i) mod 8 = 0 -> (y + i) mod 8 = 0 ->
  (vx + i) mod 8 = 0 -> (vy + i) mod 8 = 0 ->
  value rho (update_positions_simd_body fadd x y vx vy i) = Some tt
  /\ accesses rho (update_positions_simd_body fadd x y vx vy i)
     = (Rd x <$> lanes i) ++ (Rd y <$> lanes i) ++ (Rd vx <$> lanes i)
       ++ (Rd vy <$> lanes i) ++ (Wr x <$> lanes i) ++ (Wr y <$> lanes i).
Proof.
  intros Ax Ay Avx Avy.
  unfold update_positions_simd_body, mm256_load_ps, mm256_store_ps, aligned32.
  rewrite Ax, Ay, Avx, Avy. simpl Z.eqb. cbv iota zeta.
  destruct (load_seq_accesses rho x (lanes i)) as [Vx Lx].
  destruct (load_seq_accesses rho y (lanes i)) as [Vy Ly].
  destruct (load_seq_accesses rho vx (lanes i)) as [Vvx Lvx].
  destruct (load_seq_accesses rho vy (lanes i)) as [Vvy Lvy].
  destruct (store_seq_accesses rho x (lanes i)
              (mm256_add_ps fadd (rho x <$> lanes i) (rho vx <$> lanes i)))
    as [Vsx Lsx].
  { unfold mm256_add_ps. rewrite length_zip_with_l_eq; by rewrite !length_fmap. }
  destruct (store_seq_accesses rho y (lanes i)
              (mm256_add_ps fadd (rho y <$> lanes i) (rho vy <$> lanes i)))
    as [Vsy Lsy].
  { unfold mm256_add_ps. rewrite length_zip_with_l_eq; by rewrite !length_fmap. }
  repeat first
    [ rewrite value_bind | rewrite accesses_bind
    | rewrite Vx | rewrite Vy | rewrite Vvx | rewrite Vvy
    | rewrite Vsx | rewrite Vsy ].
  by rewrite Lx, Ly, Lvx, Lvy, Lsx, Lsy.
Qed.

(** The accesses of the vector loop: every lane of every group. *)
Lemma update_positions_simd_accesses_elem rho x y vx vy n e :
  aligned x -> aligned y -> aligned vx -> aligned vy ->
  e ∈ accesses rho (update_positions_simd fadd x y vx vy n) <->
  exists i k, (0 <= i < n /\ i mod 8 = 0) /\ i <= k < i + 8
    /\ (e = Rd x k \/ e = Rd y k \/ e = Rd vx k \/ e = Rd vy k
        \/ e = Wr x k \/ e = Wr y k).
Proof.
  unfold aligned. intros Ax Ay Avx Avy.
  unfold update_positions_simd. rewrite accesses_then_counter.
  unfold omp_parallel_for.
  destruct (accesses_for_each rho (update_positions_simd_body fadd x y vx vy)
              (omp_iterations 0 n 8)) as [_ ->].
  { intros i Hi. apply omp_iterations_elem in Hi; [|lia].
    apply update_positions_simd_body_accesses; zlia. }
  rewrite list_elem_of_bind. split.
  - intros (i & He & Hi). apply omp_iterations_elem in Hi; [|lia].
    destruct (update_positions_simd_body_accesses rho x y vx vy i) as [_ Ha]; try zlia.
    rewrite Ha in He. exists i.
    rewrite !elem_of_app, !list_elem_of_fmap in He.
    destruct He as [H|[H|[H|[H|[H|H]]]]]; destruct H as (k & -> & Hk);
      apply lanes_elem in Hk; exists k; tauto.
  - intros (i & k & Hi & Hk & He). exists i.
    split; [|apply omp_iterations_elem; [lia|done]].
    destruct (update_positions_simd_body_accesses rho x y vx vy i) as [_ ->]; try zlia.
    apply lanes_elem in Hk.
    rewrite !elem_of_app, !list_elem_of_fmap.
    destruct He as [->|[->|[->|[->|[->| ->]]]]]; eauto 10.
Qed.

(** C9.  With aligned arrays of length [n], every index
    [update_positions_simd] accesses lies in [0, n) exactly when [n] is a
    multiple of 8; then the run returns and agrees with
    [update_positions_baseline]; otherwise the final group reads and writes
    [x] at an index [k >= n]. *)
Theorem update_positions_simd_in_bounds_iff rho (m : gmap Z float) x y vx vy n :
  0 <= n -> aligned x -> aligned y -> aligned vx -> aligned vy ->
  (Forall (fun e => 0 <= access_idx e < n)
          (accesses rho (update_positions_simd fadd x y vx vy n))
   <-> n mod 8 = 0)
  /\ (n mod 8 = 0 -> positions_ready m x y vx vy n ->
      exists m', run (update_positions_simd fadd x y vx vy n) m = Ok m'
        /\ run (update_positions_baseline fadd x y vx vy n) m = Ok m')
  /\ (n mod 8 <> 0 ->
      exists k, n <= k /\ 8 * (n / 8) <= k < 8 * (n / 8) + 8
        /\ Rd x k ∈ accesses rho (update_positions_simd fadd x y vx vy n)
        /\ Wr x k ∈ accesses rho (update_positions_simd fadd x y vx vy n)).
Proof.
  intros Hn Ax Ay Avx Avy.
  assert (n mod 8 <> 0 ->
          exists k, n <= k /\ 8 * (n / 8) <= k < 8 * (n / 8) + 8
            /\ Rd x k ∈ accesses rho (update_positions_simd fadd x y vx vy n)
            /\ Wr x k ∈ accesses rho (update_positions_simd fadd x y vx vy n)) as Hlast.
  { intros Hne. exists (8 * (n / 8) + 7). split; [zlia|]. split; [lia|].
    split; apply update_positions_simd_accesses_elem; try done;
      exists (8 * (n / 8)), (8 * (n / 8) + 7); (split; [zlia|]); (split; [lia|]); tauto. }
  split; [|split; [|exact Hlast]].
  - rewrite Forall_forall. split.
    + intros Hall. destruct (decide (n mod 8 = 0)) as [|Hne]; [done|].
      destruct (Hlast Hne) as (k & Hk & _ & Hrd & _).
      apply Hall in Hrd. simpl in Hrd. lia.
    + intros Hmod e He.
      apply update_positions_simd_accesses_elem in He; try done.
      destruct He as (i & k & Hi & Hk & He).
      destruct He as [->|[->|[->|[->|[->| ->]]]]]; simpl; zlia.
  - intros Hmod Hready. by apply update_positions_simd_baseline_agree.
Qed.

End PositionsAccesses.

Lemma update_positions_simd_in_bounds_iff_witness :
  (0 <= 8 /\ aligned 0 /\ aligned 8 /\ aligned 16 /\ aligned 24)
  /\ (Forall (fun e => 0 <= access_idx e < 8)
             (accesses (fun _ _ => f32_of_Z 0) (update_positions_simd f32_add 0 8 16 24 8))
      <-> 8 mod 8 = 0)
  /\ (8 mod 8 = 0 -> positions_ready particles8 0 8 16 24 8 ->
      exists m', run (update_positions_simd f32_add 0 8 16 24 8) particles8 = Ok m'
        /\ run (update_positions_baseline f32_add 0 8 16 24 8) particles8 = Ok m')
  /\ (8 mod 8 <> 0 ->
      exists k, 8 <= k /\ 8 * (8 / 8) <= k < 8 * (8 / 8) + 8
        /\ Rd 0 k ∈ accesses (fun _ _ => f32_of_Z 0) (update_positions_simd f32_add 0 8 16 24 8)
        /\ Wr 0 k ∈ accesses (fun _ _ => f32_of_Z 0) (update_positions_simd f32_add 0 8 16 24 8)).
Proof.
  assert (0 <= 8) as H0 by lia.
  assert (aligned 0 /\ aligned 8 /\ aligned 16 /\ aligned 24) as (A0 & A1 & A2 & A3)
    by (repeat split; reflexivity).
  split; [done|].
  exact (update_positions_simd_in_bounds_iff f32_add (fun _ _ => f32_of_Z 0)
           particles8 0 8 16 24 8 H0 A0 A1 A2 A3).
Defined.

(** With arrays of three floats the vector loop touches indices 3 to 7. *)
Example update_positions_simd_accesses_3 :
  accesses (fun _ _ => f32_of_Z 0) (update_positions_simd f32_add 0 8 16 24 3)
  = (Rd 0 <$> seqZ 0 8) ++ (Rd 8 <$> seqZ 0 8) ++ (Rd 16 <$> seqZ 0 8)
    ++ (Rd 24 <$> seqZ 0 8) ++ (Wr 0 <$> seqZ 0 8) ++ (Wr 8 <$> seqZ 0 8).
Proof. reflexivity. Qed.

Section TransposeAccesses.
Context {float : Type}.
Implicit Types rho : Z -> Z -> float.

Lemma transpose_assign_accesses_elem rho src dst n i j e :
  e ∈ accesses rho (transpose_assign (float:=float) src dst n i j) ->
  e = Rd src (i * n + j) \/ e = Wr dst (j * n + i).
Proof.
  unfold transpose_assign, int_mul, int_add, lift_int, int_checked, load, store.
  destruct (in_int (i * n)); simpl; [|by rewrite elem_of_nil].
  destruct (in_int (i * n + j)); simpl; [|by rewrite elem_of_nil].
  destruct (in_int (j * n)); simpl;
    [|rewrite elem_of_cons, elem_of_nil; tauto].
  destruct (in_int (j * n + i)); simpl;
    rewrite ?elem_of_cons, elem_of_nil; tauto.
Qed.

Lemma tile_loop_accesses_from rho fuel lo n k (body : Z -> prog float unit) e :
  lo <= k ->
  e ∈ accesses rho
        (c_for fuel
           (fun k => ub <- int_add lo block ;; Ret ((k <? ub) && (k <? n)))
           (fun k => int_add k 1) body k) ->
  exists k', (lo <= k' < lo + block /\ k' < n) /\ e ∈ accesses rho (body k').
Proof.
  revert k. induction fuel as [|fuel IH]; intros k Hk; cbn [c_for].
  - simpl. by rewrite elem_of_nil.
  - unfold int_add at 1, lift_int, int_checked.
    destruct (in_int (lo + block)); simpl; [|by rewrite elem_of_nil].
    destruct ((k <? lo + block) && (k <? n)) eqn:E; simpl; [|by rewrite elem_of_nil].
    apply andb_true_iff in E as [E1 E2]. apply Z.ltb_lt in E1, E2.
    intros H. apply accesses_bind_elem in H as [H|(_ & _ & H)].
    + exists k. split; [lia | done].
    + unfold int_add at 1, lift_int, int_checked in H.
      destruct (in_int (k + 1)); simpl in H; [|by apply elem_of_nil in H].
      apply IH in H; [done | lia].
Qed.

Lemma tile_loop_accesses_elem rho lo n (body : Z -> prog float unit) e :
  e ∈ accesses rho (tile_loop lo n body) ->
  exists k, k ∈ tile_range lo n /\ e ∈ accesses rho (body k).
Proof.
  unfold tile_loop. intros H. apply tile_loop_accesses_from in H; [|lia].
  destruct H as (k & Hk & He). exists k. split; [by apply tile_range_elem | done].
Qed.

(** A tile touches its prefetch address, reads the elements of its tile in
    [src] and writes their transposed places in [dst]. *)
Lemma transpose_tile_accesses_elem rho src dst n i j e :
  e ∈ accesses rho (transpose_tile (float:=float) src dst n i j) ->
  e = Pf src (i * n + j + block)
  \/ exists ii jj, (ii, jj) ∈ tile_elements n (i, j)
       /\ (e = Rd src (ii * n + jj) \/ e = Wr dst (jj * n + ii)).
Proof.
  unfold transpose_tile, int_mul, int_add at 1 2, lift_int, int_checked, prefetch.
  destruct (in_int (i * n)); simpl; [|by rewrite elem_of_nil].
  destruct (in_int (i * n + j)); simpl; [|by rewrite elem_of_nil].
  destruct (in_int (i * n + j + block)); simpl; [|by rewrite elem_of_nil].
  rewrite elem_of_cons. intros [->|H]; [by left|right].
  apply tile_loop_accesses_elem in H as (ii & Hii & H).
  apply tile_loop_accesses_elem in H as (jj & Hjj & H).
  apply transpose_assign_accesses_elem in H.
  exists ii, jj. split; [|done]. unfold tile_elements. by apply collapse2_elem.
Qed.

End TransposeAccesses.

(** ** Order independence of the parallel loops *)

Lemma order_independent_from_post {V X} (body : X -> prog V unit) lb ub step iters
    (m : gmap Z V) (post : Z -> option V) :
  (forall schedule, Permutation schedule iters ->
     exists m', exec (for_each schedule body) m = Ok (tt, m')
       /\ forall a, m' !! a = post a) ->
  (INT_MIN <= ub <= INT_MAX -> INT_MIN <= counter_end lb ub step <= INT_MAX) ->
  exists m', order_independent body (counter_exit lb ub step) iters m m'.
Proof.
  intros H Hfit. destruct (H iters (Permutation_refl _)) as (m0 & _ & Hpost0).
  exists m0. intros schedule Hperm.
  destruct (H schedule Hperm) as (m1 & Hex1 & Hpost1).
  assert (m1 = m0) as <- by (apply map_eq; intros a; by rewrite Hpost0, Hpost1).
  apply run_exec. unfold omp_parallel_for. by apply exec_then_counter.
Qed.

Section ParallelLoops.
Context {float : Type} (fadd : float -> float -> float).
Implicit Types m : gmap Z float.

Lemma update_positions_baseline_parallel_safe m x y vx vy n :
  positions_ready m x y vx vy n ->
  parallel_safe (update_positions_baseline_body fadd x y vx vy)
                (counter_exit 0 n 1) (omp_iterations 0 n 1) m.
Proof.
  intros Hready. split.
  - apply positions_ready_spec in Hready as (_ & D1 & D2 & D3 & D4 & D5).
    intros rho1 rho2 a b e1 e2 Ha Hb Hne H1 H2 Hw Hd.
    apply omp_iterations_elem in Ha, Hb; try lia.
    rewrite update_positions_baseline_body_accesses in H1, H2.
    repeat (apply elem_of_cons in H1 as [->|H1]; try discriminate Hw);
      [| |by apply elem_of_nil in H1];
      repeat (apply elem_of_cons in H2 as [->|H2]; [simpl; lia|]);
      by apply elem_of_nil in H2.
  - apply (order_independent_from_post _ _ _ _ _ _ (positions_post fadd m x y vx vy n));
      [|apply counter_fits_unit].
    intros schedule Hperm.
    apply update_positions_baseline_schedule; try done.
    + rewrite Hperm. by apply omp_iterations_NoDup.
    + intros i. rewrite Hperm, omp_iterations_elem by lia. rewrite Z.mod_1_r. lia.
Qed.

Lemma update_positions_simd_parallel_safe m x y vx vy n :
  aligned x -> aligned y -> aligned vx -> aligned vy ->
  positions_ready m x y vx vy (round_up8 n) -> round_up8 n <= INT_MAX ->
  parallel_safe (update_positions_simd_body fadd x y vx vy)
                (counter_exit 0 n 8) (omp_iterations 0 n 8) m.
Proof.
  intros Ax Ay Avx Avy Hready Hfit. split.
  - apply positions_ready_spec in Hready as (_ & D1 & D2 & D3 & D4 & D5).
    unfold aligned, round_up8 in *.
    intros rho1 rho2 a b e1 e2 Ha Hb Hne H1 H2 Hw Hd.
    apply omp_iterations_elem in Ha, Hb; try lia.
    destruct (update_positions_simd_body_accesses fadd rho1 x y vx vy a) as [_ E1]; try zlia.
    destruct (update_positions_simd_body_accesses fadd rho2 x y vx vy b) as [_ E2]; try zlia.
    rewrite E1 in H1. rewrite E2 in H2. clear E1 E2.
    rewrite !elem_of_app, !list_elem_of_fmap in H1, H2.
    destruct H1 as [H1|[H1|[H1|[H1|[H1|H1]]]]]; destruct H1 as (k1 & -> & Hk1);
      try discriminate Hw; apply lanes_elem in Hk1;
      destruct H2 as [H2|[H2|[H2|[H2|[H2|H2]]]]]; destruct H2 as (k2 & -> & Hk2);
      apply lanes_elem in Hk2; simpl; zlia.
  - apply (order_independent_from_post _ _ _ _ _ _
             (positions_post fadd m x y vx vy (round_up8 n)));
      [|intros _; by apply counter_fits_groups].
    intros schedule Hperm.
    by apply update_positions_simd_schedule_padded.
Qed.

Lemma transpose_addresses_differ src dst n i j i' j' :
  src + n * n <= dst \/ dst + n * n <= src ->
  0 <= i < n -> 0 <= j < n -> 0 <= i' < n -> 0 <= j' < n ->
  (i, j) <> (i', j') ->
  dst + (j * n + i) <> dst + (j' * n + i')
  /\ dst + (j * n + i) <> src + (i' * n + j').
Proof.
  intros Hd Hi Hj Hi' Hj' Hne. split.
  - intros Heq. destruct (index_inj n i j i' j'); [lia..|]. by subst.
  - assert (0 <= j * n + i < n * n) by nia.
    assert (0 <= i' * n + j' < n * n) by nia. lia.
Qed.

Lemma matrix_transpose_baseline_parallel_safe m src dst n :
  0 <= n <= MAX_DIM -> transpose_ready m src dst n ->
  parallel_safe (fun ij => transpose_assign src dst n ij.1 ij.2)
                (counter_exit 0 n 1)
                (collapse2 (omp_iterations 0 n 1) (omp_iterations 0 n 1)) m.
Proof.
  intros Hn Hready. split.
  - destruct Hready as (_ & _ & Hd). apply disjoint_spec in Hd.
    intros rho1 rho2 [i j] [i' j'] e1 e2 Ha Hb Hne H1 H2 Hw Hdata.
    apply collapse2_elem in Ha as [Hi Hj]. apply collapse2_elem in Hb as [Hi' Hj'].
    apply omp_iterations_elem in Hi, Hj, Hi', Hj'; try lia.
    destruct (transpose_addresses_differ src dst n i j i' j') as [Hww Hwr];
      [done|lia..|done|].
    apply transpose_assign_accesses_elem in H1 as [->| ->]; [discriminate Hw|].
    by apply transpose_assign_accesses_elem in H2 as [->| ->].
  - apply (order_independent_from_post _ _ _ _ _ _ (transpose_post m src dst n));
      [|apply counter_fits_unit].
    intros schedule Hperm. apply transpose_schedule; try done.
    + rewrite Hperm. apply collapse2_NoDup; by apply omp_iterations_NoDup.
    + intros i j. rewrite Hperm, collapse2_elem, !omp_iterations_elem by lia.
      rewrite !Z.mod_1_r. lia.
Qed.

Lemma matrix_transpose_cache_optimized_parallel_safe m src dst n :
  0 <= n <= MAX_DIM -> transpose_ready m src dst n ->
  parallel_safe (fun ij => transpose_tile src dst n ij.1 ij.2)
                (counter_exit 0 n block)
                (collapse2 (omp_iterations 0 n block) (omp_iterations 0 n block)) m.
Proof.
  intros Hn Hready. assert (block = 16) as Hblock by reflexivity. split.
  - destruct Hready as (_ & _ & Hd). apply disjoint_spec in Hd.
    intros rho1 rho2 [i j] [i' j'] e1 e2 Ha Hb Hne H1 H2 Hw Hdata.
    apply collapse2_elem in Ha as [Hi Hj]. apply collapse2_elem in Hb as [Hi' Hj'].
    apply omp_iterations_elem in Hi, Hj, Hi', Hj'; try (rewrite Hblock; lia).
    apply transpose_tile_accesses_elem in H1 as [->|(ii & jj & Ht & H1)];
      [discriminate Hw|].
    apply transpose_tile_accesses_elem in H2 as [->|(ii' & jj' & Ht' & H2)];
      [discriminate Hdata|].
    apply tile_elements_elem in Ht, Ht'. rewrite Hblock in *. simpl in Ht, Ht'.
    destruct (transpose_addresses_differ src dst n ii jj ii' jj') as [Hww Hwr];
      [done|lia..| |].
    { intros Heq. apply Hne. simplify_eq. f_equal; zlia. }
    destruct H1 as [->| ->]; [discriminate Hw|].
    by destruct H2 as [->| ->].
  - apply (order_independent_from_post _ _ _ _ _ _ (transpose_post m src dst n));
      [|intros _; apply counter_fits_tiles; lia].
    intros schedule Hperm. apply transpose_tiles_schedule; try done.
    + rewrite Hperm. apply collapse2_NoDup; by apply omp_iterations_NoDup.
    + intros i j. by rewrite Hperm, collapse2_elem, !omp_iterations_elem.
Qed.

(** C8.  In each of the four parallel loops, no cell written by one
    iteration (element, vector group or tile) is read or written by
    another, and the loop, its iterations run in any order, returns one and
    the same memory.  Each loop has its own conditions: the baseline
    updater arrays of [n] floats, of any alignment; the vector updater
    aligned arrays that hold its groups, their count an [int]; the
    transposers a dimension within the bound and matrices that share no
    cell. *)
Theorem parallel_loops_order_independent m x y vx vy n src dst dim :
  (positions_ready m x y vx vy n ->
   parallel_safe (update_positions_baseline_body fadd x y vx vy)
                 (counter_exit 0 n 1) (omp_iterations 0 n 1) m)
  /\ (aligned x -> aligned y -> aligned vx -> aligned vy ->
      positions_ready m x y vx vy (round_up8 n) -> round_up8 n <= INT_MAX ->
      parallel_safe (update_positions_simd_body fadd x y vx vy)
                    (counter_exit 0 n 8) (omp_iterations 0 n 8) m)
  /\ (0 <= dim <= MAX_DIM -> transpose_ready m src dst dim ->
      parallel_safe (fun ij => transpose_assign src dst dim ij.1 ij.2)
                    (counter_exit 0 dim 1)
                    (collapse2 (omp_iterations 0 dim 1) (omp_iterations 0 dim 1)) m
      /\ parallel_safe (fun ij => transpose_tile src dst dim ij.1 ij.2)
                       (counter_exit 0 dim block)
                       (collapse2 (omp_iterations 0 dim block) (omp_iterations 0 dim block))
                       m).
Proof.
  split; [|split].
  - apply update_positions_baseline_parallel_safe.
  - apply update_positions_simd_parallel_safe.
  - intros Hdim Htr. split.
    + by apply matrix_transpose_baseline_parallel_safe.
    + by apply matrix_transpose_cache_optimized_parallel_safe.
Qed.

Lemma positions_post_frame m x y vx vy n p k :
  positions_ready m x y vx vy n -> (p = vx \/ p = vy) -> 0 <= k < n ->
  positions_post fadd m x y vx vy n (p + k) = m !! (p + k).
Proof.
  intros Hready Hp Hk.
  apply positions_ready_spec in Hready as (_ & D1 & D2 & D3 & D4 & D5).
  unfold positions_post. rewrite !decide_False by lia. done.
Qed.

Lemma transpose_post_frame m src dst n k :
  transpose_ready m src dst n -> 0 <= k < n * n ->
  transpose_post m src dst n (src + k) = m !! (src + k).
Proof.
  intros (_ & _ & Hd) Hk. apply disjoint_spec in Hd.
  unfold transpose_post. by rewrite decide_False by lia.
Qed.

(** C10.  Every kernel returns on its valid inputs with its input buffers
    unchanged: the baseline updater, on arrays of [n] floats of any
    alignment, leaves every cell of [vx] and [vy] as it was; the vector
    updater does so on aligned arrays that hold its groups, their count an
    [int]; both transposers, on valid matrices, leave every cell of [src]
    as it was. *)
Theorem kernels_preserve_inputs m x y vx vy n src dst dim :
  (positions_ready m x y vx vy n ->
   exists m', run (update_positions_baseline fadd x y vx vy n) m = Ok m'
     /\ forall k, 0 <= k < n ->
          m' !! (vx + k) = m !! (vx + k) /\ m' !! (vy + k) = m !! (vy + k))
  /\ (aligned x -> aligned y -> aligned vx -> aligned vy ->
      positions_ready m x y vx vy (round_up8 n) -> round_up8 n <= INT_MAX ->
      exists m', run (update_positions_simd fadd x y vx vy n) m = Ok m'
        /\ forall k, 0 <= k < round_up8 n ->
             m' !! (vx + k) = m !! (vx + k) /\ m' !! (vy + k) = m !! (vy + k))
  /\ (0 <= dim <= MAX_DIM -> transpose_ready m src dst dim ->
      (exists m', run (matrix_transpose_baseline src dst dim) m = Ok m'
         /\ forall k, 0 <= k < dim * dim -> m' !! (src + k) = m !! (src + k))
      /\ (exists m', run (matrix_transpose_cache_optimized src dst dim) m = Ok m'
            /\ forall k, 0 <= k < dim * dim -> m' !! (src + k) = m !! (src + k))).
Proof.
  split; [|split].
  - intros Hpos.
    destruct (update_positions_baseline_post fadd m x y vx vy n Hpos) as (m1 & E1 & P1).
    exists m1. split; [by apply run_exec|]. intros k Hk.
    rewrite !P1, !positions_post_frame by (done || tauto). done.
  - intros Ax Ay Avx Avy Hpos Hfit.
    destruct (update_positions_simd_post_padded fadd m x y vx vy n Ax Ay Avx Avy Hpos Hfit)
      as (m2 & E2 & P2).
    exists m2. split; [by apply run_exec|]. intros k Hk.
    rewrite !P2, !positions_post_frame by (done || tauto). done.
  - intros Hdim Htr.
    destruct (matrix_transpose_baseline_post m src dst dim Hdim Htr) as (m3 & E3 & P3).
    destruct (matrix_transpose_cache_optimized_post m src dst dim Hdim Htr)
      as (m4 & E4 & P4).
    split.
    + exists m3. split; [by apply run_exec|]. intros k Hk.
      by rewrite P3, transpose_post_frame.
    + exists m4. split; [by apply run_exec|]. intros k Hk.
      by rewrite P4, transpose_post_frame.
Qed.

(** Whatever [n >= 0] is, the vector loop over [n] floats does what the
    baseline loop does over [round_up8 n] floats, as long as that count is
    an [int]. *)
Theorem update_positions_simd_rounds_up m x y vx vy n :
  0 <= n -> aligned x -> aligned y -> aligned vx -> aligned vy ->
  positions_ready m x y vx vy (round_up8 n) -> round_up8 n <= INT_MAX ->
  exists m', run (update_positions_simd fadd x y vx vy n) m = Ok m'
    /\ run (update_positions_baseline fadd x y vx vy (round_up8 n)) m = Ok m'.
Proof.
  intros Hn Ax Ay Avx Avy Hpos Hfit.
  destruct (update_positions_baseline_post fadd m x y vx vy _ Hpos) as (m1 & E1 & P1).
  destruct (update_positions_simd_post_padded fadd m x y vx vy n Ax Ay Avx Avy Hpos Hfit)
    as (m2 & E2 & P2).
  assert (m2 = m1) as -> by (apply map_eq; intros a; by rewrite P1, P2).
  exists m1. split; by apply run_exec.
Qed.

(** The counter of the vector loop is an [int]: for [n] above
    [INT_MAX - 7] the groups run and the last [i += 8] overflows. *)
Theorem update_positions_simd_counter_overflows m x y vx vy n :
  INT_MAX - 7 < n <= INT_MAX ->
  aligned x -> aligned y -> aligned vx -> aligned vy ->
  positions_ready m x y vx vy (round_up8 n) ->
  run (update_positions_simd fadd x y vx vy n) m = Undefined SignedOverflow.
Proof.
  intros Hn Ax Ay Avx Avy Hpos.
  destruct (update_positions_simd_schedule_padded fadd m x y vx vy n (omp_iterations 0 n 8)
              Ax Ay Avx Avy Hpos (Permutation_refl _)) as (m' & Hex & _).
  unfold run, update_positions_simd. rewrite exec_bind, Hex.
  rewrite exec_counter_overflow; [done| |].
  - unfold INT_MIN, INT_MAX in *. lia.
  - rewrite counter_end_spec by lia. unfold INT_MAX in *. zlia.
Qed.

End ParallelLoops.

Lemma workspace20_ready :
  aligned 0 /\ aligned 24 /\ aligned 48 /\ aligned 72
  /\ positions_ready workspace20 0 24 48 72 20
  /\ positions_ready workspace20 0 24 48 72 (round_up8 20)
  /\ round_up8 20 <= INT_MAX
  /\ 0 <= 20 <= MAX_DIM /\ transpose_ready workspace20 96 496 20.
Proof.
  change (round_up8 20) with 24. unfold workspace20, MAX_DIM, INT_MAX, aligned.
  split; [reflexivity|]. split; [reflexivity|].
  split; [reflexivity|]. split; [reflexivity|].
  split.
  { split; [apply zeroed_allocated; lia|]. split; [apply zeroed_allocated; lia|].
    split; [apply zeroed_allocated; lia|]. split; [apply zeroed_allocated; lia|].
    split; [apply disjoint_spec; lia|]. split; [apply disjoint_spec; lia|].
    split; [apply disjoint_spec; lia|]. split; [apply disjoint_spec; lia|].
    apply disjoint_spec; lia. }
  split.
  { split; [apply zeroed_allocated; lia|]. split; [apply zeroed_allocated; lia|].
    split; [apply zeroed_allocated; lia|]. split; [apply zeroed_allocated; lia|].
    split; [apply disjoint_spec; lia|]. split; [apply disjoint_spec; lia|].
    split; [apply disjoint_spec; lia|]. split; [apply disjoint_spec; lia|].
    apply disjoint_spec; lia. }
  split; [lia|]. split; [lia|].
  split; [apply zeroed_allocated; lia|]. split; [apply zeroed_allocated; lia|].
  apply disjoint_spec; lia.
Defined.

Lemma parallel_loops_order_independent_witness :
  parallel_safe (update_positions_baseline_body f32_add 0 24 48 72)
                (counter_exit 0 20 1) (omp_iterations 0 20 1) workspace20
  /\ parallel_safe (update_positions_simd_body f32_add 0 24 48 72)
                   (counter_exit 0 20 8) (omp_iterations 0 20 8) workspace20
  /\ parallel_safe (fun ij => transpose_assign 96 496 20 ij.1 ij.2)
                   (counter_exit 0 20 1)
                   (collapse2 (omp_iterations 0 20 1) (omp_iterations 0 20 1)) workspace20
  /\ parallel_safe (fun ij => transpose_tile 96 496 20 ij.1 ij.2)
                   (counter_exit 0 20 block)
                   (collapse2 (omp_iterations 0 20 block) (omp_iterations 0 20 block))
                   workspace20.
Proof.
  pose proof workspace20_ready as (A0 & A1 & A2 & A3 & Hp & Hp8 & Hfit & Hd & Ht).
  destruct (parallel_loops_order_independent f32_add workspace20 0 24 48 72 20 96 496 20)
    as (Hb & Hs & Htr).
  split; [exact (Hb Hp)|]. split; [exact (Hs A0 A1 A2 A3 Hp8 Hfit)|].
  exact (Htr Hd Ht).
Defined.

Lemma kernels_preserve_inputs_witness :
  (exists m', run (update_positions_baseline f32_add 0 24 48 72 20) workspace20 = Ok m'
     /\ forall k, 0 <= k < 20 ->
          m' !! (48 + k) = workspace20 !! (48 + k)
          /\ m' !! (72 + k) = workspace20 !! (72 + k))
  /\ (exists m', run (update_positions_simd f32_add 0 24 48 72 20) workspace20 = Ok m'
        /\ forall k, 0 <= k < round_up8 20 ->
             m' !! (48 + k) = workspace20 !! (48 + k)
             /\ m' !! (72 + k) = workspace20 !! (72 + k))
  /\ (exists m', run (matrix_transpose_baseline 96 496 20) workspace20 = Ok m'
        /\ forall k, 0 <= k < 20 * 20 -> m' !! (96 + k) = workspace20 !! (96 + k))
  /\ (exists m', run (matrix_transpose_cache_optimized 96 496 20) workspace20 = Ok m'
        /\ forall k, 0 <= k < 20 * 20 -> m' !! (96 + k) = workspace20 !! (96 + k)).
Proof.
  pose proof workspace20_ready as (A0 & A1 & A2 & A3 & Hp & Hp8 & Hfit & Hd & Ht).
  destruct (kernels_preserve_inputs f32_add workspace20 0 24 48 72 20 96 496 20)
    as (Hb & Hs & Htr).
  split; [exact (Hb Hp)|]. split; [exact (Hs A0 A1 A2 A3 Hp8 Hfit)|].
  exact (Htr Hd Ht).
Defined.

Lemma update_positions_simd_rounds_up_witness :
  (0 <= 20 /\ aligned 0 /\ aligned 24 /\ aligned 48 /\ aligned 72
   /\ positions_ready workspace20 0 24 48 72 (round_up8 20) /\ round_up8 20 <= INT_MAX)
  /\ exists m', run (update_positions_simd f32_add 0 24 48 72 20) workspace20 = Ok m'
       /\ run (update_positions_baseline f32_add 0 24 48 72 (round_up8 20)) workspace20
          = Ok m'.
Proof.
  pose proof workspace20_ready as (A0 & A1 & A2 & A3 & _ & Hp8 & Hfit & _).
  assert (0 <= 20) as Hn by lia.
  split; [done|].
  exact (update_positions_simd_rounds_up f32_add workspace20 0 24 48 72 20
           Hn A0 A1 A2 A3 Hp8 Hfit).
Defined.

Lemma huge_arrays_ready :
  positions_ready (zeroed 0 8589934592) 0 2147483648 4294967296 6442450944
    (round_up8 INT_MAX).
Proof.
  change (round_up8 INT_MAX) with 2147483648.
  split; [apply zeroed_allocated; lia|]. split; [apply zeroed_allocated; lia|].
  split; [apply zeroed_allocated; lia|]. split; [apply zeroed_allocated; lia|].
  split; [apply disjoint_spec; lia|]. split; [apply disjoint_spec; lia|].
  split; [apply disjoint_spec; lia|]. split; [apply disjoint_spec; lia|].
  apply disjoint_spec; lia.
Defined.

Lemma update_positions_simd_counter_overflows_witness :
  (INT_MAX - 7 < INT_MAX <= INT_MAX
   /\ aligned 0 /\ aligned 2147483648 /\ aligned 4294967296 /\ aligned 6442450944
   /\ positions_ready (zeroed 0 8589934592) 0 2147483648 4294967296 6442450944
        (round_up8 INT_MAX))
  /\ run (update_positions_simd f32_add 0 2147483648 4294967296 6442450944 INT_MAX)
         (zeroed 0 8589934592) = Undefined SignedOverflow.
Proof.
  assert (INT_MAX - 7 < INT_MAX <= INT_MAX) as Hn by (unfold INT_MAX; lia).
  assert (aligned 0 /\ aligned 2147483648 /\ aligned 4294967296 /\ aligned 6442450944)
    as (A0 & A1 & A2 & A3) by (repeat split; reflexivity).
  split.
  - split; [exact Hn|]. split; [exact A0|]. split; [exact A1|]. split; [exact A2|].
    split; [exact A3 | exact huge_arrays_ready].
  - exact (update_positions_simd_counter_overflows f32_add (zeroed 0 8589934592)
             0 2147483648 4294967296 6442450944 INT_MAX Hn A0 A1 A2 A3 huge_arrays_ready).
Defined.

(** ** Population counter *)

Lemma popcnt_fold_zero k s acc :
  fold_left (popcnt_step 0) (seqZ s (Z.of_nat k)) acc = acc.
Proof.
  revert s acc. induction k as [|k IH]; intros s acc; [done|].
  rewrite seqZ_cons by lia. simpl fold_left. unfold popcnt_step at 2.
  rewrite Z.bits_0. replace (Z.pred (Z.of_nat (S k))) with (Z.of_nat k) by lia.
  apply IH.
Qed.

Lemma popcnt_fold_shift v k s acc :
  0 <= s ->
  fold_left (popcnt_step v) (seqZ (Z.succ s) (Z.of_nat k)) acc
  = fold_left (popcnt_step (Z.div2 v)) (seqZ s (Z.of_nat k)) acc.
Proof.
  revert s acc. induction k as [|k IH]; intros s acc Hs; [done|].
  rewrite (seqZ_cons (Z.succ s)), (seqZ_cons s) by lia. simpl fold_left.
  replace (Z.pred (Z.of_nat (S k))) with (Z.of_nat k) by lia.
  rewrite IH by lia. f_equal. unfold popcnt_step.
  by rewrite Z.div2_spec, Z.shiftr_spec, Z.add_1_r by lia.
Qed.

(** The counting loop over [k] bits counts the bits of a [k]-bit number. *)
Lemma popcnt_fold_pos p k acc :
  Z.pos p < 2 ^ Z.of_nat k ->
  fold_left (popcnt_step (Z.pos p)) (seqZ 0 (Z.of_nat k)) acc = acc + pos_popcount p.
Proof.
  revert p acc. induction k as [|k IH]; intros p acc Hp.
  - simpl in Hp. lia.
  - rewrite Nat2Z.inj_succ, Z.pow_succ_r in Hp by lia.
    rewrite seqZ_cons by lia. simpl fold_left.
    replace (Z.pred (Z.of_nat (S k))) with (Z.of_nat k) by lia.
    rewrite popcnt_fold_shift by lia.
    destruct p as [q|q|]; unfold popcnt_step at 2; simpl Z.testbit; simpl Z.div2.
    + rewrite IH by lia. simpl pos_popcount. lia.
    + rewrite IH by lia. done.
    + by rewrite popcnt_fold_zero.
Qed.

Lemma pos_popcount_bound p k :
  Z.pos p < 2 ^ Z.of_nat k -> 1 <= pos_popcount p <= Z.of_nat k.
Proof.
  revert p. induction k as [|k IH]; intros p Hp.
  - simpl in Hp. lia.
  - rewrite Nat2Z.inj_succ, Z.pow_succ_r in Hp by lia.
    destruct p as [q|q|]; simpl pos_popcount.
    + specialize (IH q). lia.
    + specialize (IH q). lia.
    + lia.
Qed.

(** The 64-bit form of [popcnt] counts what the builtin counts. *)
Lemma popcnt_bits_builtin v :
  0 <= v < 2 ^ 64 ->
  popcnt_bits 64 v = builtin_popcountll v /\ 0 <= builtin_popcountll v <= 64.
Proof.
  intros Hv. unfold popcnt_bits, builtin_popcountll.
  rewrite Z.mod_small by done.
  destruct v as [|p|p]; [| |lia].
  - split; [|lia]. apply (popcnt_fold_zero 64 0 0).
  - change 64 with (Z.of_nat 64) in Hv |- *.
    rewrite (popcnt_fold_pos p 64 0 (proj2 Hv)).
    pose proof (pos_popcount_bound p 64 (proj2 Hv)). lia.
Qed.

(** C4 (defect of the code).  For every 64-bit unsigned [v] the builtin
    path of [count_set_bits] returns a count between 0 and 64, but the
    [popcnt] path does not build: the instruction is given a 32-bit
    destination, [int count], for its 64-bit source, [uint64_t n], and the
    assembler refuses the pair.  With a 64-bit destination the instruction
    would be accepted and return the count of the builtin. *)
Theorem count_set_bits_asm_rejected v :
  0 <= v < 2 ^ 64 ->
  count_set_bits true v = Rejected OperandSizeMismatch
  /\ exists c, count_set_bits false v = Built c /\ 0 <= c <= 64
       /\ popcnt c_uint64_t c_uint64_t v = Built c.
Proof.
  intros Hv. split; [reflexivity|].
  destruct (popcnt_bits_builtin v Hv) as [Heq Hrange].
  exists (builtin_popcountll v). split; [reflexivity|]. split; [exact Hrange|].
  unfold popcnt. cbn [register_bits Z.eqb Pos.eqb]. by rewrite Heq.
Qed.

Lemma count_set_bits_asm_rejected_witness :
  0 <= 0xFFFFFFFFFFFFFFFF < 2 ^ 64
  /\ count_set_bits true 0xFFFFFFFFFFFFFFFF = Rejected OperandSizeMismatch
  /\ exists c, count_set_bits false 0xFFFFFFFFFFFFFFFF = Built c /\ 0 <= c <= 64
       /\ popcnt c_uint64_t c_uint64_t 0xFFFFFFFFFFFFFFFF = Built c.
Proof.
  assert (0 <= 0xFFFFFFFFFFFFFFFF < 2 ^ 64) as H by (split; [lia | reflexivity]).
  split; [exact H|]. exact (count_set_bits_asm_rejected 0xFFFFFFFFFFFFFFFF H).
Defined.

(** [test_bit_counting] (main.cpp:72-85): in the default build it prints
    the counts 0, 64, 32, 32, 32 for its five test values; with
    [USE_X86_ASM] defined there is no [count_set_bits] to call. *)
Theorem test_bit_counting_prints :
  test_bit_counting false = Built [0; 64; 32; 32; 32]
  /\ test_bit_counting true = Rejected OperandSizeMismatch.
Proof. split; reflexivity. Qed.

(** ** Block memory copier *)

Section CopierFacts.
Context {byte : Type}.
Implicit Types m : gmap Z byte.

Lemma rep_movsb_exec rcx rdi rsi m :
  (forall k, 0 <= k < Z.of_nat rcx -> is_Some (m !! (rsi + k))) ->
  (forall k, 0 <= k < Z.of_nat rcx -> is_Some (m !! (rdi + k))) ->
  (rdi + Z.of_nat rcx <= rsi \/ rsi + Z.of_nat rcx <= rdi) ->
  exists m', exec (rep_movsb rcx rdi rsi) m = Ok (tt, m')
    /\ (forall k, 0 <= k < Z.of_nat rcx -> m' !! (rdi + k) = m !! (rsi + k))
    /\ (forall a, ~ (rdi <= a < rdi + Z.of_nat rcx) -> m' !! a = m !! a).
Proof.
  revert rdi rsi m. induction rcx as [|rcx IH]; intros rdi rsi m Hsrc Hdst Hdisj.
  - exists m. split; [done|]. split; [intros k Hk; lia | done].
  - destruct (Hsrc 0) as [b Hb]; [lia|].
    destruct (IH (rdi + 1) (rsi + 1) (<[rdi + 0 := b]> m)) as (m' & Hex & Hcopy & Hkeep).
    { intros k Hk. rewrite lookup_insert_ne by lia.
      replace (rsi + 1 + k) with (rsi + (1 + k)) by lia. apply Hsrc. lia. }
    { intros k Hk. rewrite lookup_insert_ne by lia.
      replace (rdi + 1 + k) with (rdi + (1 + k)) by lia. apply Hdst. lia. }
    { lia. }
    exists m'. cbn [rep_movsb].
    rewrite exec_bind, (exec_load _ _ _ _ Hb), exec_bind, exec_store by (apply Hdst; lia).
    split; [exact Hex|]. split.
    + intros k Hk. destruct (decide (k = 0)) as [->|Hne].
      * rewrite Hkeep by lia. by rewrite lookup_insert_eq.
      * replace (rdi + k) with (rdi + 1 + (k - 1)) by lia.
        rewrite Hcopy by lia. rewrite lookup_insert_ne by lia. f_equal. lia.
    + intros a Ha. rewrite Hkeep by lia. apply lookup_insert_ne. lia.
Qed.

Lemma memcpy_exec dst src n m :
  (forall k, 0 <= k < n -> is_Some (m !! (src + k))) ->
  (forall k, 0 <= k < n -> is_Some (m !! (dst + k))) ->
  (dst + n <= src \/ src + n <= dst) ->
  exists m', exec (memcpy dst src n) m = Ok (tt, m')
    /\ (forall k, 0 <= k < n -> m' !! (dst + k) = m !! (src + k))
    /\ (forall a, ~ (dst <= a < dst + n) -> m' !! a = m !! a).
Proof.
  intros Hsrc Hdst Hdisj. unfold memcpy.
  assert (regions_overlap dst src n = false) as ->.
  { unfold regions_overlap. destruct (0 <? n) eqn:E0; [|done].
    destruct (dst <? src + n) eqn:E1; [|done].
    destruct (src <? dst + n) eqn:E2; [|done].
    apply Z.ltb_lt in E0, E1, E2. lia. }
  destruct (exec_load_seq src (seqZ 0 n) m) as (bs & Hld & Hlen & Hbs).
  { intros k Hk. apply elem_of_seqZ in Hk. apply Hsrc. lia. }
  destruct (exec_store_seq dst (seqZ 0 n) bs m) as (m' & Hst & Hset & Hkeep).
  { done. } { apply NoDup_seqZ. }
  { intros k Hk. apply elem_of_seqZ in Hk. apply Hdst. lia. }
  exists m'. rewrite exec_bind, Hld. split; [exact Hst|]. split.
  - intros k Hk.
    assert (seqZ 0 n !! Z.to_nat k = Some k) as Hlook by (apply lookup_seqZ; lia).
    by rewrite (Hset _ _ Hlook), (Hbs _ _ Hlook).
  - intros a Ha. apply Hkeep. intros k Hk. apply elem_of_seqZ in Hk. lia.
Qed.

(** C6.  For every [n >= 0] and two buffers of [n] bytes that share no
    cell, on either path [custom_memcpy] returns with [dst[0..n)] equal to
    [src[0..n)] and every cell outside [dst[0..n)], those of [src] among
    them, unchanged; for [n = 0] the memory is unchanged. *)
Theorem custom_memcpy_correct (target : arch) m dst src n :
  0 <= n -> allocated m src n -> allocated m dst n -> disjoint dst src n ->
  exists m', run (custom_memcpy target dst src n) m = Ok m'
    /\ (forall k, 0 <= k < n -> m' !! (dst + k) = m !! (src + k))
    /\ (forall k, 0 <= k < n -> m' !! (src + k) = m !! (src + k))
    /\ (forall a, ~ (dst <= a < dst + n) -> m' !! a = m !! a)
    /\ (n = 0 -> m' = m).
Proof.
  intros Hn Hsrc Hdst Hdisj.
  rewrite allocated_spec in Hsrc, Hdst. apply disjoint_spec in Hdisj.
  assert (exists m', exec (custom_memcpy target dst src n) m = Ok (tt, m')
            /\ (forall k, 0 <= k < n -> m' !! (dst + k) = m !! (src + k))
            /\ (forall a, ~ (dst <= a < dst + n) -> m' !! a = m !! a))
    as (m' & Hex & Hcopy & Hkeep).
  { destruct target; cbn [custom_memcpy]; try by apply memcpy_exec.
    destruct (rep_movsb_exec (Z.to_nat n) dst src m) as (m' & Hex & Hcopy & Hkeep);
      rewrite ?Z2Nat.id by lia; try done.
    exists m'. by rewrite Z2Nat.id in Hcopy, Hkeep by lia. }
  exists m'. split; [by apply run_exec|]. split; [exact Hcopy|].
  split; [|split; [exact Hkeep|]].
  - intros k Hk. apply Hkeep. lia.
  - intros ->. apply map_eq. intros a. apply Hkeep. lia.
Qed.

End CopierFacts.

Lemma custom_memcpy_correct_witness :
  (0 <= 5 /\ allocated bytes5 0 5 /\ allocated bytes5 16 5 /\ disjoint 16 0 5)
  /\ exists m', run (custom_memcpy x86_64 16 0 5) bytes5 = Ok m'
       /\ (forall k, 0 <= k < 5 -> m' !! (16 + k) = bytes5 !! (0 + k))
       /\ (forall k, 0 <= k < 5 -> m' !! (0 + k) = bytes5 !! (0 + k))
       /\ (forall a, ~ (16 <= a < 16 + 5) -> m' !! a = bytes5 !! a)
       /\ (5 = 0 -> m' = bytes5).
Proof.
  assert (0 <= 5) as H0 by lia.
  assert (allocated bytes5 0 5) as H1 by (by vm_compute).
  assert (allocated bytes5 16 5) as H2 by (by vm_compute).
  assert (disjoint 16 0 5) as H3 by (by vm_compute).
  split; [done|]. exact (custom_memcpy_correct x86_64 bytes5 16 0 5 H0 H1 H2 H3).
Defined.

(** Both paths copy "hello". *)
Example custom_memcpy_hello :
  exists m',
    run (custom_memcpy x86_64 16 0 5) bytes5 = Ok m'
    /\ run (custom_memcpy aarch64 16 0 5) bytes5 = Ok m'
    /\ read_cells m' 16 5 = read_cells bytes5 0 5.
Proof. eexists. repeat split; vm_compute; reflexivity. Qed.

(** ** Fallbacks *)




(** The scenario of the specification: a 4 x 4 matrix with
    [src[i * 4 + j] = i * 4 + j] is transposed alike by both transposers. *)
Example matrix_transpose_scenario :
  exists m',
    run (matrix_transpose_baseline 0 16 4) matrices4 = Ok m'
    /\ run (matrix_transpose_cache_optimized 0 16 4) matrices4 = Ok m'
    /\ read_cells m' 16 16
       = Some <$> (f32_of_Z <$> [0; 4; 8; 12; 1; 5; 9; 13; 2; 6; 10; 14; 3; 7; 11; 15]).
Proof. eexists. repeat split; vm_compute; reflexivity. Qed.

Lemma update_positions_simd_out_of_bounds_witness :
  (0 <= 1 /\ 1 mod 8 <> 0 /\ aligned 0 /\ aligned 8 /\ aligned 16 /\ aligned 24
   /\ positions_ready particles1 0 8 16 24 1 /\ particles1 !! (0 + 1) = None)
  /\ run (update_positions_simd f32_add 0 8 16 24 1) particles1
     = Undefined (OutOfBounds 0 1).
Proof.
  assert (0 <= 1) as H0 by lia.
  assert (1 mod 8 <> 0) as H1 by (by vm_compute).
  assert (aligned 0 /\ aligned 8 /\ aligned 16 /\ aligned 24) as (A0 & A1 & A2 & A3)
    by (repeat split; reflexivity).
  assert (positions_ready particles1 0 8 16 24 1) as H2 by (repeat split; by vm_compute).
  assert (particles1 !! (0 + 1) = None) as H3 by (by vm_compute).
  split; [done|].
  exact (update_positions_simd_out_of_bounds f32_add particles1 0 8 16 24 1
           H0 H1 A0 A1 A2 A3 H2 H3).
Defined.

Lemma matrix_transpose_baseline_undefined_beyond_witness :
  MAX_DIM < BIG_DIM
  /\ exists e, run (matrix_transpose_baseline 0 0 BIG_DIM) (∅ : gmap Z f32) = Undefined e.
Proof.
  assert (MAX_DIM < BIG_DIM) as H by reflexivity.
  split; [exact H|]. exact (matrix_transpose_baseline_undefined_beyond ∅ 0 0 BIG_DIM H).
Defined.

(** ** Sequential counted loops *)

Section CountedLoops.
Context {V : Type}.
Implicit Types m : gmap Z V.

Lemma exec_counted_loop_from fuel n i (body : Z -> prog V unit) m :
  0 <= i -> n <= INT_MAX -> Z.max 0 (n - i) < Z.of_nat fuel ->
  exec (c_for fuel (fun i => Ret (i <? n)) (fun i => int_add i 1) body i) m
  = exec (for_each (seqZ i (n - i)) body) m.
Proof.
  intros Hi Hn. revert i m Hi. induction fuel as [|fuel IH]; intros i m Hi Hfuel; [lia|].
  cbn [c_for bind]. destruct (i <? n) eqn:E.
  - apply Z.ltb_lt in E. rewrite seqZ_cons by lia.
    rewrite exec_bind, exec_for_each_cons.
    destruct (exec (body i) m) as [[[] m1]|]; [|done].
    unfold int_add at 1. rewrite exec_bind, exec_int_ok by (unfold INT_MIN; lia).
    rewrite IH by lia.
    replace (Z.succ i) with (i + 1) by lia.
    by replace (Z.pred (n - i)) with (n - (i + 1)) by lia.
  - apply Z.ltb_ge in E. rewrite seqZ_nil by lia. done.
Qed.

(** A counted loop runs its body for [i = 0, ..., n - 1], in this order. *)
Lemma exec_counted_loop n (body : Z -> prog V unit) m :
  n <= INT_MAX ->
  exec (counted_loop n body) m = exec (for_each (seqZ 0 n) body) m.
Proof.
  intros Hn. unfold counted_loop.
  rewrite exec_counted_loop_from by lia. by rewrite Z.sub_0_r.
Qed.

End CountedLoops.

Section InitializeArrays.
Context {float : Type}.
Implicit Types m : gmap Z float.

Lemma initialize_arrays_exec dis m arr n (lo hi : float) :
  n <= INT_MAX -> allocated m arr n ->
  exists m', exec (initialize_arrays dis arr n lo hi) m = Ok (tt, m')
    /\ (forall i, 0 <= i < n -> m' !! (arr + i) = Some (dis lo hi i))
    /\ (forall a, ~ (arr <= a < arr + n) -> m' !! a = m !! a).
Proof.
  intros Hn Hal. rewrite allocated_spec in Hal.
  unfold initialize_arrays. rewrite exec_counted_loop by done.
  destruct (independent_loop (fun i => store arr i (dis lo hi i)) m
              (fun i a => a = arr + i)
              (fun a => Some (dis lo hi (a - arr))) (seqZ 0 n))
    as (m' & Hex & Hset & Hkeep).
  - apply NoDup_seqZ.
  - intros i j a _ _ -> H. lia.
  - intros i m1 Hi Hagree. apply elem_of_seqZ in Hi.
    exists (<[arr + i := dis lo hi i]> m1). split; [|split].
    + apply exec_store. rewrite Hagree; [apply Hal; lia|].
      intros j _ Hne. lia.
    + intros a ->. rewrite lookup_insert_eq. do 2 f_equal. lia.
    + intros a Ha. by rewrite lookup_insert_ne.
  - exists m'. split; [exact Hex|]. split.
    + intros i Hi. rewrite (Hset i); [do 2 f_equal; lia| |done].
      apply elem_of_seqZ. lia.
    + intros a Ha. apply Hkeep. intros i Hi. apply elem_of_seqZ in Hi. lia.
Qed.

(** [initialize_arrays] writes the draws of its generator to [arr[0..n)],
    in order, and leaves every other cell alone. *)
Theorem initialize_arrays_fills dis m arr n (lo hi : float) :
  n <= INT_MAX -> allocated m arr n ->
  exists m', run (initialize_arrays dis arr n lo hi) m = Ok m'
    /\ (forall i, 0 <= i < n -> m' !! (arr + i) = Some (dis lo hi i))
    /\ (forall a, ~ (arr <= a < arr + n) -> m' !! a = m !! a).
Proof.
  intros Hn Hal.
  destruct (initialize_arrays_exec dis m arr n lo hi Hn Hal) as (m' & Hex & H).
  exists m'. split; [by apply run_exec | exact H].
Qed.

(** On a buffer of [k < n] floats, [initialize_arrays] fills the buffer and
    then writes [arr[k]], past its end. *)
Theorem initialize_arrays_out_of_bounds dis m arr n k (lo hi : float) :
  0 <= k < n -> n <= INT_MAX -> allocated m arr k -> m !! (arr + k) = None ->
  run (initialize_arrays dis arr n lo hi) m = Undefined (OutOfBounds arr k).
Proof.
  intros Hk Hn Hal Hend. unfold run, initialize_arrays.
  rewrite exec_counted_loop by done.
  replace n with (k + (n - k)) by lia.
  rewrite seqZ_app by lia. rewrite (seqZ_cons (0 + k)) by lia.
  rewrite exec_for_each_app.
  destruct (initialize_arrays_exec dis m arr k lo hi) as (m1 & E1 & _ & Hkeep);
    [lia|done|].
  unfold initialize_arrays in E1. rewrite exec_counted_loop in E1 by lia.
  rewrite E1, exec_for_each_cons. unfold store. cbn [exec].
  rewrite Z.add_0_l, Hkeep by lia. by rewrite Hend.
Qed.

End InitializeArrays.

(** ** More on the position updaters *)

Section PositionsMore.
Context {float : Type} (fadd : float -> float -> float).
Implicit Types m : gmap Z float.

(** The baseline updater adds the velocities to the positions and leaves
    every other cell alone, whatever the alignment of the arrays. *)
Theorem update_positions_baseline_contract m x y vx vy n :
  positions_ready m x y vx vy n ->
  exists m', run (update_positions_baseline fadd x y vx vy n) m = Ok m'
    /\ (forall i, 0 <= i < n ->
          m' !! (x + i) = add_cells fadd m (x + i) (vx + i)
          /\ m' !! (y + i) = add_cells fadd m (y + i) (vy + i))
    /\ (forall a, ~ (x <= a < x + n) -> ~ (y <= a < y + n) -> m' !! a = m !! a).
Proof.
  intros Hready.
  destruct (update_positions_baseline_post fadd m x y vx vy n Hready) as (m' & Hex & Hpost).
  apply positions_ready_spec in Hready as (_ & D1 & _).
  exists m'. split; [by apply run_exec|]. split.
  - intros i Hi. rewrite !Hpost. unfold positions_post.
    rewrite (decide_True (P := x <= x + i < x + n)) by lia.
    rewrite (decide_False (P := x <= y + i < x + n)) by lia.
    rewrite (decide_True (P := y <= y + i < y + n)) by lia.
    split; do 2 f_equal; lia.
  - intros a Hx Hy. rewrite Hpost. unfold positions_post.
    by rewrite !decide_False by done.
Qed.

Lemma omp_iterations_nonpositive n step : n <= 0 -> omp_iterations 0 n step = [].
Proof. intros Hn. unfold omp_iterations. by replace (Z.to_nat (n - 0)) with 0%nat by lia. Qed.

Lemma omp_iterations_first n step :
  0 < n -> exists rest, omp_iterations 0 n step = 0 :: rest.
Proof.
  intros Hn. unfold omp_iterations.
  destruct (Z.to_nat (n - 0)) as [|k] eqn:E; [lia|]. cbn [loop_values].
  destruct (0 <? n) eqn:E0; [by eexists|]. apply Z.ltb_ge in E0. lia.
Qed.

(** With [n <= 0] every loop kernel returns at once: no cell is read or
    written, whatever the pointers are. *)
Theorem kernels_return_at_once m x y vx vy src dst n :
  n <= 0 ->
  run (update_positions_baseline fadd x y vx vy n) m = Ok m
  /\ run (update_positions_simd fadd x y vx vy n) m = Ok m
  /\ run (matrix_transpose_baseline src dst n) m = Ok m
  /\ run (matrix_transpose_cache_optimized src dst n) m = Ok m.
Proof.
  intros Hn.
  assert (forall step, counter_exit (V:=float) 0 n step = Ret tt) as Hexit.
  { intros step. unfold counter_exit, counter_end.
    rewrite omp_iterations_nonpositive by done. cbn [last].
    by rewrite andb_false_r. }
  unfold update_positions_baseline, update_positions_simd,
    matrix_transpose_baseline, matrix_transpose_cache_optimized.
  by rewrite !omp_iterations_nonpositive, !Hexit by done.
Qed.

Lemma mm256_load_ps_misaligned m p i :
  (p + i) mod 8 <> 0 ->
  exec (mm256_load_ps (float:=float) p i) m = Undefined (Misaligned p i).
Proof.
  intros H. unfold mm256_load_ps, aligned32.
  destruct ((p + i) mod 8 =? 0) eqn:E; [|done]. apply Z.eqb_eq in E. done.
Qed.

Lemma mm256_load_ps_aligned m p i :
  (p + i) mod 8 = 0 ->
  (forall k, 0 <= k < 8 -> is_Some (m !! (p + (i + k)))) ->
  exists vs, exec (mm256_load_ps (float:=float) p i) m = Ok (vs, m).
Proof.
  intros Hal Hcells. unfold mm256_load_ps, aligned32. rewrite Hal. cbn [Z.eqb].
  destruct (exec_load_seq p (lanes i) m) as (vs & Hex & _).
  - intros k Hk. apply lanes_elem in Hk.
    replace k with (i + (k - i)) by lia. apply Hcells. lia.
  - by exists vs.
Qed.

Lemma update_positions_simd_body_misaligned m x y vx vy p :
  (forall k, 0 <= k < 8 ->
     is_Some (m !! (x + k)) /\ is_Some (m !! (y + k)) /\
     is_Some (m !! (vx + k)) /\ is_Some (m !! (vy + k))) ->
  first_misaligned [x; y; vx; vy] = Some p ->
  exec (update_positions_simd_body fadd x y vx vy 0) m = Undefined (Misaligned p 0).
Proof.
  intros Hcells Hfirst.
  assert (forall q, (q = x \/ q = y \/ q = vx \/ q = vy) ->
            forall k, 0 <= k < 8 -> is_Some (m !! (q + (0 + k)))) as Hq.
  { intros q Hq k Hk. rewrite Z.add_0_l. destruct (Hcells k Hk) as (H1 & H2 & H3 & H4).
    destruct Hq as [->|[->|[->| ->]]]; assumption. }
  assert (forall q, aligned32 q 0 = true -> (q + 0) mod 8 = 0) as Hal
    by (intros q H; unfold aligned32 in H; by apply Z.eqb_eq in H).
  assert (forall q, aligned32 q 0 = false -> (q + 0) mod 8 <> 0) as Hmis
    by (intros q H; unfold aligned32 in H; by apply Z.eqb_neq in H).
  unfold first_misaligned in Hfirst. cbn [List.filter] in Hfirst.
  unfold update_positions_simd_body. rewrite exec_bind.
  destruct (aligned32 x 0) eqn:Ex; cbn [negb] in Hfirst;
    [|injection Hfirst as <-; by rewrite mm256_load_ps_misaligned by auto].
  destruct (mm256_load_ps_aligned m x 0) as [px ->]; [auto|apply Hq; tauto|].
  rewrite exec_bind.
  destruct (aligned32 y 0) eqn:Ey; cbn [negb] in Hfirst;
    [|injection Hfirst as <-; by rewrite mm256_load_ps_misaligned by auto].
  destruct (mm256_load_ps_aligned m y 0) as [py ->]; [auto|apply Hq; tauto|].
  rewrite exec_bind.
  destruct (aligned32 vx 0) eqn:Evx; cbn [negb] in Hfirst;
    [|injection Hfirst as <-; by rewrite mm256_load_ps_misaligned by auto].
  destruct (mm256_load_ps_aligned m vx 0) as [pvx ->]; [auto|apply Hq; tauto|].
  rewrite exec_bind.
  destruct (aligned32 vy 0) eqn:Evy; cbn [negb] in Hfirst;
    [|injection Hfirst as <-; by rewrite mm256_load_ps_misaligned by auto].
  discriminate Hfirst.
Qed.

(** The vector updater needs 32-byte aligned arrays.  With [n > 0] and
    arrays that hold a first group, the call is undefined as soon as one
    array is misaligned: the fault is the aligned load of the first
    misaligned array, in the order [x], [y], [vx], [vy] of the loads. *)
Theorem update_positions_simd_misaligned m x y vx vy n p :
  0 < n ->
  (forall k, 0 <= k < 8 ->
     is_Some (m !! (x + k)) /\ is_Some (m !! (y + k)) /\
     is_Some (m !! (vx + k)) /\ is_Some (m !! (vy + k))) ->
  first_misaligned [x; y; vx; vy] = Some p ->
  run (update_positions_simd fadd x y vx vy n) m = Undefined (Misaligned p 0).
Proof.
  intros Hn Hcells Hfirst.
  destruct (omp_iterations_first n 8 Hn) as [rest Hit].
  unfold run, update_positions_simd, omp_parallel_for.
  rewrite exec_bind, Hit, exec_for_each_cons.
  by rewrite (update_positions_simd_body_misaligned m x y vx vy p Hcells Hfirst).
Qed.

End PositionsMore.

(** ** What the position updaters touch *)

Section PositionsTouched.
Context {float : Type} (fadd : float -> float -> float).
Implicit Types rho : Z -> Z -> float.

Lemma store_seq_accesses_elem rho p idxs (vs : list float) e :
  e ∈ accesses rho (store_seq p idxs vs) -> exists k, k ∈ idxs /\ e = Wr p k.
Proof.
  revert vs. induction idxs as [|i idxs IH]; intros [|v vs]; cbn [store_seq];
    try (simpl; by rewrite elem_of_nil).
  unfold store. simpl. rewrite elem_of_cons. intros [->|H].
  - exists i. split; [by left | done].
  - destruct (IH _ H) as (k & Hk & ->). exists k. split; [by right | done].
Qed.

Lemma mm256_load_ps_accesses_elem rho p i e :
  e ∈ accesses rho (mm256_load_ps (float:=float) p i) ->
  exists k, i <= k < i + 8 /\ e = Rd p k.
Proof.
  unfold mm256_load_ps. destruct (aligned32 p i); [|simpl; by rewrite elem_of_nil].
  destruct (load_seq_accesses rho p (lanes i)) as [_ ->].
  rewrite list_elem_of_fmap. intros (k & -> & Hk). apply lanes_elem in Hk. by exists k.
Qed.

Lemma mm256_store_ps_accesses_elem rho p i (v : list float) e :
  e ∈ accesses rho (mm256_store_ps p i v) ->
  exists k, i <= k < i + 8 /\ e = Wr p k.
Proof.
  unfold mm256_store_ps. destruct (aligned32 p i); [|simpl; by rewrite elem_of_nil].
  intros H. apply store_seq_accesses_elem in H as (k & Hk & ->).
  apply lanes_elem in Hk. by exists k.
Qed.

Lemma update_positions_simd_body_accesses_elem rho x y vx vy i e :
  e ∈ accesses rho (update_positions_simd_body fadd x y vx vy i) ->
  exists k, i <= k < i + 8
    /\ (e = Rd x k \/ e = Rd y k \/ e = Rd vx k \/ e = Rd vy k
        \/ e = Wr x k \/ e = Wr y k).
Proof.
  unfold update_positions_simd_body. intros H.
  apply accesses_bind_elem in H as [H|(px & _ & H)].
  { apply mm256_load_ps_accesses_elem in H as (k & Hk & ->). exists k. tauto. }
  apply accesses_bind_elem in H as [H|(py & _ & H)].
  { apply mm256_load_ps_accesses_elem in H as (k & Hk & ->). exists k. tauto. }
  apply accesses_bind_elem in H as [H|(pvx & _ & H)].
  { apply mm256_load_ps_accesses_elem in H as (k & Hk & ->). exists k. tauto. }
  apply accesses_bind_elem in H as [H|(pvy & _ & H)].
  { apply mm256_load_ps_accesses_elem in H as (k & Hk & ->). exists k. tauto. }
  cbv zeta in H. apply accesses_bind_elem in H as [H|(_ & _ & H)].
  { apply mm256_store_ps_accesses_elem in H as (k & Hk & ->). exists k. tauto. }
  apply mm256_store_ps_accesses_elem in H as (k & Hk & ->). exists k. tauto.
Qed.

(** Whatever [n], the alignment and the values loaded are, the baseline
    updater touches only indices in [0, n) and the vector updater only
    indices in [0, round_up8 n); both read the four arrays and write [x] and
    [y] only. *)
Theorem update_positions_touch rho x y vx vy n e :
  (e ∈ accesses rho (update_positions_baseline fadd x y vx vy n) ->
   exists i, 0 <= i < n
     /\ (e = Rd x i \/ e = Rd y i \/ e = Rd vx i \/ e = Rd vy i
         \/ e = Wr x i \/ e = Wr y i))
  /\ (e ∈ accesses rho (update_positions_simd fadd x y vx vy n) ->
      exists k, 0 <= k < round_up8 n
        /\ (e = Rd x k \/ e = Rd y k \/ e = Rd vx k \/ e = Rd vy k
            \/ e = Wr x k \/ e = Wr y k)).
Proof.
  split; intros H.
  - unfold update_positions_baseline in H. rewrite accesses_then_counter in H.
    apply accesses_for_each_elem in H as (i & Hi & H).
    apply omp_iterations_elem in Hi; [|lia].
    rewrite update_positions_baseline_body_accesses in H.
    exists i. split; [lia|].
    repeat (apply elem_of_cons in H as [->|H]; [tauto|]).
    by apply elem_of_nil in H.
  - unfold update_positions_simd in H. rewrite accesses_then_counter in H.
    apply accesses_for_each_elem in H as (i & Hi & H).
    apply omp_iterations_elem in Hi; [|lia].
    apply update_positions_simd_body_accesses_elem in H as (k & Hk & H).
    exists k. split; [unfold round_up8; zlia | done].
Qed.

End PositionsTouched.

(** ** Repeated position updates *)

Section PositionsRepeated.
Context {float : Type} (fadd : float -> float -> float).
Implicit Types m : gmap Z float.

Lemma positions_post_ready m m' x y vx vy n :
  positions_ready m x y vx vy n ->
  (forall a, m' !! a = positions_post fadd m x y vx vy n a) ->
  positions_ready m' x y vx vy n.
Proof.
  intros Hready Hpost. pose proof Hready as (H1 & H2 & H3 & H4 & D).
  apply positions_ready_spec in Hready as (Hal & D1 & D2 & D3 & D4 & D5).
  assert (forall p, (p = x \/ p = y \/ p = vx \/ p = vy) -> allocated m' p n) as Hp.
  { intros p Hp. apply allocated_spec. intros k Hk. rewrite Hpost.
    destruct (Hal k Hk) as ([a Ha] & [c Hc] & [b Hb] & [d Hd]).
    unfold positions_post, add_cells.
    destruct (decide (x <= p + k < x + n)) as [Hx|Hx].
    - assert (p = x) as -> by lia.
      replace (vx + (x + k - x)) with (vx + k) by lia. rewrite Ha, Hb. by eexists.
    - destruct (decide (y <= p + k < y + n)) as [Hy|Hy].
      + assert (p = y) as -> by lia.
        replace (vy + (y + k - y)) with (vy + k) by lia. rewrite Hc, Hd. by eexists.
      + destruct Hp as [->|[->|[->| ->]]]; by eexists. }
  unfold positions_ready. split; [apply Hp; tauto|]. split; [apply Hp; tauto|].
  split; [apply Hp; tauto|]. split; [apply Hp; tauto|]. exact D.
Qed.

(** A command that updates the positions once, run once per element of [l]. *)
Lemma positions_repeat_exec {X} (p : prog float unit) x y vx vy n (l : list X) m :
  (forall m1, positions_ready m1 x y vx vy n ->
     exists m2, exec p m1 = Ok (tt, m2)
       /\ forall a, m2 !! a = positions_post fadd m1 x y vx vy n a) ->
  positions_ready m x y vx vy n ->
  exists m', exec (for_each l (fun _ => p)) m = Ok (tt, m')
    /\ positions_ready m' x y vx vy n
    /\ (forall i a b c d, 0 <= i < n ->
          m !! (x + i) = Some a -> m !! (vx + i) = Some b ->
          m !! (y + i) = Some c -> m !! (vy + i) = Some d ->
          m' !! (x + i) = Some (add_times fadd (length l) a b)
          /\ m' !! (y + i) = Some (add_times fadd (length l) c d))
    /\ (forall a, ~ (x <= a < x + n) -> ~ (y <= a < y + n) -> m' !! a = m !! a).
Proof.
  intros Hp. revert m. induction l as [|z l IH]; intros m Hready.
  - exists m. rewrite exec_for_each_nil. split; [done|]. split; [done|].
    split; [|done]. intros i a b c d _ -> _ -> _. done.
  - destruct (Hp m Hready) as (m1 & E1 & P1).
    pose proof (positions_post_ready m m1 x y vx vy n Hready P1) as Hready1.
    destruct (IH m1 Hready1) as (m' & E & Hready' & Hval & Hkeep).
    exists m'. rewrite exec_for_each_cons, E1. split; [exact E|]. split; [exact Hready'|].
    apply positions_ready_spec in Hready as (_ & D1 & D2 & D3 & D4 & D5).
    split.
    + intros i a b c d Hi Ha Hb Hc Hd.
      destruct (Hval i (fadd a b) b (fadd c d) d Hi) as [Hx Hy].
      * rewrite P1. unfold positions_post, add_cells.
        rewrite decide_True by lia.
        replace (vx + (x + i - x)) with (vx + i) by lia. by rewrite Ha, Hb.
      * rewrite P1. unfold positions_post. rewrite !decide_False by lia. done.
      * rewrite P1. unfold positions_post, add_cells.
        rewrite decide_False, decide_True by lia.
        replace (vy + (y + i - y)) with (vy + i) by lia. by rewrite Hc, Hd.
      * rewrite P1. unfold positions_post. rewrite !decide_False by lia. done.
      * rewrite Hx, Hy. unfold add_times. cbn [length]. by rewrite !Nat.iter_succ_r.
    + intros a Hx Hy. rewrite Hkeep, P1 by done. unfold positions_post.
      by rewrite !decide_False by done.
Qed.

Lemma update_positions_baseline_repeat_exec m x y vx vy n k :
  0 <= k <= INT_MAX -> positions_ready m x y vx vy n ->
  exists m',
    exec (counted_loop k (fun _ => update_positions_baseline fadd x y vx vy n)) m
      = Ok (tt, m')
    /\ positions_ready m' x y vx vy n
    /\ (forall i a b c d, 0 <= i < n ->
          m !! (x + i) = Some a -> m !! (vx + i) = Some b ->
          m !! (y + i) = Some c -> m !! (vy + i) = Some d ->
          m' !! (x + i) = Some (add_times fadd (Z.to_nat k) a b)
          /\ m' !! (y + i) = Some (add_times fadd (Z.to_nat k) c d))
    /\ (forall a, ~ (x <= a < x + n) -> ~ (y <= a < y + n) -> m' !! a = m !! a).
Proof.
  intros Hk Hready. rewrite exec_counted_loop by lia.
  replace (Z.to_nat k) with (length (seqZ 0 k)) by (rewrite length_seqZ; lia).
  apply positions_repeat_exec; [|done].
  intros m1 Hready1. by apply update_positions_baseline_post.
Qed.

Lemma update_positions_simd_repeat_exec m x y vx vy n k :
  0 <= k <= INT_MAX -> n mod 8 = 0 ->
  aligned x -> aligned y -> aligned vx -> aligned vy ->
  positions_ready m x y vx vy n ->
  exists m',
    exec (counted_loop k (fun _ => update_positions_simd fadd x y vx vy n)) m
      = Ok (tt, m')
    /\ positions_ready m' x y vx vy n
    /\ (forall i a b c d, 0 <= i < n ->
          m !! (x + i) = Some a -> m !! (vx + i) = Some b ->
          m !! (y + i) = Some c -> m !! (vy + i) = Some d ->
          m' !! (x + i) = Some (add_times fadd (Z.to_nat k) a b)
          /\ m' !! (y + i) = Some (add_times fadd (Z.to_nat k) c d))
    /\ (forall a, ~ (x <= a < x + n) -> ~ (y <= a < y + n) -> m' !! a = m !! a).
Proof.
  intros Hk Hn Ax Ay Avx Avy Hready. rewrite exec_counted_loop by lia.
  replace (Z.to_nat k) with (length (seqZ 0 k)) by (rewrite length_seqZ; lia).
  apply positions_repeat_exec; [|done].
  intros m1 Hready1. by apply update_positions_simd_post.
Qed.

(** The benchmark loop: [k] calls of either updater on arrays of [n]
    floats ([n] a multiple of 8, the arrays aligned) return the same
    memory, in which each position has had its velocity added [k] times
    and every other cell is unchanged. *)
Theorem update_positions_repeated m x y vx vy n k :
  0 <= k <= INT_MAX -> n mod 8 = 0 ->
  aligned x -> aligned y -> aligned vx -> aligned vy ->
  positions_ready m x y vx vy n ->
  exists m',
    run (counted_loop k (fun _ => update_positions_simd fadd x y vx vy n)) m = Ok m'
    /\ run (counted_loop k (fun _ => update_positions_baseline fadd x y vx vy n)) m = Ok m'
    /\ (forall i a b c d, 0 <= i < n ->
          m !! (x + i) = Some a -> m !! (vx + i) = Some b ->
          m !! (y + i) = Some c -> m !! (vy + i) = Some d ->
          m' !! (x + i) = Some (add_times fadd (Z.to_nat k) a b)
          /\ m' !! (y + i) = Some (add_times fadd (Z.to_nat k) c d))
    /\ (forall a, ~ (x <= a < x + n) -> ~ (y <= a < y + n) -> m' !! a = m !! a).
Proof.
  intros Hk Hn Ax Ay Avx Avy Hready.
  destruct (update_positions_simd_repeat_exec m x y vx vy n k Hk Hn Ax Ay Avx Avy Hready)
    as (ms & Es & Rs & Vs & Ks).
  destruct (update_positions_baseline_repeat_exec m x y vx vy n k Hk Hready)
    as (mb & Eb & Rb & Vb & Kb).
  assert (mb = ms) as ->.
  { apply map_eq. intros a.
    apply positions_ready_spec in Hready as (Hal & _).
    destruct (decide (x <= a < x + n)) as [Hx|Hx].
    - destruct (Hal (a - x)) as ([u Hu] & [c Hc] & [b Hb] & [d Hd]); [lia|].
      destruct (Vs (a - x) u b c d) as [H1 _]; [lia|done..|].
      destruct (Vb (a - x) u b c d) as [H2 _]; [lia|done..|].
      replace (x + (a - x)) with a in H1, H2 by lia. congruence.
    - destruct (decide (y <= a < y + n)) as [Hy|Hy].
      + destruct (Hal (a - y)) as ([u Hu] & [c Hc] & [b Hb] & [d Hd]); [lia|].
        destruct (Vs (a - y) u b c d) as [_ H1]; [lia|done..|].
        destruct (Vb (a - y) u b c d) as [_ H2]; [lia|done..|].
        replace (y + (a - y)) with a in H1, H2 by lia. congruence.
      + by rewrite Ks, Kb. }
  exists ms. split; [by apply run_exec|]. split; [by apply run_exec|]. done.
Qed.

End PositionsRepeated.

(** ** More on the transposers *)

Section TransposeMore.
Context {float : Type}.
Implicit Types m : gmap Z float.

(** The last element of a matrix beyond [MAX_DIM] has no defined assignment. *)
Lemma transpose_assign_last_overflow m src dst n :
  MAX_DIM < n ->
  exists e, exec (transpose_assign src dst n (n - 1) (n - 1)) m = Undefined e.
Proof.
  intros Hn. unfold MAX_DIM in Hn. unfold transpose_assign, int_mul, int_add.
  rewrite exec_bind.
  destruct (decide ((n - 1) * n <= INT_MAX)) as [Hle|Hgt].
  - rewrite exec_int_ok by (unfold INT_MIN in *; nia).
    rewrite exec_bind, exec_int_overflow by (unfold INT_MAX; nia). by eexists.
  - rewrite exec_int_overflow by lia. by eexists.
Qed.

Lemma tile_loop_stuck lo n k (body : Z -> prog float unit) m :
  0 <= lo -> n <= INT_MAX -> lo <= k < lo + block -> k < n ->
  (forall m1, exists e, exec (body k) m1 = Undefined e) ->
  exists e, exec (tile_loop lo n body) m = Undefined e.
Proof.
  intros Hlo Hn Hk Hkn Hstuck.
  destruct (decide (lo + block <= INT_MAX)) as [Hle|Hgt].
  - rewrite exec_tile_loop by (unfold INT_MIN; lia).
    apply (exec_for_each_stuck _ _ k); [|done]. by apply tile_range_elem.
  - unfold tile_loop. cbn [c_for]. unfold int_add at 1.
    rewrite !exec_bind, exec_int_overflow by lia. by eexists.
Qed.

Lemma transpose_tile_stuck m src dst n i j ii jj :
  0 <= i -> 0 <= j -> n <= INT_MAX ->
  i <= ii < i + block -> ii < n -> j <= jj < j + block -> jj < n ->
  (forall m1, exists e, exec (transpose_assign src dst n ii jj) m1 = Undefined e) ->
  exists e, exec (transpose_tile src dst n i j) m = Undefined e.
Proof.
  intros Hi Hj Hn Hii Hiin Hjj Hjjn Hstuck.
  unfold transpose_tile, int_mul, int_add at 1 2.
  destruct (int_checked (i * n)) as [a|]; cbn [lift_int bind]; [|by eexists].
  destruct (int_checked (a + j)) as [b|]; cbn [lift_int bind]; [|by eexists].
  destruct (int_checked (b + block)) as [c|]; cbn [lift_int bind]; [|by eexists].
  unfold prefetch. cbn [bind exec].
  apply (tile_loop_stuck i n ii); try done. intros m1.
  by apply (tile_loop_stuck j n jj).
Qed.

(** The bound is sharp for the tiled transposer too: beyond it, it has no
    defined run on any memory. *)
Theorem matrix_transpose_cache_optimized_undefined_beyond m src dst n :
  MAX_DIM < n <= INT_MAX ->
  exists e, run (matrix_transpose_cache_optimized src dst n) m = Undefined e.
Proof.
  intros [Hlo Hhi]. assert (block = 16) as Hblock by reflexivity.
  pose proof Hlo as Hlo'. unfold MAX_DIM in Hlo'.
  apply run_stuck. unfold matrix_transpose_cache_optimized. apply exec_bind_stuck.
  unfold omp_parallel_for.
  set (t := block * ((n - 1) / block)).
  assert (0 <= t < n /\ t mod block = 0 /\ n - 1 < t + block) as (Ht & Hmod & Hlast)
    by (unfold t; rewrite Hblock; zlia).
  apply (exec_for_each_stuck _ _ (t, t)).
  - rewrite collapse2_elem, !omp_iterations_elem by lia. done.
  - intros m1. cbn [fst snd].
    apply (transpose_tile_stuck m1 src dst n t t (n - 1) (n - 1)); try lia.
    intros m2. by apply transpose_assign_last_overflow.
Qed.

(** Both transposers, as one function of the choice. *)
Lemma transposer_post (tiled : bool) m src dst n :
  0 <= n <= MAX_DIM -> transpose_ready m src dst n ->
  exists m', exec (transposer tiled src dst n) m = Ok (tt, m')
    /\ forall a, m' !! a = transpose_post m src dst n a.
Proof.
  destruct tiled; cbn [transposer].
  - apply matrix_transpose_cache_optimized_post.
  - apply matrix_transpose_baseline_post.
Qed.

Lemma transpose_post_ready m m' src dst n :
  0 <= n -> transpose_ready m src dst n ->
  (forall a, m' !! a = transpose_post m src dst n a) ->
  transpose_ready m' src dst n.
Proof.
  intros Hn Hready Hpost. pose proof Hready as (Hs & Hd & Hdisj).
  split; [|split; [|done]].
  - by eapply transpose_post_allocated.
  - by eapply transpose_post_allocated.
Qed.

(** Transposing again from an unchanged source changes nothing. *)
Lemma transpose_post_idem m m1 src dst n a :
  0 <= n -> transpose_ready m src dst n ->
  (forall a, m1 !! a = transpose_post m src dst n a) ->
  transpose_post m1 src dst n a = transpose_post m src dst n a.
Proof.
  intros Hn (_ & _ & Hd) Hpost. apply disjoint_spec in Hd.
  unfold transpose_post at 1.
  destruct (decide (dst <= a < dst + n * n)) as [Ha|Ha].
  - assert (0 < n) as Hpos by nia.
    assert (0 <= (a - dst) mod n < n) as Hmod by (apply Z.mod_pos_bound; lia).
    assert (0 <= (a - dst) / n < n) as Hdiv.
    { split; [apply Z.div_pos; lia|]. apply Z.div_lt_upper_bound; lia. }
    rewrite Hpost. unfold transpose_post.
    rewrite (decide_False (P := dst <= src + _ < dst + n * n)) by nia.
    by rewrite decide_True by done.
  - apply Hpost.
Qed.

(** Any transposer after any transposer is the identity: two
    transpositions, each by either function, copy [src] to [dst]. *)
Theorem transposers_involution (first second : bool) m src tmp dst n :
  0 <= n <= MAX_DIM -> transpose_ready m src tmp n ->
  allocated m dst (n * n) -> disjoint tmp dst (n * n) ->
  exists m',
    run (transposer first src tmp n ;; transposer second tmp dst n) m = Ok m'
    /\ forall k, 0 <= k < n * n -> m' !! (dst + k) = m !! (src + k).
Proof.
  intros Hn Hready Hdst Hdisj.
  destruct (transposer_post first m src tmp n Hn Hready) as (m1 & Hex1 & Hpost1).
  assert (transpose_ready m1 tmp dst n) as Hready1.
  { destruct Hready as (Hs & Ht & Hd). split; [|split; [|done]].
    - eapply transpose_post_allocated; [| |exact Ht|exact Hpost1]; [lia|].
      by repeat split.
    - eapply transpose_post_allocated; [| |exact Hdst|exact Hpost1]; [lia|].
      by repeat split. }
  destruct (transposer_post second m1 tmp dst n Hn Hready1) as (m2 & Hex2 & Hpost2).
  exists m2. split.
  - apply run_exec. by rewrite exec_bind, Hex1.
  - intros k Hk. assert (0 < n) as Hpos by nia.
    assert (0 <= k mod n < n) as Hmod by (apply Z.mod_pos_bound; lia).
    assert (0 <= k / n < n) as Hdiv.
    { split; [apply Z.div_pos; lia|]. apply Z.div_lt_upper_bound; lia. }
    replace (dst + k) with (dst + ((k / n) * n + k mod n))
      by (pose proof (Z.div_mod k n); lia).
    rewrite Hpost2, transpose_post_elem by done.
    rewrite Hpost1, transpose_post_elem by done.
    f_equal. pose proof (Z.div_mod k n). lia.
Qed.

(** A command that transposes [src] into [dst], run once per element of [l]. *)
Lemma transpose_repeat_exec {X} (p : prog float unit) (l : list X) m src dst n :
  (forall m1, transpose_ready m1 src dst n ->
     exists m2, exec p m1 = Ok (tt, m2)
       /\ forall a, m2 !! a = transpose_post m1 src dst n a) ->
  0 <= n -> transpose_ready m src dst n -> l <> [] ->
  exists m', exec (for_each l (fun _ => p)) m = Ok (tt, m')
    /\ forall a, m' !! a = transpose_post m src dst n a.
Proof.
  intros Hp Hn Hready Hl. destruct l as [|z l]; [done|]. clear Hl.
  rewrite exec_for_each_cons.
  destruct (Hp m Hready) as (m1 & -> & P1).
  pose proof (transpose_post_ready m m1 src dst n Hn Hready P1) as Hready1.
  clear z. revert m1 P1 Hready1. induction l as [|z l IH]; intros m1 P1 Hready1.
  - exists m1. by rewrite exec_for_each_nil.
  - rewrite exec_for_each_cons.
    destruct (Hp m1 Hready1) as (m2 & -> & P2).
    apply IH.
    + intros a. rewrite P2.
      exact (transpose_post_idem m m1 src dst n a Hn Hready P1).
    + exact (transpose_post_ready m1 m2 src dst n Hn Hready1 P2).
Qed.

(** The benchmark loop: [k >= 1] calls of either transposer leave the
    memory that one call of the baseline transposer leaves. *)
Theorem transposer_repeated (tiled : bool) m src dst n k :
  0 < k <= INT_MAX -> 0 <= n <= MAX_DIM -> transpose_ready m src dst n ->
  exists m',
    run (counted_loop k (fun _ => transposer tiled src dst n)) m = Ok m'
    /\ run (matrix_transpose_baseline src dst n) m = Ok m'.
Proof.
  intros Hk Hn Hready.
  destruct (transpose_repeat_exec (transposer tiled src dst n) (seqZ 0 k) m src dst n)
    as (m1 & E1 & P1); [|lia|done| |].
  { intros m1 Hready1. by apply transposer_post. }
  { rewrite seqZ_cons by lia. done. }
  destruct (matrix_transpose_baseline_post m src dst n Hn Hready) as (m2 & E2 & P2).
  assert (m2 = m1) as -> by (apply map_eq; intros a; by rewrite P1, P2).
  exists m1. split; [|by apply run_exec].
  apply run_exec. by rewrite exec_counted_loop by lia.
Qed.

End TransposeMore.

(** ** What the transposers touch *)

Section TransposeTouched.
Context {float : Type}.
Implicit Types rho : Z -> Z -> float.

(** Whatever [n] and the values loaded are, both transposers read [src]
    and write [dst] at element indices of the [n] x [n] matrix only; the
    tiled one also prefetches from [src], once per tile. *)
Theorem transposers_touch rho src dst n e :
  (e ∈ accesses rho (matrix_transpose_baseline (float:=float) src dst n) ->
   exists i j, 0 <= i < n /\ 0 <= j < n
     /\ (e = Rd src (i * n + j) \/ e = Wr dst (j * n + i)))
  /\ (e ∈ accesses rho (matrix_transpose_cache_optimized (float:=float) src dst n) ->
      (exists i j, (0 <= i < n /\ i mod block = 0) /\ (0 <= j < n /\ j mod block = 0)
         /\ e = Pf src (i * n + j + block))
      \/ exists i j, 0 <= i < n /\ 0 <= j < n
           /\ (e = Rd src (i * n + j) \/ e = Wr dst (j * n + i))).
Proof.
  assert (block = 16) as Hblock by reflexivity. split; intros H.
  - unfold matrix_transpose_baseline in H. rewrite accesses_then_counter in H.
    apply accesses_for_each_elem in H as ([i j] & Hij & H).
    apply collapse2_elem in Hij as [Hi Hj].
    apply omp_iterations_elem in Hi, Hj; [|lia..].
    apply transpose_assign_accesses_elem in H. simpl in H.
    exists i, j. split; [lia|]. split; [lia | done].
  - unfold matrix_transpose_cache_optimized in H. rewrite accesses_then_counter in H.
    apply accesses_for_each_elem in H as ([i j] & Hij & H).
    apply collapse2_elem in Hij as [Hi Hj].
    apply omp_iterations_elem in Hi, Hj; [|lia..].
    apply transpose_tile_accesses_elem in H as [->|(ii & jj & Ht & H)].
    + left. exists i, j. done.
    + right. apply tile_elements_elem in Ht. simpl in Ht.
      destruct Hi as [Hi _], Hj as [Hj _].
      exists ii, jj. split; [lia|]. split; [lia | done].
Qed.

Lemma int_checked_Some z : INT_MIN <= z <= INT_MAX -> int_checked z = Some z.
Proof.
  intros Hz. unfold int_checked, in_int.
  destruct (INT_MIN <=? z) eqn:E1; [|lia].
  destruct (z <=? INT_MAX) eqn:E2; [|lia]. done.
Qed.

Lemma value_transpose_assign rho src dst n i j :
  0 <= n <= MAX_DIM -> 0 <= i < n -> 0 <= j < n ->
  value rho (transpose_assign (float:=float) src dst n i j) = Some tt.
Proof.
  intros Hn Hi Hj.
  pose proof (index_bounds n i j Hn Hi Hj). pose proof (index_bounds n j i Hn Hj Hi).
  assert (forall z, 0 <= z <= 2147395600 -> int_checked z = Some z) as Hint.
  { intros z Hz. apply int_checked_Some. unfold INT_MIN, INT_MAX. lia. }
  unfold transpose_assign, int_mul, int_add.
  rewrite (Hint (i * n)) by lia. cbn [lift_int bind].
  rewrite (Hint (i * n + j)) by lia. cbn [lift_int bind].
  unfold load. cbn [bind].
  rewrite (Hint (j * n)) by lia. cbn [lift_int bind].
  rewrite (Hint (j * n + i)) by lia. done.
Qed.

Lemma value_tile_loop_from rho fuel lo n k (body : Z -> prog float unit) :
  INT_MIN <= lo -> lo + block <= INT_MAX -> n <= INT_MAX -> lo <= k ->
  Z.max 0 (Z.min (lo + block) n - k) < Z.of_nat fuel ->
  (forall k', lo <= k' < lo + block -> k' < n -> value rho (body k') = Some tt) ->
  value rho (c_for fuel
               (fun k => ub <- int_add lo block ;; Ret ((k <? ub) && (k <? n)))
               (fun k => int_add k 1) body k) = Some tt.
Proof.
  intros Hlo Hhi Hn. assert (block = 16) as Hblock by reflexivity.
  pose proof int_checked_Some as Hint.
  revert k. induction fuel as [|fuel IH]; intros k Hk Hfuel Hbody; [lia|].
  cbn [c_for]. unfold int_add at 1. rewrite Hint by lia. cbn [lift_int bind].
  destruct ((k <? lo + block) && (k <? n)) eqn:E; [|done].
  apply andb_true_iff in E as [E1 E2]. apply Z.ltb_lt in E1, E2.
  rewrite value_bind, Hbody by lia.
  unfold int_add at 1. rewrite Hint by lia. cbn [lift_int bind].
  apply IH; [lia|lia|done].
Qed.

Lemma value_tile_loop rho lo n (body : Z -> prog float unit) :
  INT_MIN <= lo -> lo + block <= INT_MAX -> n <= INT_MAX ->
  (forall k, lo <= k < lo + block -> k < n -> value rho (body k) = Some tt) ->
  value rho (tile_loop lo n body) = Some tt.
Proof.
  intros. unfold tile_loop. assert (block = 16) as Hblock by reflexivity.
  apply value_tile_loop_from; try done; lia.
Qed.

(** A tile of a matrix within the bound runs to its end, and its first
    access is its prefetch. *)
Lemma transpose_tile_prefetch rho src dst n i j :
  0 <= n <= MAX_DIM -> 0 <= i < n -> 0 <= j < n ->
  value rho (transpose_tile (float:=float) src dst n i j) = Some tt
  /\ Pf src (i * n + j + block) ∈ accesses rho (transpose_tile (float:=float) src dst n i j).
Proof.
  intros Hn Hi Hj. assert (block = 16) as Hblock by reflexivity.
  pose proof (index_bounds n i j Hn Hi Hj).
  assert (forall z, 0 <= z <= 2147395616 -> int_checked z = Some z) as Hint.
  { intros z Hz. apply int_checked_Some. unfold INT_MIN, INT_MAX. lia. }
  assert (transpose_tile (float:=float) src dst n i j
          = PrefetchAt src (i * n + j + block)
              (tile_loop i n (fun ii =>
                 tile_loop j n (fun jj => transpose_assign src dst n ii jj)))) as ->.
  { unfold transpose_tile, int_mul, int_add.
    rewrite (Hint (i * n)) by lia. cbn [lift_int bind].
    rewrite (Hint (i * n + j)) by lia. cbn [lift_int bind].
    rewrite (Hint (i * n + j + block)) by lia. cbn [lift_int bind].
    unfold prefetch. cbn [bind]. done. }
  cbn [value accesses]. split; [|by left].
  unfold MAX_DIM in Hn.
  apply value_tile_loop; try (unfold INT_MIN, INT_MAX; lia).
  intros ii Hii Hiin.
  apply value_tile_loop; try (unfold INT_MIN, INT_MAX; lia).
  intros jj Hjj Hjjn. apply value_transpose_assign; unfold MAX_DIM; lia.
Qed.

(** The prefetch hint is not kept inside the matrix: when [n] is one more
    than a multiple of the tile size, the hint of the last tile addresses
    [src[n * n + 15]], sixteen elements past the last one. *)
Theorem matrix_transpose_cache_optimized_prefetch_past_end rho src dst n :
  0 < n <= MAX_DIM -> n mod block = 1 ->
  Pf src (n * n + 15)
    ∈ accesses rho (matrix_transpose_cache_optimized (float:=float) src dst n).
Proof.
  intros Hn Hmod. assert (block = 16) as Hblock by reflexivity.
  unfold matrix_transpose_cache_optimized. rewrite accesses_then_counter.
  unfold omp_parallel_for.
  destruct (accesses_for_each rho
              (fun ij : Z * Z => transpose_tile (float:=float) src dst n ij.1 ij.2)
              (collapse2 (omp_iterations 0 n block) (omp_iterations 0 n block)))
    as [_ ->].
  { intros [i j] Hij. apply collapse2_elem in Hij as [Hi Hj].
    apply omp_iterations_elem in Hi, Hj; [|lia..].
    destruct Hi as [Hi _], Hj as [Hj _].
    apply transpose_tile_prefetch; [lia|done|done]. }
  apply list_elem_of_bind. exists (n - 1, n - 1). split.
  - cbn [fst snd]. replace (n * n + 15) with ((n - 1) * n + (n - 1) + block) by lia.
    apply transpose_tile_prefetch; lia.
  - rewrite collapse2_elem, !omp_iterations_elem by lia.
    rewrite Hblock in *. zlia.
Qed.

End TransposeTouched.

(** ** Transposing in place *)

Section TransposeInPlace.
Context {float : Type}.
Implicit Types rho : Z -> Z -> float.

Lemma accesses_transpose_assign rho src dst n i j :
  0 <= n <= MAX_DIM -> 0 <= i < n -> 0 <= j < n ->
  accesses rho (transpose_assign (float:=float) src dst n i j)
  = [Rd src (i * n + j); Wr dst (j * n + i)].
Proof.
  intros Hn Hi Hj.
  pose proof (index_bounds n i j Hn Hi Hj). pose proof (index_bounds n j i Hn Hj Hi).
  assert (forall z, 0 <= z <= 2147395600 -> int_checked z = Some z) as Hint.
  { intros z Hz. apply int_checked_Some. unfold INT_MIN, INT_MAX. lia. }
  unfold transpose_assign, int_mul, int_add.
  rewrite (Hint (i * n)) by lia. cbn [lift_int bind].
  rewrite (Hint (i * n + j)) by lia. cbn [lift_int bind].
  unfold load. cbn [bind].
  rewrite (Hint (j * n)) by lia. cbn [lift_int bind].
  rewrite (Hint (j * n + i)) by lia. done.
Qed.

Lemma accesses_tile_loop_from rho fuel lo n k (body : Z -> prog float unit) :
  INT_MIN <= lo -> lo + block <= INT_MAX -> n <= INT_MAX -> lo <= k ->
  Z.max 0 (Z.min (lo + block) n - k) < Z.of_nat fuel ->
  (forall k', lo <= k' < lo + block -> k' < n -> value rho (body k') = Some tt) ->
  accesses rho (c_for fuel
                  (fun k => ub <- int_add lo block ;; Ret ((k <? ub) && (k <? n)))
                  (fun k => int_add k 1) body k)
  = seqZ k (Z.min (lo + block) n - k) ≫= (fun k' => accesses rho (body k')).
Proof.
  intros Hlo Hhi Hn. assert (block = 16) as Hblock by reflexivity.
  pose proof int_checked_Some as Hint.
  revert k. induction fuel as [|fuel IH]; intros k Hk Hfuel Hbody; [lia|].
  cbn [c_for]. unfold int_add at 1. rewrite Hint by lia. cbn [lift_int bind].
  destruct ((k <? lo + block) && (k <? n)) eqn:E.
  - apply andb_true_iff in E as [E1 E2]. apply Z.ltb_lt in E1, E2.
    rewrite accesses_bind, Hbody by lia.
    unfold int_add at 1. rewrite Hint by lia. cbn [lift_int bind].
    rewrite IH by (lia || done).
    rewrite (seqZ_cons k) by lia. rewrite bind_cons.
    replace (Z.succ k) with (k + 1) by lia.
    by replace (Z.pred (Z.min (lo + block) n - k))
      with (Z.min (lo + block) n - (k + 1)) by lia.
  - rewrite seqZ_nil; [done|].
    apply andb_false_iff in E as [E|E]; apply Z.ltb_ge in E; lia.
Qed.

Lemma accesses_tile_loop rho lo n (body : Z -> prog float unit) :
  INT_MIN <= lo -> lo + block <= INT_MAX -> n <= INT_MAX ->
  (forall k, lo <= k < lo + block -> k < n -> value rho (body k) = Some tt) ->
  accesses rho (tile_loop lo n body)
  = tile_range lo n ≫= (fun k => accesses rho (body k)).
Proof.
  intros. unfold tile_loop, tile_range. assert (block = 16) as Hblock by reflexivity.
  apply accesses_tile_loop_from; try done; lia.
Qed.

(** The accesses of a tile, in program order: the prefetch, then a read
    and a write per element. *)
Lemma accesses_transpose_tile rho src dst n i j :
  0 <= n <= MAX_DIM -> 0 <= i < n -> 0 <= j < n ->
  accesses rho (transpose_tile (float:=float) src dst n i j)
  = Pf src (i * n + j + block)
    :: (tile_range i n ≫= fun ii => tile_range j n ≫= fun jj =>
          [Rd src (ii * n + jj); Wr dst (jj * n + ii)]).
Proof.
  intros Hn Hi Hj. assert (block = 16) as Hblock by reflexivity.
  pose proof (index_bounds n i j Hn Hi Hj).
  assert (forall z, 0 <= z <= 2147395616 -> int_checked z = Some z) as Hint.
  { intros z Hz. apply int_checked_Some. unfold INT_MIN, INT_MAX. lia. }
  assert (transpose_tile (float:=float) src dst n i j
          = PrefetchAt src (i * n + j + block)
              (tile_loop i n (fun ii =>
                 tile_loop j n (fun jj => transpose_assign src dst n ii jj)))) as ->.
  { unfold transpose_tile, int_mul, int_add.
    rewrite (Hint (i * n)) by lia. cbn [lift_int bind].
    rewrite (Hint (i * n + j)) by lia. cbn [lift_int bind].
    rewrite (Hint (i * n + j + block)) by lia. cbn [lift_int bind].
    unfold prefetch. cbn [bind]. done. }
  cbn [accesses]. f_equal. pose proof Hn as Hn'. unfold MAX_DIM in Hn'.
  assert (forall ii, ii ∈ tile_range i n ->
            value rho (tile_loop j n (fun jj => transpose_assign (float:=float) src dst n ii jj))
              = Some tt
            /\ accesses rho (tile_loop j n (fun jj => transpose_assign src dst n ii jj))
               = tile_range j n ≫= fun jj => [Rd src (ii * n + jj); Wr dst (jj * n + ii)])
    as Hinner.
  { intros ii Hii. apply tile_range_elem in Hii. split.
    - apply value_tile_loop; try (unfold INT_MIN, INT_MAX; lia).
      intros jj Hjj Hjjn. apply value_transpose_assign; lia.
    - rewrite accesses_tile_loop; try (unfold INT_MIN, INT_MAX; lia).
      + apply Forall_bind_ext, Forall_forall. intros jj Hjj.
        apply tile_range_elem in Hjj. apply accesses_transpose_assign; lia.
      + intros jj Hjj Hjjn. apply value_transpose_assign; lia. }
  rewrite accesses_tile_loop; try (unfold INT_MIN, INT_MAX; lia).
  - apply Forall_bind_ext, Forall_forall. intros ii Hii. by apply Hinner.
  - intros ii Hii Hiin. apply Hinner. apply tile_range_elem. lia.
Qed.

(** Used in place, the transposers race: with [src = dst], one iteration
    of the parallel loop writes a cell that another one reads.  The
    destination has to be a buffer of its own. *)
Theorem matrix_transpose_in_place_races rho p n :
  2 <= n <= MAX_DIM ->
  ~ independent_iterations
      (fun ij : Z * Z => transpose_assign (float:=float) p p n ij.1 ij.2)
      (collapse2 (omp_iterations 0 n 1) (omp_iterations 0 n 1))
  /\ (block < n ->
      ~ independent_iterations
          (fun ij : Z * Z => transpose_tile (float:=float) p p n ij.1 ij.2)
          (collapse2 (omp_iterations 0 n block) (omp_iterations 0 n block))).
Proof.
  intros Hn. assert (block = 16) as Hblock by reflexivity. split.
  - intros Hind.
    apply (Hind rho rho (0, 1) (1, 0) (Wr p (1 * n + 0)) (Rd p (1 * n + 0)));
      try done.
    + rewrite collapse2_elem, !omp_iterations_elem by lia. rewrite !Z.mod_1_r. lia.
    + rewrite collapse2_elem, !omp_iterations_elem by lia. rewrite !Z.mod_1_r. lia.
    + cbn [fst snd]. rewrite accesses_transpose_assign by lia.
      apply elem_of_cons. right. by left.
    + cbn [fst snd]. rewrite accesses_transpose_assign by lia. by left.
  - intros Hbig Hind.
    apply (Hind rho rho (0, block) (block, 0)
             (Wr p (block * n + 0)) (Rd p (block * n + 0))); try done.
    + rewrite collapse2_elem, !omp_iterations_elem by lia. rewrite Hblock in *.
      split; (split; [lia | reflexivity]).
    + rewrite collapse2_elem, !omp_iterations_elem by lia. rewrite Hblock in *.
      split; (split; [lia | reflexivity]).
    + cbn [fst snd]. rewrite accesses_transpose_tile by lia.
      apply elem_of_cons. right. apply list_elem_of_bind. exists 0. split.
      * apply list_elem_of_bind. exists block.
        split; [apply elem_of_cons; right; by left | apply tile_range_elem; lia].
      * apply tile_range_elem. lia.
    + cbn [fst snd]. rewrite accesses_transpose_tile by lia.
      apply elem_of_cons. right. apply list_elem_of_bind. exists block. split.
      * apply list_elem_of_bind. exists 0.
        split; [by left | apply tile_range_elem; lia].
      * apply tile_range_elem. lia.
Qed.

End TransposeInPlace.

(** ** The copier on overlapping buffers *)

Section CopierOverlap.
Context {byte : Type}.
Implicit Types m : gmap Z byte.

(** [rep movsb] towards lower addresses reads every byte before it is
    overwritten. *)
Lemma rep_movsb_exec_down rcx rdi rsi m :
  rdi <= rsi ->
  (forall k, 0 <= k < Z.of_nat rcx -> is_Some (m !! (rsi + k))) ->
  (forall k, 0 <= k < Z.of_nat rcx -> is_Some (m !! (rdi + k))) ->
  exists m', exec (rep_movsb rcx rdi rsi) m = Ok (tt, m')
    /\ (forall k, 0 <= k < Z.of_nat rcx -> m' !! (rdi + k) = m !! (rsi + k))
    /\ (forall a, ~ (rdi <= a < rdi + Z.of_nat rcx) -> m' !! a = m !! a).
Proof.
  revert rdi rsi m. induction rcx as [|rcx IH]; intros rdi rsi m Hle Hsrc Hdst.
  - exists m. split; [done|]. split; [intros k Hk; lia | done].
  - destruct (Hsrc 0) as [b Hb]; [lia|].
    destruct (IH (rdi + 1) (rsi + 1) (<[rdi + 0 := b]> m)) as (m' & Hex & Hcopy & Hkeep).
    { lia. }
    { intros k Hk. apply lookup_insert_is_Some'. right.
      replace (rsi + 1 + k) with (rsi + (1 + k)) by lia. apply Hsrc. lia. }
    { intros k Hk. apply lookup_insert_is_Some'. right.
      replace (rdi + 1 + k) with (rdi + (1 + k)) by lia. apply Hdst. lia. }
    exists m'. cbn [rep_movsb].
    rewrite exec_bind, (exec_load _ _ _ _ Hb), exec_bind, exec_store by (apply Hdst; lia).
    split; [exact Hex|]. split.
    + intros k Hk. destruct (decide (k = 0)) as [->|Hne].
      * rewrite Hkeep by lia. by rewrite lookup_insert_eq.
      * replace (rdi + k) with (rdi + 1 + (k - 1)) by lia.
        rewrite Hcopy by lia. rewrite lookup_insert_ne by lia. f_equal. lia.
    + intros a Ha. rewrite Hkeep by lia. apply lookup_insert_ne. lia.
Qed.

(** [rep movsb] towards higher addresses, [d] bytes up: the bytes it reads
    from the overlap are those it has just written. *)
Lemma rep_movsb_exec_up rcx rdi rsi d m :
  0 < d -> rdi = rsi + d ->
  (forall k, 0 <= k < Z.of_nat rcx -> is_Some (m !! (rsi + k))) ->
  (forall k, 0 <= k < Z.of_nat rcx -> is_Some (m !! (rdi + k))) ->
  exists m', exec (rep_movsb rcx rdi rsi) m = Ok (tt, m')
    /\ (forall k, 0 <= k < Z.of_nat rcx -> m' !! (rdi + k) = m !! (rsi + k mod d))
    /\ (forall a, ~ (rdi <= a < rdi + Z.of_nat rcx) -> m' !! a = m !! a).
Proof.
  intros Hd. revert rdi rsi m. induction rcx as [|rcx IH]; intros rdi rsi m -> Hsrc Hdst.
  - exists m. split; [done|]. split; [intros k Hk; lia | done].
  - destruct (Hsrc 0) as [b Hb]; [lia|].
    destruct (IH (rsi + d + 1) (rsi + 1) (<[rsi + d + 0 := b]> m))
      as (m' & Hex & Hcopy & Hkeep).
    { lia. }
    { intros k Hk. apply lookup_insert_is_Some'. right.
      replace (rsi + 1 + k) with (rsi + (1 + k)) by lia. apply Hsrc. lia. }
    { intros k Hk. apply lookup_insert_is_Some'. right.
      replace (rsi + d + 1 + k) with (rsi + d + (1 + k)) by lia. apply Hdst. lia. }
    exists m'. cbn [rep_movsb].
    rewrite exec_bind, (exec_load _ _ _ _ Hb), exec_bind, exec_store by (apply Hdst; lia).
    split; [exact Hex|]. split.
    + intros k Hk. destruct (decide (k = 0)) as [->|Hne].
      * rewrite Hkeep by lia. rewrite lookup_insert_eq, Z.mod_0_l by lia. done.
      * replace (rsi + d + k) with (rsi + d + 1 + (k - 1)) by lia.
        rewrite Hcopy by lia.
        assert (0 <= (k - 1) mod d < d) as Hmod by (apply Z.mod_pos_bound; lia).
        assert (k mod d = ((k - 1) mod d + 1) mod d) as Hk'.
        { rewrite Z.add_mod_idemp_l by lia. f_equal. lia. }
        set (r := (k - 1) mod d) in *. set (s := k mod d) in *. clearbody r s.
        destruct (decide (r = d - 1)) as [->|Hnot].
        -- replace (d - 1 + 1) with d in Hk' by lia.
           rewrite Z.mod_same in Hk' by lia. rewrite Hk'.
           replace (rsi + 1 + (d - 1)) with (rsi + d + 0) by lia.
           by rewrite lookup_insert_eq.
        -- rewrite Z.mod_small in Hk' by lia. rewrite Hk'.
           rewrite lookup_insert_ne by lia. f_equal. lia.
    + intros a Ha. rewrite Hkeep by lia. apply lookup_insert_ne. lia.
Qed.

(** On buffers that overlap with [dst] at or below [src], the [rep movsb]
    path copies like [memmove]: [dst[0..n)] ends up holding what
    [src[0..n)] held before the call.  The portable path is undefined
    there. *)
Theorem custom_memcpy_overlap_below (target : arch) m dst src n :
  0 < n -> dst <= src < dst + n ->
  allocated m src n -> allocated m dst n ->
  match target with
  | x86_64 =>
      exists m', run (custom_memcpy target dst src n) m = Ok m'
        /\ (forall k, 0 <= k < n -> m' !! (dst + k) = m !! (src + k))
        /\ (forall a, ~ (dst <= a < dst + n) -> m' !! a = m !! a)
  | _ => run (custom_memcpy target dst src n) m = Undefined Overlap
  end.
Proof.
  intros Hn Hov Hsrc Hdst. rewrite allocated_spec in Hsrc, Hdst.
  assert (regions_overlap dst src n = true) as Hreg.
  { unfold regions_overlap. rewrite !andb_true_iff, !Z.ltb_lt. lia. }
  destruct target; cbn [custom_memcpy]; unfold run, memcpy; rewrite ?Hreg; try done.
  destruct (rep_movsb_exec_down (Z.to_nat n) dst src m) as (m' & -> & Hcopy & Hkeep);
    rewrite ?Z2Nat.id by lia; try done; [lia|].
  rewrite Z2Nat.id in Hcopy, Hkeep by lia. by exists m'.
Qed.

(** With [dst] above [src], the [rep movsb] path fills [dst] with the first
    [dst - src] bytes of [src], repeated: the copy of [src] when the
    buffers do not overlap, a pattern fill when they do. *)
Theorem custom_memcpy_x86_above m dst src n :
  0 <= n -> src < dst -> allocated m src n -> allocated m dst n ->
  exists m', run (custom_memcpy x86_64 dst src n) m = Ok m'
    /\ (forall k, 0 <= k < n -> m' !! (dst + k) = m !! (src + k mod (dst - src)))
    /\ (forall a, ~ (dst <= a < dst + n) -> m' !! a = m !! a).
Proof.
  intros Hn Hov Hsrc Hdst. rewrite allocated_spec in Hsrc, Hdst.
  cbn [custom_memcpy]. unfold run.
  destruct (rep_movsb_exec_up (Z.to_nat n) dst src (dst - src) m)
    as (m' & -> & Hcopy & Hkeep);
    rewrite ?Z2Nat.id by lia; try done; [lia..|].
  rewrite Z2Nat.id in Hcopy, Hkeep by lia. by exists m'.
Qed.

End CopierOverlap.

(** ** The harness *)

(** Running a command allocates and frees nothing. *)
Lemma exec_is_Some {V A} (p : prog V A) (m m' : gmap Z V) a k :
  exec p m = Ok (a, m') -> is_Some (m' !! k) <-> is_Some (m !! k).
Proof.
  revert m. induction p as [a0|e|b i f IH|b i v f IH|b i f IH]; intros m; cbn [exec].
  - intros [= <- <-]. done.
  - done.
  - destruct (m !! (b + i)) as [w|]; [apply IH | done].
  - destruct (m !! (b + i)) as [w|] eqn:E; [|done]. intros H.
    rewrite (IH _ H), lookup_insert_is_Some'. split; [|by right].
    intros [<-|H']; [by rewrite E | done].
  - apply IH.
Qed.

Lemma exec_allocated {V A} (p : prog V A) (m m' : gmap Z V) a q n :
  exec p m = Ok (a, m') -> allocated m q n -> allocated m' q n.
Proof.
  intros Hex. rewrite !allocated_spec. intros H k Hk.
  rewrite (exec_is_Some p m m' a _ Hex). by apply H.
Qed.

Section Benchmarks.
Context {float : Type} (fadd : float -> float -> float) (float_of_int : Z -> float).
Implicit Types m : gmap Z float.

Lemma exec_positions_ready {A} (p : prog float A) m m' a x y vx vy n :
  exec p m = Ok (a, m') ->
  positions_ready m x y vx vy n -> positions_ready m' x y vx vy n.
Proof.
  intros Hex (H1 & H2 & H3 & H4 & D).
  unfold positions_ready.
  split; [by eapply exec_allocated|]. split; [by eapply exec_allocated|].
  split; [by eapply exec_allocated|]. split; [by eapply exec_allocated|]. exact D.
Qed.

(** [benchmark_particle_update] returns on every target.  Afterwards the
    velocities are the draws of the third and fourth generator; on x86-64
    each position is the draw of its reset with its velocity added 1000
    times, elsewhere it is that draw; every cell outside the four buffers
    is unchanged. *)
Theorem benchmark_particle_update_returns (target : arch) rng m x y vx vy :
  aligned x -> aligned y -> aligned vx -> aligned vy ->
  positions_ready m x y vx vy 100000 -> disjoint vx vy 100000 ->
  exists m',
    run (benchmark_particle_update fadd float_of_int target rng x y vx vy) m = Ok m'
    /\ (forall i, 0 <= i < 100000 ->
          let u := rng 2%nat (float_of_int (-1)) (float_of_int 1) i in
          let v := rng 3%nat (float_of_int (-1)) (float_of_int 1) i in
          let a := rng 4%nat (float_of_int 0) (float_of_int 100) i in
          let b := rng 5%nat (float_of_int 0) (float_of_int 100) i in
          m' !! (vx + i) = Some u /\ m' !! (vy + i) = Some v
          /\ m' !! (x + i)
             = Some (match target with x86_64 => add_times fadd 1000 a u | _ => a end)
          /\ m' !! (y + i)
             = Some (match target with x86_64 => add_times fadd 1000 b v | _ => b end))
    /\ (forall c, ~ (x <= c < x + 100000) -> ~ (y <= c < y + 100000) ->
          ~ (vx <= c < vx + 100000) -> ~ (vy <= c < vy + 100000) -> m' !! c = m !! c).
Proof.
  intros Ax Ay Avx Avy Hready Hvv.
  assert (100000 <= INT_MAX) as HN by (unfold INT_MAX; lia).
  assert (0 <= 1000 <= INT_MAX) as HK by (unfold INT_MAX; lia).
  pose proof Hready as R0.
  apply positions_ready_spec in Hready as (_ & D1 & D2 & D3 & D4 & D5).
  apply disjoint_spec in Hvv.
  unfold benchmark_particle_update. cbv zeta.
  destruct (initialize_arrays_exec (rng 0%nat) m x 100000 (float_of_int 0) (float_of_int 100))
    as (m1 & E1 & C1 & F1); [exact HN|exact (proj1 R0)|].
  pose proof (exec_positions_ready _ _ _ _ x y vx vy 100000 E1 R0) as R1.
  destruct (initialize_arrays_exec (rng 1%nat) m1 y 100000 (float_of_int 0) (float_of_int 100))
    as (m2 & E2 & C2 & F2); [exact HN|exact (proj1 (proj2 R1))|].
  pose proof (exec_positions_ready _ _ _ _ x y vx vy 100000 E2 R1) as R2.
  destruct (initialize_arrays_exec (rng 2%nat) m2 vx 100000
              (float_of_int (-1)) (float_of_int 1))
    as (m3 & E3 & C3 & F3); [exact HN|exact (proj1 (proj2 (proj2 R2)))|].
  pose proof (exec_positions_ready _ _ _ _ x y vx vy 100000 E3 R2) as R3.
  destruct (initialize_arrays_exec (rng 3%nat) m3 vy 100000
              (float_of_int (-1)) (float_of_int 1))
    as (m4 & E4 & C4 & F4); [exact HN|exact (proj1 (proj2 (proj2 (proj2 R3))))|].
  pose proof (exec_positions_ready _ _ _ _ x y vx vy 100000 E4 R3) as R4.
  destruct (update_positions_baseline_repeat_exec fadd m4 x y vx vy 100000 1000 HK R4)
    as (m5 & E5 & R5 & _ & F5).
  destruct (initialize_arrays_exec (rng 4%nat) m5 x 100000 (float_of_int 0) (float_of_int 100))
    as (m6 & E6 & C6 & F6); [exact HN|exact (proj1 R5)|].
  pose proof (exec_positions_ready _ _ _ _ x y vx vy 100000 E6 R5) as R6.
  destruct (initialize_arrays_exec (rng 5%nat) m6 y 100000 (float_of_int 0) (float_of_int 100))
    as (m7 & E7 & C7 & F7); [exact HN|exact (proj1 (proj2 R6))|].
  pose proof (exec_positions_ready _ _ _ _ x y vx vy 100000 E7 R6) as R7.
  assert (forall i, 0 <= i < 100000 ->
            m7 !! (x + i) = Some (rng 4%nat (float_of_int 0) (float_of_int 100) i)
            /\ m7 !! (y + i) = Some (rng 5%nat (float_of_int 0) (float_of_int 100) i)
            /\ m7 !! (vx + i) = Some (rng 2%nat (float_of_int (-1)) (float_of_int 1) i)
            /\ m7 !! (vy + i) = Some (rng 3%nat (float_of_int (-1)) (float_of_int 1) i))
    as V7.
  { intros i Hi. split; [|split; [|split]].
    - rewrite F7 by lia. by apply C6.
    - by apply C7.
    - rewrite F7, F6, F5, F4 by lia. by apply C3.
    - rewrite F7, F6, F5 by lia. by apply C4. }
  assert (forall c, ~ (x <= c < x + 100000) -> ~ (y <= c < y + 100000) ->
            ~ (vx <= c < vx + 100000) -> ~ (vy <= c < vy + 100000) ->
            m7 !! c = m !! c) as K7.
  { intros c Hx Hy Hvx Hvy. by rewrite F7, F6, F5, F4, F3, F2, F1. }
  assert (exec (initialize_arrays (rng 0%nat) x 100000 (float_of_int 0) (float_of_int 100) ;;
                initialize_arrays (rng 1%nat) y 100000 (float_of_int 0) (float_of_int 100) ;;
                initialize_arrays (rng 2%nat) vx 100000 (float_of_int (-1)) (float_of_int 1) ;;
                initialize_arrays (rng 3%nat) vy 100000 (float_of_int (-1)) (float_of_int 1) ;;
                counted_loop 1000 (fun _ => update_positions_baseline fadd x y vx vy 100000) ;;
                initialize_arrays (rng 4%nat) x 100000 (float_of_int 0) (float_of_int 100) ;;
                initialize_arrays (rng 5%nat) y 100000 (float_of_int 0) (float_of_int 100))
               m = Ok (tt, m7)) as E.
  { by rewrite exec_bind, E1, exec_bind, E2, exec_bind, E3, exec_bind, E4,
      exec_bind, E5, exec_bind, E6. }
  assert (forall q : prog float unit,
            exec (initialize_arrays (rng 0%nat) x 100000 (float_of_int 0) (float_of_int 100) ;;
                  initialize_arrays (rng 1%nat) y 100000 (float_of_int 0) (float_of_int 100) ;;
                  initialize_arrays (rng 2%nat) vx 100000 (float_of_int (-1)) (float_of_int 1) ;;
                  initialize_arrays (rng 3%nat) vy 100000 (float_of_int (-1)) (float_of_int 1) ;;
                  counted_loop 1000 (fun _ => update_positions_baseline fadd x y vx vy 100000) ;;
                  initialize_arrays (rng 4%nat) x 100000 (float_of_int 0) (float_of_int 100) ;;
                  initialize_arrays (rng 5%nat) y 100000 (float_of_int 0) (float_of_int 100) ;;
                  q) m = exec q m7) as Eq.
  { intros q. by rewrite exec_bind, E1, exec_bind, E2, exec_bind, E3, exec_bind, E4,
      exec_bind, E5, exec_bind, E6, exec_bind, E7. }
  clear E. unfold run. rewrite Eq.
  destruct target.
  - destruct (update_positions_simd_repeat_exec fadd m7 x y vx vy 100000 1000 HK)
      as (m8 & -> & _ & V8 & F8); try done.
    exists m8. split; [done|]. split.
    + intros i Hi. cbv zeta. destruct (V7 i Hi) as (Vx & Vy & Vvx & Vvy).
      destruct (V8 i _ _ _ _ Hi Vx Vvx Vy Vvy) as [Hx Hy].
      rewrite !F8 by lia. done.
    + intros c Hx Hy Hvx Hvy. rewrite F8 by done. by apply K7.
  - cbn [exec]. exists m7. split; [done|]. split; [|exact K7].
    intros i Hi. cbv zeta. destruct (V7 i Hi) as (Vx & Vy & Vvx & Vvy). done.
  - cbn [exec]. exists m7. split; [done|]. split; [|exact K7].
    intros i Hi. cbv zeta. destruct (V7 i Hi) as (Vx & Vy & Vvx & Vvy). done.
Qed.

(** [benchmark_matrix_transpose] returns.  Afterwards [src] holds the
    draws of the generator, [dst] their transpose as a 512 x 512 matrix,
    and every cell outside the two buffers is unchanged. *)
Theorem benchmark_matrix_transpose_returns rng m src dst :
  transpose_ready m src dst 512 ->
  exists m',
    run (benchmark_matrix_transpose float_of_int rng src dst) m = Ok m'
    /\ (forall k, 0 <= k < 512 * 512 ->
          m' !! (src + k) = Some (rng 0%nat (float_of_int (-1)) (float_of_int 1) k))
    /\ (forall i j, 0 <= i < 512 -> 0 <= j < 512 ->
          m' !! (dst + (j * 512 + i))
          = Some (rng 0%nat (float_of_int (-1)) (float_of_int 1) (i * 512 + j)))
    /\ (forall c, ~ (src <= c < src + 512 * 512) -> ~ (dst <= c < dst + 512 * 512) ->
          m' !! c = m !! c).
Proof.
  intros Hready.
  assert (0 <= 512 <= MAX_DIM) as Hn by (unfold MAX_DIM; lia).
  pose proof Hready as (Hs & Hd & Hdisj). apply disjoint_spec in Hdisj.
  unfold benchmark_matrix_transpose, run. cbv zeta. unfold int_mul.
  rewrite exec_bind, exec_int_ok by (unfold INT_MIN, INT_MAX; lia).
  destruct (initialize_arrays_exec (rng 0%nat) m src (512 * 512)
              (float_of_int (-1)) (float_of_int 1))
    as (m1 & E1 & C1 & F1); [unfold INT_MAX; lia|exact Hs|].
  assert (transpose_ready m1 src dst 512) as R1.
  { split; [exact (exec_allocated _ _ _ _ _ _ E1 Hs)|].
    split; [exact (exec_allocated _ _ _ _ _ _ E1 Hd)|]. exact (proj2 (proj2 Hready)). }
  rewrite exec_bind, E1.
  destruct (transpose_repeat_exec (matrix_transpose_baseline src dst 512) (seqZ 0 100)
              m1 src dst 512) as (m2 & E2 & P2); [|lia|exact R1|done|].
  { intros m0 R0. exact (matrix_transpose_baseline_post m0 src dst 512 Hn R0). }
  rewrite exec_bind, exec_counted_loop, E2 by (unfold INT_MAX; lia).
  pose proof (transpose_post_ready m1 m2 src dst 512 (proj1 Hn) R1 P2) as R2.
  destruct (transpose_repeat_exec (matrix_transpose_cache_optimized src dst 512) (seqZ 0 100)
              m2 src dst 512) as (m3 & E3 & P3); [|lia|exact R2|done|].
  { intros m0 R0. exact (matrix_transpose_cache_optimized_post m0 src dst 512 Hn R0). }
  rewrite exec_counted_loop, E3 by (unfold INT_MAX; lia).
  assert (forall a, m3 !! a = transpose_post m1 src dst 512 a) as P.
  { intros a. rewrite P3. exact (transpose_post_idem m1 m2 src dst 512 a (proj1 Hn) R1 P2). }
  exists m3. split; [done|]. split; [|split].
  - intros k Hk. rewrite P, (transpose_post_frame m1 src dst 512 k R1 Hk). by apply C1.
  - intros i j Hi Hj. rewrite P, transpose_post_elem by done. apply C1. lia.
  - intros c Hc1 Hc2. rewrite P. unfold transpose_post.
    rewrite decide_False by done. by apply F1.
Qed.

End Benchmarks.

(** ** Instances *)

Lemma initialize_arrays_fills_witness :
  (4 <= INT_MAX /\ allocated floats4 0 4)
  /\ exists m',
       run (initialize_arrays (lowest_draws 0%nat) 0 4 (f32_of_Z (-1)) (f32_of_Z 1)) floats4
         = Ok m'
       /\ (forall i, 0 <= i < 4 ->
             m' !! (0 + i) = Some (lowest_draws 0%nat (f32_of_Z (-1)) (f32_of_Z 1) i))
       /\ (forall a, ~ (0 <= a < 0 + 4) -> m' !! a = floats4 !! a).
Proof.
  assert (4 <= INT_MAX) as H1 by (unfold INT_MAX; lia).
  assert (allocated floats4 0 4) as H2 by (by vm_compute).
  split; [done|].
  exact (initialize_arrays_fills (lowest_draws 0%nat) floats4 0 4
           (f32_of_Z (-1)) (f32_of_Z 1) H1 H2).
Defined.

Lemma initialize_arrays_out_of_bounds_witness :
  (0 <= 4 < 6 /\ 6 <= INT_MAX /\ allocated floats4 0 4 /\ floats4 !! (0 + 4) = None)
  /\ run (initialize_arrays (lowest_draws 0%nat) 0 6 (f32_of_Z (-1)) (f32_of_Z 1)) floats4
     = Undefined (OutOfBounds 0 4).
Proof.
  assert (0 <= 4 < 6) as H0 by lia.
  assert (6 <= INT_MAX) as H1 by (unfold INT_MAX; lia).
  assert (allocated floats4 0 4) as H2 by (by vm_compute).
  assert (floats4 !! (0 + 4) = None) as H3 by (by vm_compute).
  split; [done|].
  exact (initialize_arrays_out_of_bounds (lowest_draws 0%nat) floats4 0 6 4
           (f32_of_Z (-1)) (f32_of_Z 1) H0 H1 H2 H3).
Defined.

Lemma update_positions_baseline_contract_witness :
  positions_ready particles8 0 8 16 24 5
  /\ exists m', run (update_positions_baseline f32_add 0 8 16 24 5) particles8 = Ok m'
       /\ (forall i, 0 <= i < 5 ->
             m' !! (0 + i) = add_cells f32_add particles8 (0 + i) (16 + i)
             /\ m' !! (8 + i) = add_cells f32_add particles8 (8 + i) (24 + i))
       /\ (forall a, ~ (0 <= a < 0 + 5) -> ~ (8 <= a < 8 + 5) -> m' !! a = particles8 !! a).
Proof.
  assert (positions_ready particles8 0 8 16 24 5) as H by (repeat split; by vm_compute).
  split; [exact H|].
  exact (update_positions_baseline_contract f32_add particles8 0 8 16 24 5 H).
Defined.

Lemma kernels_return_at_once_witness :
  -1 <= 0
  /\ run (update_positions_baseline f32_add 0 0 0 0 (-1)) ∅ = Ok ∅
  /\ run (update_positions_simd f32_add 0 0 0 0 (-1)) ∅ = Ok ∅
  /\ run (matrix_transpose_baseline 0 0 (-1)) (∅ : gmap Z f32) = Ok ∅
  /\ run (matrix_transpose_cache_optimized 0 0 (-1)) (∅ : gmap Z f32) = Ok ∅.
Proof.
  assert (-1 <= 0) as H by lia.
  split; [exact H|]. exact (kernels_return_at_once f32_add ∅ 0 0 0 0 0 0 (-1) H).
Defined.

Lemma update_positions_simd_misaligned_witness :
  (0 < 8
   /\ (forall k, 0 <= k < 8 ->
         is_Some (zeroed 0 40 !! (0 + k)) /\ is_Some (zeroed 0 40 !! (8 + k)) /\
         is_Some (zeroed 0 40 !! (17 + k)) /\ is_Some (zeroed 0 40 !! (32 + k)))
   /\ first_misaligned [0; 8; 17; 32] = Some 17)
  /\ run (update_positions_simd f32_add 0 8 17 32 8) (zeroed 0 40)
     = Undefined (Misaligned 17 0).
Proof.
  assert (0 < 8) as H0 by lia.
  assert (forall k, 0 <= k < 8 ->
            is_Some (zeroed 0 40 !! (0 + k)) /\ is_Some (zeroed 0 40 !! (8 + k)) /\
            is_Some (zeroed 0 40 !! (17 + k)) /\ is_Some (zeroed 0 40 !! (32 + k))) as H1.
  { intros k Hk. repeat split;
      apply (proj1 (allocated_spec (zeroed 0 40) _ 8)); try done;
      apply zeroed_allocated; lia. }
  assert (first_misaligned [0; 8; 17; 32] = Some 17) as H2 by reflexivity.
  split; [done|].
  exact (update_positions_simd_misaligned f32_add (zeroed 0 40) 0 8 17 32 8 17 H0 H1 H2).
Defined.

Lemma update_positions_repeated_witness :
  (0 <= 3 <= INT_MAX /\ 8 mod 8 = 0 /\ aligned 0 /\ aligned 8 /\ aligned 16 /\ aligned 24
   /\ positions_ready particles8 0 8 16 24 8)
  /\ exists m',
       run (counted_loop 3 (fun _ => update_positions_simd f32_add 0 8 16 24 8)) particles8
         = Ok m'
       /\ run (counted_loop 3 (fun _ => update_positions_baseline f32_add 0 8 16 24 8))
              particles8 = Ok m'
       /\ (forall i a b c d, 0 <= i < 8 ->
             particles8 !! (0 + i) = Some a -> particles8 !! (16 + i) = Some b ->
             particles8 !! (8 + i) = Some c -> particles8 !! (24 + i) = Some d ->
             m' !! (0 + i) = Some (add_times f32_add (Z.to_nat 3) a b)
             /\ m' !! (8 + i) = Some (add_times f32_add (Z.to_nat 3) c d))
       /\ (forall a, ~ (0 <= a < 0 + 8) -> ~ (8 <= a < 8 + 8) -> m' !! a = particles8 !! a).
Proof.
  assert (0 <= 3 <= INT_MAX) as H0 by (unfold INT_MAX; lia).
  assert (8 mod 8 = 0) as H1 by reflexivity.
  assert (aligned 0 /\ aligned 8 /\ aligned 16 /\ aligned 24) as (A0 & A1 & A2 & A3)
    by (repeat split; reflexivity).
  assert (positions_ready particles8 0 8 16 24 8) as H2 by (repeat split; by vm_compute).
  split; [done|].
  exact (update_positions_repeated f32_add particles8 0 8 16 24 8 3 H0 H1 A0 A1 A2 A3 H2).
Defined.

Lemma matrix_transpose_cache_optimized_undefined_beyond_witness :
  MAX_DIM < BIG_DIM <= INT_MAX
  /\ exists e,
       run (matrix_transpose_cache_optimized 0 0 BIG_DIM) (∅ : gmap Z f32) = Undefined e.
Proof.
  assert (MAX_DIM < BIG_DIM <= INT_MAX) as H by (split; [reflexivity | discriminate]).
  split; [exact H|].
  exact (matrix_transpose_cache_optimized_undefined_beyond ∅ 0 0 BIG_DIM H).
Defined.

Lemma transposers_involution_witness :
  (0 <= 4 <= MAX_DIM /\ transpose_ready matrices4 0 16 4
   /\ allocated matrices4 32 (4 * 4) /\ disjoint 16 32 (4 * 4))
  /\ exists m',
       run (transposer true 0 16 4 ;; transposer false 16 32 4) matrices4 = Ok m'
       /\ forall k, 0 <= k < 4 * 4 -> m' !! (32 + k) = matrices4 !! (0 + k).
Proof.
  pose proof matrices4_ready as (H1 & H2 & H3 & H4).
  split; [done|].
  exact (transposers_involution true false matrices4 0 16 32 4 H1 H2 H3 H4).
Defined.

Lemma transposer_repeated_witness :
  (0 < 3 <= INT_MAX /\ 0 <= 4 <= MAX_DIM /\ transpose_ready matrices4 0 16 4)
  /\ exists m',
       run (counted_loop 3 (fun _ => transposer true 0 16 4)) matrices4 = Ok m'
       /\ run (matrix_transpose_baseline 0 16 4) matrices4 = Ok m'.
Proof.
  assert (0 < 3 <= INT_MAX) as H0 by (unfold INT_MAX; lia).
  pose proof matrices4_ready as (H1 & H2 & _).
  split; [done|].
  exact (transposer_repeated true matrices4 0 16 4 3 H0 H1 H2).
Defined.

Lemma matrix_transpose_cache_optimized_prefetch_past_end_witness :
  (0 < 17 <= MAX_DIM /\ 17 mod block = 1)
  /\ Pf 0 (17 * 17 + 15)
       ∈ accesses (fun _ _ => f32_of_Z 0) (matrix_transpose_cache_optimized 0 289 17).
Proof.
  assert (0 < 17 <= MAX_DIM) as H0 by (unfold MAX_DIM; lia).
  assert (17 mod block = 1) as H1 by reflexivity.
  split; [done|].
  exact (matrix_transpose_cache_optimized_prefetch_past_end
           (fun _ _ => f32_of_Z 0) 0 289 17 H0 H1).
Defined.

Lemma custom_memcpy_overlap_below_witness :
  (0 < 3 /\ 0 <= 2 < 0 + 3 /\ allocated bytes5 2 3 /\ allocated bytes5 0 3)
  /\ exists m', run (custom_memcpy x86_64 0 2 3) bytes5 = Ok m'
       /\ (forall k, 0 <= k < 3 -> m' !! (0 + k) = bytes5 !! (2 + k))
       /\ (forall a, ~ (0 <= a < 0 + 3) -> m' !! a = bytes5 !! a).
Proof.
  assert (0 < 3) as H0 by lia.
  assert (0 <= 2 < 0 + 3) as H1 by lia.
  assert (allocated bytes5 2 3) as H2 by (by vm_compute).
  assert (allocated bytes5 0 3) as H3 by (by vm_compute).
  split; [done|].
  exact (custom_memcpy_overlap_below x86_64 bytes5 0 2 3 H0 H1 H2 H3).
Defined.

Lemma custom_memcpy_x86_above_witness :
  (0 <= 3 /\ 0 < 2 /\ allocated bytes5 0 3 /\ allocated bytes5 2 3)
  /\ exists m', run (custom_memcpy x86_64 2 0 3) bytes5 = Ok m'
       /\ (forall k, 0 <= k < 3 -> m' !! (2 + k) = bytes5 !! (0 + k mod (2 - 0)))
       /\ (forall a, ~ (2 <= a < 2 + 3) -> m' !! a = bytes5 !! a).
Proof.
  assert (0 <= 3) as H0 by lia.
  assert (0 < 2) as H1 by lia.
  assert (allocated bytes5 0 3) as H2 by (by vm_compute).
  assert (allocated bytes5 2 3) as H3 by (by vm_compute).
  split; [done|].
  exact (custom_memcpy_x86_above bytes5 2 0 3 H0 H1 H2 H3).
Defined.

Lemma particle_buffers_ready :
  positions_ready (zeroed 0 400000) 0 100000 200000 300000 100000
  /\ disjoint 200000 300000 100000.
Proof.
  split; [|apply disjoint_spec; lia].
  split; [apply zeroed_allocated; lia|]. split; [apply zeroed_allocated; lia|].
  split; [apply zeroed_allocated; lia|]. split; [apply zeroed_allocated; lia|].
  split; [apply disjoint_spec; lia|]. split; [apply disjoint_spec; lia|].
  split; [apply disjoint_spec; lia|]. split; [apply disjoint_spec; lia|].
  apply disjoint_spec; lia.
Defined.

Lemma benchmark_particle_update_returns_witness :
  (aligned 0 /\ aligned 100000 /\ aligned 200000 /\ aligned 300000
   /\ positions_ready (zeroed 0 400000) 0 100000 200000 300000 100000
   /\ disjoint 200000 300000 100000)
  /\ exists m',
       run (benchmark_particle_update f32_add f32_of_Z x86_64 lowest_draws
              0 100000 200000 300000) (zeroed 0 400000) = Ok m'
       /\ (forall i, 0 <= i < 100000 ->
             let u := lowest_draws 2%nat (f32_of_Z (-1)) (f32_of_Z 1) i in
             let v := lowest_draws 3%nat (f32_of_Z (-1)) (f32_of_Z 1) i in
             let a := lowest_draws 4%nat (f32_of_Z 0) (f32_of_Z 100) i in
             let b := lowest_draws 5%nat (f32_of_Z 0) (f32_of_Z 100) i in
             m' !! (200000 + i) = Some u /\ m' !! (300000 + i) = Some v
             /\ m' !! (0 + i)
                = Some (match x86_64 with
                        | x86_64 => add_times f32_add 1000 a u
                        | _ => a
                        end)
             /\ m' !! (100000 + i)
                = Some (match x86_64 with
                        | x86_64 => add_times f32_add 1000 b v
                        | _ => b
                        end))
       /\ (forall c, ~ (0 <= c < 0 + 100000) -> ~ (100000 <= c < 100000 + 100000) ->
             ~ (200000 <= c < 200000 + 100000) -> ~ (300000 <= c < 300000 + 100000) ->
             m' !! c = zeroed 0 400000 !! c).
Proof.
  assert (aligned 0 /\ aligned 100000 /\ aligned 200000 /\ aligned 300000)
    as (A0 & A1 & A2 & A3) by (repeat split; reflexivity).
  pose proof particle_buffers_ready as [H1 H2].
  split; [|exact (benchmark_particle_update_returns f32_add f32_of_Z x86_64 lowest_draws
                    (zeroed 0 400000) 0 100000 200000 300000 A0 A1 A2 A3 H1 H2)].
  split; [exact A0|]. split; [exact A1|]. split; [exact A2|]. split; [exact A3|].
  split; [exact H1 | exact H2].
Defined.

Lemma matrix_buffers_ready : transpose_ready (zeroed 0 524288) 0 262144 512.
Proof.
  split; [apply zeroed_allocated; lia|]. split; [apply zeroed_allocated; lia|].
  apply disjoint_spec; lia.
Defined.

Lemma benchmark_matrix_transpose_returns_witness :
  transpose_ready (zeroed 0 524288) 0 262144 512
  /\ exists m',
       run (benchmark_matrix_transpose f32_of_Z lowest_draws 0 262144) (zeroed 0 524288)
         = Ok m'
       /\ (forall k, 0 <= k < 512 * 512 ->
             m' !! (0 + k) = Some (lowest_draws 0%nat (f32_of_Z (-1)) (f32_of_Z 1) k))
       /\ (forall i j, 0 <= i < 512 -> 0 <= j < 512 ->
             m' !! (262144 + (j * 512 + i))
             = Some (lowest_draws 0%nat (f32_of_Z (-1)) (f32_of_Z 1) (i * 512 + j)))
       /\ (forall c, ~ (0 <= c < 0 + 512 * 512) -> ~ (262144 <= c < 262144 + 512 * 512) ->
             m' !! c = zeroed 0 524288 !! c).
Proof.
  split; [exact matrix_buffers_ready|].
  exact (benchmark_matrix_transpose_returns f32_of_Z lowest_draws (zeroed 0 524288)
           0 262144 matrix_buffers_ready).
Defined.

Lemma matrix_transpose_in_place_races_witness :
  2 <= 17 <= MAX_DIM
  /\ ~ independent_iterations
         (fun ij : Z * Z => transpose_assign (float:=f32) 0 0 17 ij.1 ij.2)
         (collapse2 (omp_iterations 0 17 1) (omp_iterations 0 17 1))
  /\ (block < 17 ->
      ~ independent_iterations
          (fun ij : Z * Z => transpose_tile (float:=f32) 0 0 17 ij.1 ij.2)
          (collapse2 (omp_iterations 0 17 block) (omp_iterations 0 17 block))).
Proof.
  assert (2 <= 17 <= MAX_DIM) as H by (unfold MAX_DIM; lia).
  split; [exact H|].
  exact (matrix_transpose_in_place_races (fun _ _ => f32_of_Z 0) 0 17 H).
Defined.
